(** * Debate referee: the scoring and decision engine of [debateAnalyzer.ts]

    A shallow embedding of the class [DebateAnalyzer] and of the part of the
    JavaScript run time it relies on, followed by the properties of the
    engine.

    Modelling conventions.
    - A JavaScript [number] is an IEEE 754 double.  A finite number is the
      rational that it denotes; every arithmetic operation answers the exact
      result rounded to the nearest double, a tie going to the even one, and
      an infinity when the rounded result overflows.  The sign of zero, which
      no result of the analyzer depends on, is not modelled.
    - A string is a sequence of ASCII characters; [toLowerCase] and the
      regular-expression class [\s] are the ASCII ones.
    - An object is the ordered list of its own properties, in the order in
      which [Object.entries] enumerates them.  Members inherited from the
      built-in prototypes are not modelled: a property that is read is an
      own property, and the assignment [obj_set] is the assignment of a name
      other than [__proto__], which names the accessor of the prototype.
      What the engine makes of a participant of that name is the subject of
      the module [Accessor].
    - Logging has no effect on any result and is left out. *)

From Stdlib Require Import QArith Qround Qabs Qminmax Qpower Qreduction ZArith NArith.
From Stdlib Require Import List String Ascii Bool Arith Lia Lqa.
From Stdlib Require Import Permutation Sorted.
From Stdlib Require Import DecimalString.
Import ListNotations.

Local Open Scope string_scope.
Set Warnings "-register-all".


(** ** The JavaScript run time *)

Module JS.

(** *** Numbers *)

Section Numbers.
Local Open Scope Q_scope.

(** The binary logarithm of a positive rational, rounded down. *)
Definition ilog2 (x : Q) : Z :=
  let l := (Z.log2 (Qnum x) - Z.log2 (Zpos (Qden x)))%Z in
  if Qle_bool (2 ^ l) x then l else (l - 1)%Z.

(** The nearest integer, a tie going to the even one. *)
Definition round_even (x : Q) : Z :=
  let f := Qfloor x in
  match Qcompare (x - inject_Z f) (1 # 2) with
  | Lt => f
  | Gt => (f + 1)%Z
  | Eq => if Z.even f then f else (f + 1)%Z
  end.

(** The exponent of the unit in the last place of a double next to the
    positive [x]: 53 significant bits, and [2^-1074] for the subnormal
    numbers. *)
Definition ulp_exponent (x : Q) : Z := Z.max (ilog2 x - 52) (-1074).

Definition round_pos (x : Q) : Q :=
  let e := ulp_exponent x in inject_Z (round_even (x / 2 ^ e)) * 2 ^ e.

(** [x] rounded to the nearest double, a tie going to the even one, as if
    the exponent had no upper bound. *)
Definition rnd (x : Q) : Q :=
  let x := Qred x in
  match Qnum x with
  | Z0 => 0
  | Zpos _ => round_pos x
  | Zneg _ => - round_pos (- x)
  end.

(** The relative error of a rounding is at most [2^-53]. *)
Definition unit_roundoff : Q := 2 ^ (-53).

Inductive number : Type :=
| Num (q : Q)
| Infinity (negative : bool)
| NaN.

Definition Qltb (x y : Q) : bool := negb (Qle_bool y x).

(** The number that an operation with the exact result [x] answers. *)
Definition fl (x : Q) : number :=
  let r := rnd x in
  if Qle_bool (2 ^ 1024) (Qabs r) then Infinity (Qltb r 0) else Num r.

Definition add (a b : number) : number :=
  match a, b with
  | Num x, Num y => fl (x + y)
  | NaN, _ | _, NaN => NaN
  | Infinity s, Infinity s' => if Bool.eqb s s' then Infinity s else NaN
  | Infinity s, Num _ | Num _, Infinity s => Infinity s
  end.

Definition sub (a b : number) : number :=
  match a, b with
  | Num x, Num y => fl (x - y)
  | NaN, _ | _, NaN => NaN
  | Infinity s, Infinity s' => if Bool.eqb s s' then NaN else Infinity s
  | Infinity s, Num _ => Infinity s
  | Num _, Infinity s => Infinity (negb s)
  end.

Definition mul (a b : number) : number :=
  match a, b with
  | Num x, Num y => fl (x * y)
  | NaN, _ | _, NaN => NaN
  | Infinity s, Infinity s' => Infinity (xorb s s')
  | Infinity s, Num y | Num y, Infinity s =>
      if Qeq_bool y 0 then NaN else Infinity (xorb s (Qltb y 0))
  end.

(** [a / b].  Every divisor of the analyzer is a non-zero constant or the
    length of a list that is not empty; a zero divisor is taken as the
    positive zero. *)
Definition div (a b : number) : number :=
  match a, b with
  | Num x, Num y =>
      if Qeq_bool y 0
      then (if Qeq_bool x 0 then NaN else Infinity (Qltb x 0))
      else fl (x / y)
  | NaN, _ | _, NaN => NaN
  | Infinity _, Infinity _ => NaN
  | Infinity s, Num y => Infinity (xorb s (Qltb y 0))
  | Num _, Infinity _ => Num 0
  end.

(** [a < b] and [a > b]: false as soon as an operand is [NaN]. *)
Definition lt (a b : number) : bool :=
  match a, b with
  | Num x, Num y => Qltb x y
  | Infinity true, Num _ | Num _, Infinity false | Infinity true, Infinity false => true
  | _, _ => false
  end.

Definition gt (a b : number) : bool := lt b a.

(** [Math.round]: the nearest integer, a tie going towards plus infinity.
    The result is exact: a double beyond [2^52] is an integer already. *)
Definition Qround_half_up (x : Q) : Q := inject_Z (Qfloor (x + (1 # 2))).

Definition Math_round (a : number) : number :=
  match a with
  | Num x => Num (Qround_half_up x)
  | Infinity s => Infinity s
  | NaN => NaN
  end.

Definition Math_abs (a : number) : number :=
  match a with
  | Num x => Num (Qabs x)
  | Infinity _ => Infinity false
  | NaN => NaN
  end.

Definition of_nat (n : nat) : Q := inject_Z (Z.of_nat n).

End Numbers.

(** *** Strings *)

Definition is_whitespace (c : ascii) : bool :=
  let n := nat_of_ascii c in
  ((9 <=? n) && (n <=? 13) || (n =? 32))%nat.

Definition lower_char (c : ascii) : ascii :=
  let n := nat_of_ascii c in
  if ((65 <=? n) && (n <=? 90))%nat then ascii_of_nat (n + 32) else c.

Fixpoint toLowerCase (s : string) : string :=
  match s with
  | EmptyString => EmptyString
  | String c s' => String (lower_char c) (toLowerCase s')
  end.

(** [s.includes(sub)] *)
Fixpoint includes (s sub : string) : bool :=
  match s with
  | EmptyString => prefix sub EmptyString
  | String _ s' => prefix sub s || includes s' sub
  end.

(** [s.split(/\s+/)].  [cur] is the piece being read, [in_ws] tells that the
    previous character was white space.  A separator at either end of the
    string leaves an empty piece there, and the empty string splits into one
    empty piece. *)
Fixpoint split_ws_from (cur : string) (in_ws : bool) (s : string) : list string :=
  match s with
  | EmptyString => [cur]
  | String c s' =>
      if is_whitespace c
      then (if in_ws then split_ws_from EmptyString true s'
            else cur :: split_ws_from EmptyString true s')
      else split_ws_from (cur ++ String c EmptyString) false s'
  end.

Definition split_ws (s : string) : list string :=
  split_ws_from EmptyString false s.

(** [String(n)] for a natural number *)
Definition nat_to_string (n : nat) : string :=
  NilEmpty.string_of_uint (Nat.to_uint n).

(** [s.match(/\{[\s\S]*\}/)]: the span from the first opening brace to the
    last closing brace behind it. *)
Definition open_brace : ascii := ascii_of_nat 123.
Definition close_brace : ascii := ascii_of_nat 125.

Fixpoint from_first_open (s : string) : option string :=
  match s with
  | EmptyString => None
  | String c s' => if Ascii.eqb c open_brace then Some s else from_first_open s'
  end.

Fixpoint upto_last_close (s : string) : option string :=
  match s with
  | EmptyString => None
  | String c s' =>
      match upto_last_close s' with
      | Some r => Some (String c r)
      | None => if Ascii.eqb c close_brace then Some (String c EmptyString) else None
      end
  end.

Definition match_braces (s : string) : option string :=
  match from_first_open s with
  | Some r => upto_last_close r
  | None => None
  end.

(** *** Objects *)

(** A canonical decimal numeral: [0], or digits that do not start with [0]. *)
Definition digit_of (c : ascii) : option N :=
  let n := N_of_ascii c in
  if ((48 <=? n) && (n <=? 57))%N then Some (n - 48)%N else None.

Fixpoint digits_value (acc : N) (s : string) : option N :=
  match s with
  | EmptyString => Some acc
  | String c s' =>
      match digit_of c with
      | Some d => digits_value (10 * acc + d)%N s'
      | None => None
      end
  end.

Definition canonical_numeral (k : string) : option N :=
  match k with
  | EmptyString => None
  | String c EmptyString => digit_of c
  | String c _ => if Ascii.eqb c (ascii_of_nat 48) then None else digits_value 0 k
  end.

(** An array index is a canonical numeral below [2^32 - 1]. *)
Definition array_index (k : string) : option N :=
  match canonical_numeral k with
  | Some i => if (i <? 4294967295)%N then Some i else None
  | None => None
  end.

Section Obj.
Context {V : Type}.

Definition obj : Type := list (string * V).

Definition keys (o : obj) : list string := map fst o.

(** [o[k]] on the own properties *)
Fixpoint obj_get (o : obj) (k : string) : option V :=
  match o with
  | [] => None
  | (k', v) :: o' => if String.eqb k' k then Some v else obj_get o' k
  end.

Definition has_key (o : obj) (k : string) : bool :=
  existsb (fun e => String.eqb (fst e) k) o.

Fixpoint replace_value (k : string) (v : V) (o : obj) : obj :=
  match o with
  | [] => []
  | (k', v') :: o' =>
      if String.eqb k' k then (k', v) :: o' else (k', v') :: replace_value k v o'
  end.

Fixpoint insert_index (i : N) (k : string) (v : V) (o : obj) : obj :=
  match o with
  | [] => [(k, v)]
  | (k', v') :: o' =>
      match array_index k' with
      | Some j => if (j <? i)%N then (k', v') :: insert_index i k v o'
                  else (k, v) :: o
      | None => (k, v) :: o
      end
  end.

(** [o[k] = v].  An existing property keeps its place; a new one is
    enumerated after the older ones, except that array indices come first, in
    ascending order. *)
Definition obj_set (k : string) (v : V) (o : obj) : obj :=
  if has_key o k then replace_value k v o
  else match array_index k with
       | Some i => insert_index i k v o
       | None => (o ++ [(k, v)])%list
       end.

End Obj.
Arguments obj : clear implicits.

(** *** Values produced by [JSON.parse] *)

(** A numeral beyond the range of the doubles is parsed as an infinity. *)
Inductive JSON : Type :=
| JNull
| JBool (b : bool)
| JNum (q : Q)
| JInf (negative : bool)
| JStr (s : string)
| JArr (items : list JSON)
| JObj (props : list (string * JSON)).

(** The result of reading a property is a value or [undefined] ([None]). *)
Definition value : Type := option JSON.

(** What a [throw] carries. *)
Inductive Message : Type :=
| NoArguments
| NoJSONFound
| MissingScore (userId : string)
| InvalidScore (criterion userId : string)
| SyntaxError
| TypeError
| Rejected (reason : string)
| InvalidAIResponseFormat (cause : Message)
| FailedToAnalyze (cause : Message).

Inductive completion (A : Type) : Type :=
| Return (a : A)
| Throw (m : Message).
Arguments Return {A} a.
Arguments Throw {A} m.

Definition bind {A B : Type} (c : completion A) (k : A -> completion B) : completion B :=
  match c with
  | Return a => k a
  | Throw m => Throw m
  end.

Definition catch {A : Type} (c : completion A) (h : Message -> completion A) : completion A :=
  match c with
  | Return a => Return a
  | Throw m => h m
  end.

Fixpoint string_chars (s : string) : list JSON :=
  match s with
  | EmptyString => []
  | String c s' => JStr (String c EmptyString) :: string_chars s'
  end.

Definition indexed (l : list JSON) (k : string) : value :=
  if String.eqb k "length" then Some (JNum (of_nat (List.length l)))
  else match canonical_numeral k with
       | Some i => nth_error l (N.to_nat i)
       | None => None
       end.

(** [v[k]]: a [TypeError] on [undefined] and [null], else the own property,
    [undefined] when there is none. *)
Definition get (v : value) (k : string) : completion value :=
  match v with
  | None | Some JNull => Throw TypeError
  | Some (JObj props) => Return (obj_get props k)
  | Some (JArr l) => Return (indexed l k)
  | Some (JStr s) => Return (indexed (string_chars s) k)
  | Some (JBool _) | Some (JNum _) | Some (JInf _) => Return None
  end.

(** [!v] *)
Definition falsy (v : value) : bool :=
  match v with
  | None | Some JNull | Some (JBool false) => true
  | Some (JNum q) => Qeq_bool q 0
  | Some (JStr EmptyString) => true
  | _ => false
  end.

Fixpoint number_entries (i : nat) (l : list JSON) : list (string * JSON) :=
  match l with
  | [] => []
  | x :: l' => (nat_to_string i, x) :: number_entries (S i) l'
  end.

(** [Object.entries(v)] *)
Definition Object_entries (v : value) : completion (list (string * JSON)) :=
  match v with
  | None | Some JNull => Throw TypeError
  | Some (JObj props) => Return props
  | Some (JArr l) => Return (number_entries 0 l)
  | Some (JStr s) => Return (number_entries 0 (string_chars s))
  | Some (JBool _) | Some (JNum _) | Some (JInf _) => Return []
  end.

(** The conversion of [v] to a string, which the conversion of an array
    to a number starts with, throws: an object with a property [toString]
    of its own, which a value of [JSON.parse] cannot call, and an array with
    such an item. *)
Fixpoint toString_throws (v : JSON) : bool :=
  match v with
  | JObj props => existsb (fun e => String.eqb (fst e) "toString") props
  | JArr items => existsb toString_throws items
  | _ => false
  end.

(** [arr.sort(cmp)], where [after a b] tells that [cmp(a, b) > 0], that is
    that [a] has to come after [b].  The sort is stable. *)
Section Sort.
Context {A : Type} (after : A -> A -> bool).

Fixpoint insert_sorted (x : A) (l : list A) : list A :=
  match l with
  | [] => [x]
  | y :: l' => if after x y then y :: insert_sorted x l' else x :: l
  end.

Fixpoint sort (l : list A) : list A :=
  match l with
  | [] => []
  | x :: l' => insert_sorted x (sort l')
  end.

End Sort.

End JS.

(** ** The data model of [debateStore.ts] *)

Module Argument.
Record t : Type := {
  id : string;
  userId : string;
  userName : string;
  topic : string;
  text : string;
  timestamp : Z
}.
End Argument.

Module DebateSession.
Record t : Type := {
  id : string;
  topic : string;
  arguments : list Argument.t;
  createdAt : Z;
  processedAt : option Z
}.
End DebateSession.

(** An entry of [FallbackScoringData], as the heuristic scorer builds it. *)
Module Score.
Record t : Type := {
  clarity : Q;
  logic : Q;
  evidence : Q;
  relevance : Q;
  reasoning : string
}.
End Score.

Module Scores.
Record t : Type := {
  clarity : JS.number;
  logic : JS.number;
  evidence : JS.number;
  relevance : JS.number
}.
End Scores.

(** An entry of [DebateResult['results']]. *)
Module UserResult.
Record t : Type := {
  userName : string;
  scores : Scores.t;
  finalScore : JS.number;
  reasoning : JS.value
}.
End UserResult.

Module Winner.
Record t : Type := {
  userId : string;
  userName : string;
  finalScore : JS.number
}.
End Winner.

Module DebateResult.
Record t : Type := {
  sessionId : string;
  topic : string;
  results : JS.obj UserResult.t;
  winner : option Winner.t;
  isTie : bool;
  consensusStatement : JS.value;
  processedAt : Z
}.
End DebateResult.

(** ** The class [DebateAnalyzer] *)

Module DebateAnalyzer.
Import JS.

Local Open Scope Q_scope.

(** A decimal literal denotes the double nearest to it. *)
Module scoringWeights.
Definition clarity : Q := rnd 0.25.
Definition logic : Q := rnd 0.30.
Definition evidence : Q := rnd 0.25.
Definition relevance : Q := rnd 0.20.
End scoringWeights.

(** The interface [AIScoringResponse], as the heuristic scorer builds it.  The
    answer of the judge is cast to this interface without a check and is kept
    as the [JSON] value that it is. *)
Module AIScoringResponse.
Record t : Type := {
  scores : obj Score.t;
  consensusStatement : string
}.
End AIScoringResponse.

(** *** The heuristic scorer *)

Definition evidenceIndicators : list string :=
  ["according to"; "research shows"; "studies indicate"; "data suggests";
   "statistics show"; "evidence shows"; "proven"; "demonstrated";
   "example"; "for instance"; "case study"; "survey"; "poll"]%string.

Definition detectEvidence (text : string) : bool :=
  let lowerText := toLowerCase text in
  existsb (fun indicator => includes lowerText indicator) evidenceIndicators.

Definition structureIndicators : list string :=
  ["first"; "second"; "third"; "furthermore"; "moreover"; "additionally";
   "however"; "therefore"; "consequently"; "in conclusion"; "to summarize"]%string.

Definition detectStructure (text : string) : bool :=
  let lowerText := toLowerCase text in
  existsb (fun indicator => includes lowerText indicator) structureIndicators.

(** [topicWords] has at least one piece, so that the ratio is well defined;
    the quotient, the product and the sum are rounded, and none of them
    overflows. *)
Definition calculateRelevance (text topic : string) : Q :=
  let topicWords := split_ws (toLowerCase topic) in
  let textWords := split_ws (toLowerCase text) in
  let matches :=
    filter (fun word =>
              existsb (fun textWord => includes textWord word || includes word textWord)
                      textWords)
           topicWords in
  let relevanceRatio := rnd (of_nat (List.length matches) / of_nat (List.length topicWords)) in
  Qmin 10 (Qmax 5 (rnd (rnd (relevanceRatio * 10) + 5))).

(** The body of the loop of [performFallbackAnalysis]: the entry written
    for one argument. *)
Definition fallbackScore (topic text : string) : Score.t :=
  let wordCount := List.length (split_ws text) in
  let hasEvidence := detectEvidence text in
  let hasStructure := detectStructure text in
  let clarity := Qmin 10 (Qmax 5 (if hasStructure then 8 else 6)) in
  let logic := Qmin 10 (Qmax 4 (if (50 <? wordCount)%nat then 7 else 5)) in
  let evidence := Qmin 10 (Qmax 3 (if hasEvidence then 8 else 4)) in
  let relevance := Qmin 10 (Qmax 6 (calculateRelevance text topic)) in
  {| Score.clarity := clarity;
     Score.logic := logic;
     Score.evidence := evidence;
     Score.relevance := relevance;
     Score.reasoning :=
       ("Fallback scoring: "
        ++ (if hasStructure then "Well-structured" else "Basic structure") ++ ", "
        ++ (if hasEvidence then "Contains evidence" else "Limited evidence") ++ ", "
        ++ nat_to_string wordCount ++ " words")%string |}.

(** The loop of [performFallbackAnalysis], started on the object [scores]. *)
Definition fallbackLoop (topic : string) (args : list Argument.t) (scores : obj Score.t)
  : obj Score.t :=
  fold_left
    (fun scores arg =>
       obj_set (Argument.userId arg) (fallbackScore topic (Argument.text arg)) scores)
    args scores.

Definition performFallbackAnalysis (session : DebateSession.t) : AIScoringResponse.t :=
  let scores :=
    fallbackLoop (DebateSession.topic session) (DebateSession.arguments session) [] in
  {| AIScoringResponse.scores := scores;
     AIScoringResponse.consensusStatement :=
       ("Fallback analysis: "
        ++ nat_to_string (List.length (DebateSession.arguments session))
        ++ " arguments analyzed using basic heuristics. Results may vary from AI analysis.")%string |}.

(** The heuristic payload as the object it is at run time. *)
Definition Score_value (s : Score.t) : JSON :=
  JObj [("clarity", JNum (Score.clarity s));
        ("logic", JNum (Score.logic s));
        ("evidence", JNum (Score.evidence s));
        ("relevance", JNum (Score.relevance s));
        ("reasoning", JStr (Score.reasoning s))]%string.

Definition AIScoringResponse_value (r : AIScoringResponse.t) : JSON :=
  JObj [("scores",
         JObj (map (fun e => (fst e, Score_value (snd e))) (AIScoringResponse.scores r)));
        ("consensusStatement", JStr (AIScoringResponse.consensusStatement r))]%string.

(** What [determineWinner] returns. *)
Module Decision.
Record t : Type := {
  winner : option Winner.t;
  isTie : bool
}.
End Decision.

Section Host.

(** The built-in conversions of a string and of an array to a number go
    through [StringToNumber] and [Array.prototype.toString]. *)
Variable StringToNumber : string -> number.
Variable Array_toString : list JSON -> string.

(** [JSON.parse]; [None] stands for its [SyntaxError]. *)
Variable JSON_parse : string -> option JSON.

(** [runtime.generateText], as a function of the prompt: the text of the
    judge, or the error the call is rejected with. *)
Variable generateText : string -> completion string.

(** The reading of the clock by [Date.now()]. *)
Variable Date_now : Z.

(** *** The aggregator *)

(** The number an operand of [*] is converted to.  The conversion of an
    object or of an array goes through [valueOf] and [toString]; on a value
    of [JSON.parse] it throws when a property [toString] of the value itself
    hides the inherited method. *)
Definition ToNumber (v : value) : completion number :=
  match v with
  | None => Return NaN
  | Some JNull => Return (Num 0)
  | Some (JBool b) => Return (Num (if b then 1 else 0))
  | Some (JNum q) => Return (Num q)
  | Some (JInf negative) => Return (Infinity negative)
  | Some (JStr s) => Return (StringToNumber s)
  | Some (JArr l) =>
      if existsb toString_throws l then Throw TypeError
      else Return (StringToNumber (Array_toString l))
  | Some (JObj props) =>
      if toString_throws (JObj props) then Throw TypeError else Return NaN
  end.

(** [score[criterion]] as an operand of [*]. *)
Definition operand (score : JSON) (criterion : string) : completion number :=
  bind (get (Some score) criterion) ToNumber.

(** The body of the loop of [calculateFinalScores]: the result written for
    one entry [score] of the payload.  The four sub-scores are read and
    converted a second time for the display, with the same outcome. *)
Definition finalResult (score : JSON) : completion UserResult.t :=
  bind (operand score "clarity") (fun clarity =>
  bind (operand score "logic") (fun logic =>
  bind (operand score "evidence") (fun evidence =>
  bind (operand score "relevance") (fun relevance =>
  bind (get (Some score) "reasoning") (fun reasoning =>
  let finalScore :=
    add (add (add (mul clarity (Num scoringWeights.clarity))
                  (mul logic (Num scoringWeights.logic)))
             (mul evidence (Num scoringWeights.evidence)))
        (mul relevance (Num scoringWeights.relevance)) in
  Return
    {| UserResult.userName := EmptyString;
       UserResult.scores :=
         {| Scores.clarity := div (Math_round (mul clarity (Num 10))) (Num 10);
            Scores.logic := div (Math_round (mul logic (Num 10))) (Num 10);
            Scores.evidence := div (Math_round (mul evidence (Num 10))) (Num 10);
            Scores.relevance := div (Math_round (mul relevance (Num 10))) (Num 10) |};
       UserResult.finalScore := div (Math_round (mul finalScore (Num 100))) (Num 100);
       UserResult.reasoning := reasoning |}))))).

Fixpoint finalResults (entries : list (string * JSON)) (results : obj UserResult.t)
  : completion (obj UserResult.t) :=
  match entries with
  | [] => Return results
  | (userId, score) :: rest =>
      bind (finalResult score) (fun r => finalResults rest (obj_set userId r results))
  end.

Definition calculateFinalScores (scores : value) : completion (obj UserResult.t) :=
  bind (Object_entries scores) (fun entries => finalResults entries []).

(** *** The winner resolver *)

(** The comparator of the sort is [b.finalScore - a.finalScore]. *)
Definition byFinalScore (a b : string * UserResult.t) : bool :=
  gt (sub (UserResult.finalScore (snd b)) (UserResult.finalScore (snd a))) (Num 0).

Definition determineWinner (results : obj UserResult.t) : Decision.t :=
  match results with
  | [] => {| Decision.winner := None; Decision.isTie := false |}
  | [(userId, result)] =>
      {| Decision.winner :=
           Some {| Winner.userId := userId;
                   Winner.userName := UserResult.userName result;
                   Winner.finalScore := UserResult.finalScore result |};
         Decision.isTie := false |}
  | _ =>
      match sort byFinalScore results with
      | (winnerUserId, winnerResult) :: (_, secondResult) :: _ =>
          let isTie :=
            lt (Math_abs (sub (UserResult.finalScore winnerResult)
                              (UserResult.finalScore secondResult)))
               (Num (rnd 0.1)) in
          {| Decision.winner :=
               if isTie then None
               else Some {| Winner.userId := winnerUserId;
                            Winner.userName := UserResult.userName winnerResult;
                            Winner.finalScore := UserResult.finalScore winnerResult |};
             Decision.isTie := isTie |}
      | _ => (* not reached: sorting keeps the length *)
          {| Decision.winner := None; Decision.isTie := false |}
      end
  end.

(** *** The external judge and the response validator *)

Definition newline : string := String (ascii_of_nat 10) EmptyString.
Definition quoted (s : string) : string :=
  (String (ascii_of_nat 34) s ++ String (ascii_of_nat 34) EmptyString)%string.

(** The pieces that [map] builds in [constructAnalysisPrompt], [index]
    being the position of the first one. *)
Fixpoint argumentTexts (index : nat) (args : list Argument.t) : list string :=
  match args with
  | [] => []
  | arg :: rest =>
      ("Argument " ++ nat_to_string (index + 1)
       ++ " (User: " ++ Argument.userName arg ++ "):" ++ newline
       ++ Argument.text arg ++ newline)%string
      :: argumentTexts (S index) rest
  end.

(** Reading [session.arguments[0].userId] throws on an empty session. *)
Definition constructAnalysisPrompt (session : DebateSession.t) : completion string :=
  let argumentsText :=
    String.concat newline (argumentTexts 0 (DebateSession.arguments session)) in
  match DebateSession.arguments session with
  | [] => Throw TypeError
  | first :: _ =>
      Return (String.concat newline
        [("You are an expert debate judge. Analyze the following arguments for the topic "
          ++ quoted (DebateSession.topic session)
          ++ " and score each argument on four criteria (0-10 scale):")%string;
         EmptyString;
         "CRITERIA:";
         "- Clarity: How clear and well-structured is the argument?";
         "- Logic: How sound is the logical reasoning?";
         "- Evidence: How well-supported is the argument with evidence?";
         "- Relevance: How relevant is the argument to the topic?";
         EmptyString;
         "ARGUMENTS:";
         argumentsText;
         EmptyString;
         "Please respond with a JSON object in this exact format:";
         "{";
         ("  " ++ quoted "scores" ++ ": {")%string;
         ("    " ++ quoted (Argument.userId first) ++ ": {")%string;
         ("      " ++ quoted "clarity" ++ ": 8,")%string;
         ("      " ++ quoted "logic" ++ ": 7,")%string;
         ("      " ++ quoted "evidence" ++ ": 6,")%string;
         ("      " ++ quoted "relevance" ++ ": 9,")%string;
         ("      " ++ quoted "reasoning" ++ ": "
          ++ quoted "Brief explanation of the scoring")%string;
         "    }";
         "  },";
         ("  " ++ quoted "consensusStatement" ++ ": "
          ++ quoted "A neutral summary of the key points and overall consensus")%string;
         "}";
         EmptyString;
         "IMPORTANT:";
         "- Score each argument on a 0-10 scale for each criterion";
         "- Provide brief reasoning for each score";
         "- Create a neutral consensus statement";
         "- Ensure all user IDs from the arguments are included in the scores object";
         "- Return ONLY valid JSON, no additional text"]%string)
  end.

(** [typeof v !== 'number' || v < 0 || v > 10] *)
Definition invalidScore (v : value) : bool :=
  match v with
  | Some (JNum q) => Qltb q 0 || Qltb 10 q
  | Some (JInf _) => true
  | _ => true
  end.

Definition checkCriterion (score : value) (criterion userId : string) : completion unit :=
  bind (get score criterion) (fun v =>
  if invalidScore v then Throw (InvalidScore criterion userId) else Return tt).

(** The body of the validation loop of [parseAIResponse]. *)
Definition checkArgument (parsed : JSON) (arg : Argument.t) : completion unit :=
  let userId := Argument.userId arg in
  bind (get (Some parsed) "scores") (fun scores =>
  bind (get scores userId) (fun score =>
  if falsy score then Throw (MissingScore userId)
  else
    bind (checkCriterion score "clarity" userId) (fun _ =>
    bind (checkCriterion score "logic" userId) (fun _ =>
    bind (checkCriterion score "evidence" userId) (fun _ =>
    checkCriterion score "relevance" userId))))).

Fixpoint checkArguments (parsed : JSON) (args : list Argument.t) : completion unit :=
  match args with
  | [] => Return tt
  | arg :: rest => bind (checkArgument parsed arg) (fun _ => checkArguments parsed rest)
  end.

Definition parseAIResponse (response : string) (session : DebateSession.t)
  : completion JSON :=
  catch
    match match_braces response with
    | None => Throw NoJSONFound
    | Some jsonMatch =>
        match JSON_parse jsonMatch with
        | None => Throw SyntaxError
        | Some parsed =>
            bind (checkArguments parsed (DebateSession.arguments session)) (fun _ =>
            Return parsed)
        end
    end
    (fun error => Throw (InvalidAIResponseFormat error)).

Definition performAIAnalysis (session : DebateSession.t) : completion JSON :=
  bind (constructAnalysisPrompt session) (fun prompt =>
  catch
    (bind (generateText prompt) (fun response => parseAIResponse response session))
    (fun error => Throw error)).

(** *** The orchestrator *)

Definition analyzeDebate (session : DebateSession.t) : completion DebateResult.t :=
  catch
    (if (List.length (DebateSession.arguments session) =? 0)%nat
     then Throw NoArguments
     else
       let aiResponse :=
         match performAIAnalysis session with
         | Return response => response
         | Throw _ => AIScoringResponse_value (performFallbackAnalysis session)
         end in
       bind (get (Some aiResponse) "scores") (fun scores =>
       bind (calculateFinalScores scores) (fun results =>
       let winner := determineWinner results in
       bind (get (Some aiResponse) "consensusStatement") (fun consensusStatement =>
       Return
         {| DebateResult.sessionId := DebateSession.id session;
            DebateResult.topic := DebateSession.topic session;
            DebateResult.results := results;
            DebateResult.winner := Decision.winner winner;
            DebateResult.isTie := Decision.isTie winner;
            DebateResult.consensusStatement := consensusStatement;
            DebateResult.processedAt := Date_now |}))))
    (fun error => Throw (FailedToAnalyze error)).

End Host.

End DebateAnalyzer.

(** ** A participant named [__proto__]

    The object [scores] of [performFallbackAnalysis] is created by [{}] and
    inherits the accessor [__proto__] of [Object.prototype].  An assignment
    [scores[arg.userId] = {...}] with that name calls the setter of the
    accessor: the assigned object takes the place of the prototype and the
    object gets no property.  This module has the object with its prototype,
    and the loop of [performFallbackAnalysis] with this assignment. *)

Module Accessor.
Import JS.

(** An object created by [{}]: its own properties, and the object put in
    the place of its prototype, if any ([None] is [Object.prototype]). *)
Record ordinary (V : Type) : Type := {
  properties : obj V;
  prototype : option V
}.
Arguments properties {V}.
Arguments prototype {V}.

(** [{}] *)
Definition empty {V : Type} : ordinary V :=
  {| properties := []; prototype := None |}.

(** [o[k] = v], for an object [v]. *)
Definition assign {V : Type} (k : string) (v : V) (o : ordinary V) : ordinary V :=
  if String.eqb k "__proto__"
  then {| properties := properties o; prototype := Some v |}
  else {| properties := obj_set k v (properties o); prototype := prototype o |}.

(** [Object.keys(o)]: the names of the own properties. *)
Definition Object_keys {V : Type} (o : ordinary V) : list string :=
  keys (properties o).

(** The loop of [performFallbackAnalysis], started on the object [scores]. *)
Definition fallbackLoop (topic : string) (args : list Argument.t)
  (scores : ordinary Score.t) : ordinary Score.t :=
  fold_left
    (fun scores arg =>
       assign (Argument.userId arg)
              (DebateAnalyzer.fallbackScore topic (Argument.text arg)) scores)
    args scores.

(** The field [scores] of what [performFallbackAnalysis] returns. *)
Definition performFallbackAnalysis (session : DebateSession.t) : ordinary Score.t :=
  fallbackLoop (DebateSession.topic session) (DebateSession.arguments session) empty.

(** The participants of a session. *)
Definition participants (session : DebateSession.t) : list string :=
  map Argument.userId (DebateSession.arguments session).

(** A session of two participants, one of whom has entered [__proto__] as
    the user id. *)
Definition argument (userId userName text : string) : Argument.t :=
  {| Argument.id := EmptyString;
     Argument.userId := userId;
     Argument.userName := userName;
     Argument.topic := "Should AI replace human teachers?";
     Argument.text := text;
     Argument.timestamp := 0 |}.

Definition session : DebateSession.t :=
  {| DebateSession.id := "debate_3";
     DebateSession.topic := "Should AI replace human teachers?";
     DebateSession.arguments :=
       [argument "__proto__" "Alice"
          "However, research shows that teachers notice what a machine cannot.";
        argument "user2" "Bob" "AI is cheaper."];
     DebateSession.createdAt := 0;
     DebateSession.processedAt := None |}.

End Accessor.

(** ** Notions used to state the properties *)

Module Spec.
Import JS.
Local Open Scope Q_scope.

(** [q] is a double: rounding leaves it as it is. *)
Definition double (q : Q) : Prop := rnd q == q.

(** The final score of an entry is a finite number: neither [NaN] nor an
    infinity. *)
Definition numeric (e : string * UserResult.t) : Prop :=
  exists q, UserResult.finalScore (snd e) = Num q /\ double q.

(** [e1] has a final score at least as high as [e2]. *)
Definition outranks (e1 e2 : string * UserResult.t) : Prop :=
  exists q1 q2,
    UserResult.finalScore (snd e1) = Num q1 /\
    UserResult.finalScore (snd e2) = Num q2 /\ q2 <= q1.

(** The winner reference made of an entry. *)
Definition winnerOf (e : string * UserResult.t) : Winner.t :=
  {| Winner.userId := fst e;
     Winner.userName := UserResult.userName (snd e);
     Winner.finalScore := UserResult.finalScore (snd e) |}.

(** The weighted sum of the rubric. *)
Definition weightedSum (clarity logic evidence relevance : Q) : Q :=
  0.25 * clarity + 0.30 * logic + 0.25 * evidence + 0.20 * relevance.


Definition inRange (q : Q) : Prop := 0 <= q /\ q <= 10.

(** The distance within which the weighted sum that the doubles give stays
    from the exact one. *)
Definition tolerance : Q := 1 # 100000000000000.


(** [score] is a raw score with the four sub-scores [c], [l], [e] and [r],
    each of them in the range from 0 to 10. *)
Definition rawScore (score : JSON) (c l e r : Q) : Prop :=
  get (Some score) "clarity" = Return (Some (JNum c)) /\
  get (Some score) "logic" = Return (Some (JNum l)) /\
  get (Some score) "evidence" = Return (Some (JNum e)) /\
  get (Some score) "relevance" = Return (Some (JNum r)) /\
  inRange c /\ inRange l /\ inRange e /\ inRange r.


(** [x] clamped to the interval from [lo] to [hi]. *)
Definition clamp (lo hi x : Q) : Q := Qmin hi (Qmax lo x).

(** [a] occurs in [b] as a substring. *)
Definition isSubstring (a b : string) : bool := includes b a.

(** The words of a text: its longest runs of characters that are not
    white space; [cur] is the word being read. *)
Fixpoint words_from (cur : string) (s : string) : list string :=
  match s with
  | EmptyString => match cur with EmptyString => [] | _ => [cur] end
  | String c s' =>
      if is_whitespace c
      then match cur with
           | EmptyString => words_from EmptyString s'
           | _ => cur :: words_from EmptyString s'
           end
      else words_from (cur ++ String c EmptyString) s'
  end.

(** The lowercase words of a text, delimited by white space. *)
Definition words (s : string) : list string := words_from EmptyString (toLowerCase s).

Fixpoint countIf {A : Type} (p : A -> bool) (l : list A) : nat :=
  match l with
  | [] => 0
  | x :: l' => (if p x then 1 else 0) + countIf p l'
  end.

(** The share of the topic words that are a substring of some word of the
    argument, or have some word of the argument as a substring. *)
Definition matchedShare (text topic : string) : Q :=
  let matched :=
    countIf (fun w => existsb (fun t => isSubstring w t || isSubstring t w) (words text))
            (words topic) in
  of_nat matched / of_nat (List.length (words topic)).

(** The ratio is that share, as the division of the doubles gives it. *)
Definition relevanceRatio (text topic : string) : Q := rnd (matchedShare text topic).

(** The ratio times 10 plus 5, as the doubles give it. *)
Definition relevanceOf (ratio : Q) : Q := rnd (rnd (ratio * 10) + 5).

Fixpoint ends_with_space (s : string) : bool :=
  match s with
  | EmptyString => true
  | String c EmptyString => is_whitespace c
  | String _ s' => ends_with_space s'
  end.

(** The text is trimmed: it is not empty, and neither begins nor ends with
    white space. *)
Definition trimmed (s : string) : bool :=
  match s with
  | EmptyString => false
  | String c _ => negb (is_whitespace c) && negb (ends_with_space s)
  end.

(** The text has no span that starts with an opening brace and ends with a
    closing brace. *)
Definition noBraceSpan (s : string) : Prop :=
  ~ exists a b c, s = (a ++ "{" ++ b ++ "}" ++ c)%string.

(** The four criteria, in the order in which they are checked. *)
Definition criteria : list string := ["clarity"; "logic"; "evidence"; "relevance"]%string.

(** [v] is a number in the inclusive range from 0 to 10. *)
Definition numberInRange (v : value) : Prop :=
  exists q, v = Some (JNum q) /\ inRange q.

(** The value of a criterion in an entry, [undefined] when there is none. *)
Definition fieldOf (score : JSON) (criterion : string) : value :=
  match get (Some score) criterion with
  | Return v => v
  | Throw _ => None
  end.

(** The [scores] of a payload, and the entry of a participant in them. *)
Definition scoresOf (parsed : JSON) : value :=
  match get (Some parsed) "scores" with
  | Return scores => scores
  | Throw _ => None
  end.

Definition entryOf (parsed : JSON) (userId : string) : value :=
  match get (scoresOf parsed) userId with
  | Return entry => entry
  | Throw _ => None
  end.

(** The payload has an entry for the participant, and each of the four
    criteria of the entry is a number in the range. *)
Definition scored (parsed : JSON) (userId : string) : Prop :=
  exists score,
    entryOf parsed userId = Some score /\
    Forall (fun criterion => numberInRange (fieldOf score criterion)) criteria.

(** The first violation that the entry of a participant shows: there are
    no scores to read from; or the participant has no entry (or an entry
    that counts as false); or else the first criterion, in the order of
    [criteria], that is not a number in the range. *)
Inductive violationOf (parsed : JSON) (userId : string) : Message -> Prop :=
| violation_no_scores :
    scoresOf parsed = None \/ scoresOf parsed = Some JNull ->
    violationOf parsed userId TypeError
| violation_missing entry :
    get (scoresOf parsed) userId = Return entry ->
    falsy entry = true ->
    violationOf parsed userId (MissingScore userId)
| violation_invalid score before criterion behind :
    entryOf parsed userId = Some score ->
    falsy (Some score) = false ->
    criteria = (before ++ criterion :: behind)%list ->
    Forall (fun c => numberInRange (fieldOf score c)) before ->
    ~ numberInRange (fieldOf score criterion) ->
    violationOf parsed userId (InvalidScore criterion userId).

(** The number of pieces that the scorer counts as the words of a text. *)
Definition wordCount (text : string) : nat := List.length (split_ws text).

(** The result that the aggregator makes of an entry of the heuristic
    scorer. *)
Definition heuristicResult (s : Score.t) : UserResult.t :=
  let tenth (x : Q) := div (Math_round (mul (Num x) (Num 10))) (Num 10) in
  let finalScore :=
    add (add (add (mul (Num (Score.clarity s)) (Num DebateAnalyzer.scoringWeights.clarity))
                  (mul (Num (Score.logic s)) (Num DebateAnalyzer.scoringWeights.logic)))
             (mul (Num (Score.evidence s)) (Num DebateAnalyzer.scoringWeights.evidence)))
        (mul (Num (Score.relevance s)) (Num DebateAnalyzer.scoringWeights.relevance)) in
  {| UserResult.userName := EmptyString;
     UserResult.scores :=
       {| Scores.clarity := tenth (Score.clarity s);
          Scores.logic := tenth (Score.logic s);
          Scores.evidence := tenth (Score.evidence s);
          Scores.relevance := tenth (Score.relevance s) |};
     UserResult.finalScore := div (Math_round (mul finalScore (Num 100))) (Num 100);
     UserResult.reasoning := Some (JStr (Score.reasoning s)) |}.

End Spec.

(** ** Concrete sessions and judges *)

(** A judge that scores the one participant of a session and adds a null
    entry for somebody else. *)
Module NullEntry.
Import JS.
Import DebateAnalyzer.

Definition argument : Argument.t :=
  {| Argument.id := "debate_1_a";
     Argument.userId := "user1";
     Argument.userName := "Alice";
     Argument.topic := "Should AI replace human teachers?";
     Argument.text := "AI is cheaper than teachers.";
     Argument.timestamp := 1 |}.

Definition session : DebateSession.t :=
  {| DebateSession.id := "debate_1";
     DebateSession.topic := "Should AI replace human teachers?";
     DebateSession.arguments := [argument];
     DebateSession.createdAt := 0;
     DebateSession.processedAt := None |}.

(** The text that the judge answers:
    [{"scores":{"user1":{"clarity":8,"logic":7,"evidence":6,"relevance":9,
    "reasoning":"r"},"user2":null},"consensusStatement":"c"}] *)
Definition response : string :=
  ("{" ++ quoted "scores" ++ ":{"
   ++ quoted "user1" ++ ":{"
   ++ quoted "clarity" ++ ":8," ++ quoted "logic" ++ ":7,"
   ++ quoted "evidence" ++ ":6," ++ quoted "relevance" ++ ":9,"
   ++ quoted "reasoning" ++ ":" ++ quoted "r" ++ "},"
   ++ quoted "user2" ++ ":null},"
   ++ quoted "consensusStatement" ++ ":" ++ quoted "c" ++ "}")%string.

(** What [JSON.parse] makes of it. *)
Definition payload : JSON :=
  JObj [("scores",
         JObj [("user1",
                JObj [("clarity", JNum 8); ("logic", JNum 7); ("evidence", JNum 6);
                      ("relevance", JNum 9); ("reasoning", JStr "r")]);
               ("user2", JNull)]);
        ("consensusStatement", JStr "c")]%string.

Definition JSON_parse (s : string) : option JSON :=
  if String.eqb s response then Some payload else None.

Definition generateText (prompt : string) : completion string := Return response.

End NullEntry.

(** Scenario A: a long argument with "studies show" and "however", against
    a short argument without any marker, scored without a judge. *)
Module ScenarioA.
Import JS.
Import DebateAnalyzer.

Definition topic : string := "Should AI replace human teachers?".

Definition text1 : string :=
  "Studies show that students who learn with adaptive software progress faster than their peers, because the software adjusts every exercise to the level of the learner and gives feedback at once. However, a machine cannot notice when a child is tired, sad or afraid, and it cannot encourage a class the way a person does, so teachers will stay necessary in every school.".

Definition text2 : string := "AI is cheaper than teachers.".

Definition argument1 : Argument.t :=
  {| Argument.id := "debate_1_a";
     Argument.userId := "user1";
     Argument.userName := "Alice";
     Argument.topic := topic;
     Argument.text := text1;
     Argument.timestamp := 1 |}.

Definition argument2 : Argument.t :=
  {| Argument.id := "debate_1_b";
     Argument.userId := "user2";
     Argument.userName := "Bob";
     Argument.topic := topic;
     Argument.text := text2;
     Argument.timestamp := 2 |}.

Definition session : DebateSession.t :=
  {| DebateSession.id := "debate_1";
     DebateSession.topic := topic;
     DebateSession.arguments := [argument1; argument2];
     DebateSession.createdAt := 0;
     DebateSession.processedAt := None |}.

(** The run time without a judge: every call is rejected. *)
Definition generateText (prompt : string) : completion string :=
  Throw (Rejected "AI not available - using fallback mode").

Definition JSON_parse (s : string) : option JSON := None.

End ScenarioA.

(** The payload of the judge of [demo.js], and three results to choose a
    winner from, each with the double nearest to a decimal as its final
    score. *)
Module Demo.
Import JS.

Definition scores : list (string * JSON) :=
  [("user1",
    JObj [("clarity", JNum 8); ("logic", JNum 7); ("evidence", JNum 6);
          ("relevance", JNum 9); ("reasoning", JStr "Clear argument")]);
   ("user2",
    JObj [("clarity", JNum 7); ("logic", JNum 8); ("evidence", JNum 7);
          ("relevance", JNum 8); ("reasoning", JStr "Well-reasoned counter-argument")])]%string.

Definition result (finalScore : Q) : UserResult.t :=
  {| UserResult.userName := EmptyString;
     UserResult.scores :=
       {| Scores.clarity := Num 7; Scores.logic := Num 7;
          Scores.evidence := Num 7; Scores.relevance := Num 7 |};
     UserResult.finalScore := Num (rnd finalScore);
     UserResult.reasoning := None |}.

Definition results : obj UserResult.t :=
  [("user1", result 7.35); ("user2", result 7.55); ("user3", result 7.4)]%string.

End Demo.

(** An entry whose weighted sum lies half-way between two hundredths. *)
Module Midpoint.
Import JS.

Definition score : JSON :=
  JObj [("clarity", JNum 0); ("logic", JNum 0.5); ("evidence", JNum 0);
        ("relevance", JNum 4.375); ("reasoning", JStr "r")]%string.

End Midpoint.

(** A payload in which the judge has left an entry without any score. *)
Module Unscored.
Import JS.

Definition scores : list (string * JSON) :=
  [("user1", JObj []);
   ("user2",
    JObj [("clarity", JNum 5); ("logic", JNum 5); ("evidence", JNum 5);
          ("relevance", JNum 5); ("reasoning", JStr "r")])]%string.

(** What the aggregator makes of it. *)
Definition results : obj UserResult.t :=
  match DebateAnalyzer.calculateFinalScores (fun _ => NaN) (fun _ => EmptyString)
          (Some (JObj scores)) with
  | Return results => results
  | Throw _ => []
  end.

End Unscored.

(** A session in which a participant argues twice. *)
Module Repeated.

Definition argument (userId text : string) : Argument.t :=
  {| Argument.id := EmptyString;
     Argument.userId := userId;
     Argument.userName := userId;
     Argument.topic := "Should AI replace human teachers?";
     Argument.text := text;
     Argument.timestamp := 0 |}.

Definition session : DebateSession.t :=
  {| DebateSession.id := "debate_2";
     DebateSession.topic := "Should AI replace human teachers?";
     DebateSession.arguments :=
       [argument "user1" "AI is cheaper than teachers.";
        argument "user1" "However, teachers notice what a machine cannot.";
        argument "user2" "Teachers are human."];
     DebateSession.createdAt := 0;
     DebateSession.processedAt := None |}.

End Repeated.


(** ** The callers of the analyzer: [DebateRefereeCLI] and [demo.js] *)

Module DebateRefereeCLI.

(** The body of the loop that fills in the user names after
    [analyzeDebate]: the result of [userId] takes the name of the first
    argument of that participant, if there is one. *)
Definition fillUserName (session : DebateSession.t) (entry : string * UserResult.t)
  : string * UserResult.t :=
  let (userId, userResult) := entry in
  match find (fun arg => String.eqb (Argument.userId arg) userId)
             (DebateSession.arguments session) with
  | Some argument =>
      (userId,
       {| UserResult.userName := Argument.userName argument;
          UserResult.scores := UserResult.scores userResult;
          UserResult.finalScore := UserResult.finalScore userResult;
          UserResult.reasoning := UserResult.reasoning userResult |})
  | None => entry
  end.

(** The loop: it updates the entries of [result.results] in place and
    leaves the rest of the decision as it is. *)
Definition fillUserNames (session : DebateSession.t) (result : DebateResult.t)
  : DebateResult.t :=
  {| DebateResult.sessionId := DebateResult.sessionId result;
     DebateResult.topic := DebateResult.topic result;
     DebateResult.results := map (fillUserName session) (DebateResult.results result);
     DebateResult.winner := DebateResult.winner result;
     DebateResult.isTie := DebateResult.isTie result;
     DebateResult.consensusStatement := DebateResult.consensusStatement result;
     DebateResult.processedAt := DebateResult.processedAt result |}.

End DebateRefereeCLI.

(** ** The class [ResultPrinter] *)

Module ResultPrinter.

(** [s.split(' ')]: the pieces between the spaces; [cur] is the piece being
    read. *)
Definition space : ascii := ascii_of_nat 32.

Fixpoint split_space_from (cur : string) (s : string) : list string :=
  match s with
  | EmptyString => [cur]
  | String c s' =>
      if Ascii.eqb c space then cur :: split_space_from EmptyString s'
      else split_space_from (cur ++ String c EmptyString) s'
  end.

Definition split_space (s : string) : list string := split_space_from EmptyString s.

(** A string counts as true when it is not empty. *)
Definition nonempty (s : string) : bool := negb (String.eqb s EmptyString).

(** The loop of [wrapText], with the lines pushed so far and the current
    line, and what follows it. *)
Fixpoint wrapLoop (width : Z) (words : list string) (lines : list string)
  (currentLine : string) : list string :=
  match words with
  | [] => if nonempty currentLine then (lines ++ [currentLine])%list else lines
  | word :: rest =>
      if (Z.of_nat (String.length (currentLine ++ word)) <=? width)%Z
      then wrapLoop width rest lines
             (currentLine ++ (if nonempty currentLine then " " else EmptyString) ++ word)
      else wrapLoop width rest
             (if nonempty currentLine then (lines ++ [currentLine])%list else lines)
             word
  end.

Definition wrapText (text : string) (width : Z) : list string :=
  wrapLoop width (split_space text) [] EmptyString.

(** [s.repeat(n)] for an integer [n]: a [RangeError] on a negative count. *)
Inductive printed (A : Type) : Type :=
| Printed (a : A)
| RangeError.
Arguments Printed {A} a.
Arguments RangeError {A}.

Fixpoint copies (s : string) (n : nat) : string :=
  match n with
  | O => EmptyString
  | S n' => (s ++ copies s n')%string
  end.

Definition repeat (s : string) (n : Z) : printed string :=
  if (n <? 0)%Z then RangeError else Printed (copies s (Z.to_nat n)).

Section Chars.

(** The character [sideChar] of the frame is one code unit. *)
Variable sideChar : ascii.

Definition maxWidth : Z := 80.

(** [printCentered]: the line that it logs, unless it throws. *)
Definition printCentered (text : string) : printed string :=
  let len := Z.of_nat (String.length text) in
  let padding := Z.max 0 ((maxWidth - len - 2) / 2) in
  match repeat " " padding with
  | RangeError => RangeError
  | Printed before =>
      match repeat " " (maxWidth - len - padding - 2) with
      | RangeError => RangeError
      | Printed behind =>
          Printed (String sideChar (before ++ text ++ behind ++ String sideChar EmptyString))
      end
  end.

Definition printTopic (topic : string) : printed string :=
  printCentered ("Topic: " ++ topic).

End Chars.

End ResultPrinter.

(** ** The class [DebateStore]: the sessions

    The state is the content of the sessions file, a list of sessions; a
    file that does not exist yet reads as the empty list.  Writing the list
    as JSON and reading it back gives the same list, and failures of the
    file system are not modelled.  Every operation takes the id that
    [generateId()] returns and the reading of the clock as arguments. *)

Module DebateStore.

(** What an operation gives: its result, or the error that the session is
    not found. *)
Inductive outcome (A : Type) : Type :=
| Done (a : A)
| SessionNotFound (sessionId : string).
Arguments Done {A} a.
Arguments SessionNotFound {A} sessionId.

Definition hasId (sessionId : string) (session : DebateSession.t) : bool :=
  String.eqb (DebateSession.id session) sessionId.

(** [sessions.findIndex(p)]: [None] stands for -1. *)
Fixpoint findIndex {A : Type} (p : A -> bool) (l : list A) : option nat :=
  match l with
  | [] => None
  | x :: l' => if p x then Some O else option_map S (findIndex p l')
  end.

(** The list after an assignment to [l[i]] or to a field of it. *)
Fixpoint update {A : Type} (i : nat) (f : A -> A) (l : list A) : list A :=
  match l, i with
  | [], _ => []
  | x :: l', O => f x :: l'
  | x :: l', S i' => x :: update i' f l'
  end.

Definition createSession (newId : string) (now : Z) (topic : string)
  (sessions : list DebateSession.t) : list DebateSession.t * DebateSession.t :=
  let session :=
    {| DebateSession.id := newId;
       DebateSession.topic := topic;
       DebateSession.arguments := [];
       DebateSession.createdAt := now;
       DebateSession.processedAt := None |} in
  ((sessions ++ [session])%list, session).

Definition getSession (sessionId : string) (sessions : list DebateSession.t)
  : option DebateSession.t :=
  find (hasId sessionId) sessions.

Definition getAllSessions (sessions : list DebateSession.t) : list DebateSession.t :=
  sessions.

Definition pushArgument (argument : Argument.t) (session : DebateSession.t)
  : DebateSession.t :=
  {| DebateSession.id := DebateSession.id session;
     DebateSession.topic := DebateSession.topic session;
     DebateSession.arguments := (DebateSession.arguments session ++ [argument])%list;
     DebateSession.createdAt := DebateSession.createdAt session;
     DebateSession.processedAt := DebateSession.processedAt session |}.

Definition addArgument (newId : string) (now : Z)
  (sessionId userId userName argumentText : string) (sessions : list DebateSession.t)
  : outcome (list DebateSession.t * Argument.t) :=
  match findIndex (hasId sessionId) sessions with
  | None => SessionNotFound sessionId
  | Some sessionIndex =>
      match nth_error sessions sessionIndex with
      | None => SessionNotFound sessionId (* not reached: the index is in the list *)
      | Some session =>
          let argument :=
            {| Argument.id := newId;
               Argument.userId := userId;
               Argument.userName := userName;
               Argument.topic := DebateSession.topic session;
               Argument.text := argumentText;
               Argument.timestamp := now |} in
          Done (update sessionIndex (pushArgument argument) sessions, argument)
      end
  end.

Definition setProcessed (now : Z) (session : DebateSession.t) : DebateSession.t :=
  {| DebateSession.id := DebateSession.id session;
     DebateSession.topic := DebateSession.topic session;
     DebateSession.arguments := DebateSession.arguments session;
     DebateSession.createdAt := DebateSession.createdAt session;
     DebateSession.processedAt := Some now |}.

Definition markSessionProcessed (now : Z) (sessionId : string)
  (sessions : list DebateSession.t) : outcome (list DebateSession.t) :=
  match findIndex (hasId sessionId) sessions with
  | None => SessionNotFound sessionId
  | Some sessionIndex => Done (update sessionIndex (setProcessed now) sessions)
  end.

End DebateStore.

(** ** Further notions used to state properties *)

Module Notions.
Import JS.
Local Open Scope Q_scope.

(** The entry [e] leads every entry of [others] by at least 0.1: the
    difference of the two final scores, rounded to a double as the
    subtraction gives it, is not below the double 0.1. *)
Definition leads (e : string * UserResult.t) (others : list (string * UserResult.t)) : Prop :=
  exists qe,
    UserResult.finalScore (snd e) = Num qe /\
    Forall (fun e' => exists q', UserResult.finalScore (snd e') = Num q' /\
                                 rnd 0.1 <= rnd (qe - q'))
           others.




(** The conversion to a number of the sub-score [criterion] of the entry
    [score] throws. *)
Definition throws (score : JSON) (criterion : string) : bool :=
  match get (Some score) criterion with
  | Return (Some v) => toString_throws v
  | _ => false
  end.

(** The aggregator cannot take the entry [score]: the entry is null, or the
    conversion of one of its four sub-scores throws. *)
Definition unusable (score : JSON) : bool :=
  match score with
  | JNull => true
  | _ => existsb (throws score) Spec.criteria
  end.

(** Every argument of every session carries the topic of its session. *)
Definition topicsAgree (sessions : list DebateSession.t) : Prop :=
  forall session argument,
    In session sessions -> In argument (DebateSession.arguments session) ->
    Argument.topic argument = DebateSession.topic session.

(** [x] occurs in [s]. *)
Definition occursIn (x s : string) : Prop :=
  exists a c, s = (a ++ x ++ c)%string.

(** The character [ch] occurs in [s]. *)
Fixpoint hasChar (ch : ascii) (s : string) : bool :=
  match s with
  | EmptyString => false
  | String c s' => Ascii.eqb c ch || hasChar ch s'
  end.

End Notions.

(** A session in which a participant argues twice, under two names. *)
Module TwoNames.

Definition argument (userId userName text : string) : Argument.t :=
  {| Argument.id := EmptyString;
     Argument.userId := userId;
     Argument.userName := userName;
     Argument.topic := "Should AI replace human teachers?";
     Argument.text := text;
     Argument.timestamp := 0 |}.

Definition first : Argument.t := argument "user1" "Alice" "AI is cheaper than teachers.".
Definition other : Argument.t := argument "user2" "Bob" "Teachers are human.".
Definition last : Argument.t :=
  argument "user1" "Alicia" "However, teachers notice what a machine cannot.".

Definition session : DebateSession.t :=
  {| DebateSession.id := "debate_3";
     DebateSession.topic := "Should AI replace human teachers?";
     DebateSession.arguments := [first; other; last];
     DebateSession.createdAt := 0;
     DebateSession.processedAt := None |}.

End TwoNames.

(** A judge that scores the two participants of Scenario A. *)
Module Judge.
Import JS.
Import DebateAnalyzer.

(** The text that the judge answers:
    [Here is my verdict: {"scores":{"user1":{"clarity":8,"logic":7,
    "evidence":6,"relevance":9,"reasoning":"Clear argument"},"user2":{
    "clarity":7,"logic":8,"evidence":7,"relevance":8,"reasoning":
    "Well-reasoned counter-argument"}},"consensusStatement":"Both sides
    have a point."}] *)
Definition answer : string :=
  ("{" ++ quoted "scores" ++ ":{"
   ++ quoted "user1" ++ ":{"
   ++ quoted "clarity" ++ ":8," ++ quoted "logic" ++ ":7,"
   ++ quoted "evidence" ++ ":6," ++ quoted "relevance" ++ ":9,"
   ++ quoted "reasoning" ++ ":" ++ quoted "Clear argument" ++ "},"
   ++ quoted "user2" ++ ":{"
   ++ quoted "clarity" ++ ":7," ++ quoted "logic" ++ ":8,"
   ++ quoted "evidence" ++ ":7," ++ quoted "relevance" ++ ":8,"
   ++ quoted "reasoning" ++ ":" ++ quoted "Well-reasoned counter-argument" ++ "}},"
   ++ quoted "consensusStatement" ++ ":" ++ quoted "Both sides have a point." ++ "}")%string.

Definition response : string := ("Here is my verdict: " ++ answer)%string.

(** What [JSON.parse] makes of the answer. *)
Definition payload : JSON :=
  JObj [("scores", JObj Demo.scores);
        ("consensusStatement", JStr "Both sides have a point.")]%string.

Definition JSON_parse (s : string) : option JSON :=
  if String.eqb s answer then Some payload else None.

Definition generateText (prompt : string) : completion string := Return response.

End Judge.

(** A store with two sessions, and a session that was just created. *)
Module Stored.

Definition sessions : list DebateSession.t := [ScenarioA.session; Repeated.session].

Definition created : DebateSession.t :=
  snd (DebateStore.createSession "debate_3" 3 "Is remote work here to stay?" sessions).

End Stored.
(** * Properties *)

Import JS Spec.

(** ** Doubles *)

(** ** Powers of two *)

Lemma pow2_pos (e : Z) : 0 < 2 ^ e.
Proof. apply Qpower_0_lt. reflexivity. Qed.

Lemma pow2_plus (a b : Z) : 2 ^ (a + b) == 2 ^ a * 2 ^ b.
Proof. apply Qpower_plus. discriminate. Qed.

Lemma pow2_succ (a : Z) : 2 ^ (a + 1) == 2 * 2 ^ a.
Proof. rewrite pow2_plus. change (2 ^ 1) with 2. ring. Qed.

Lemma pow2_le (a b : Z) : (a <= b)%Z -> 2 ^ a <= 2 ^ b.
Proof. intros H. apply Qpower_le_compat_l; [assumption|discriminate]. Qed.

Lemma pow2_lt (a b : Z) : (a < b)%Z -> 2 ^ a < 2 ^ b.
Proof. intros H. apply Qpower_lt_compat_l; [assumption|reflexivity]. Qed.

Lemma pow2_lt_inv (a b : Z) : 2 ^ a < 2 ^ b -> (a < b)%Z.
Proof. intros H. apply (Qpower_lt_compat_l_inv 2); [assumption|reflexivity]. Qed.

Lemma pow2_Z (n : Z) : (0 <= n)%Z -> inject_Z (2 ^ n) == 2 ^ n.
Proof. intros H. now rewrite Zpower_Qpower. Qed.

Lemma pow2_minus (a b : Z) : 2 ^ (a - b) == 2 ^ a / 2 ^ b.
Proof.
  unfold Z.sub. rewrite pow2_plus, Qpower_opp. reflexivity.
Qed.

(** ** The binary logarithm *)

Lemma log2_bounds (a : Z) :
  (0 < a)%Z -> 2 ^ Z.log2 a <= inject_Z a /\ inject_Z a < 2 * 2 ^ Z.log2 a.
Proof.
  intros Ha. destruct (Z.log2_spec a Ha) as [Hlo Hhi].
  pose proof (Z.log2_nonneg a) as Hnn.
  rewrite <- pow2_Z by assumption. split.
  - now rewrite <- Zle_Qle.
  - assert (H : inject_Z a < 2 ^ (Z.log2 a + 1)).
    { rewrite <- pow2_Z by lia. rewrite <- Zlt_Qlt. now rewrite <- Z.add_1_r in Hhi. }
    rewrite pow2_succ in H. rewrite pow2_Z by assumption. exact H.
Qed.

Lemma ilog2_spec (x : Q) : 0 < x -> 2 ^ ilog2 x <= x /\ x < 2 ^ (ilog2 x + 1).
Proof.
  intros Hx. destruct x as [a b].
  assert (Ha : (0 < a)%Z).
  { unfold Qlt in Hx. simpl in Hx. lia. }
  destruct (log2_bounds a Ha) as [Ha1 Ha2].
  destruct (log2_bounds (Zpos b) eq_refl) as [Hb1 Hb2].
  unfold ilog2. cbn [Qnum Qden].
  set (la := Z.log2 a) in *. set (lb := Z.log2 (Zpos b)) in *.
  assert (HB : 0 < inject_Z (Zpos b)) by reflexivity.
  assert (Hx' : (a # b) * inject_Z (Zpos b) == inject_Z a).
  { unfold Qeq, inject_Z. simpl. lia. }
  pose proof (pow2_pos la) as Pa. pose proof (pow2_pos lb) as Pb.
  assert (Hl : 2 ^ (la - lb) * 2 ^ lb == 2 ^ la).
  { rewrite <- pow2_plus. now replace (la - lb + lb)%Z with la by lia. }
  destruct (Qle_bool (2 ^ (la - lb)) (a # b)) eqn:E.
  - apply Qle_bool_iff in E. split; [exact E|].
    rewrite pow2_succ.
    apply (Qmult_lt_r _ _ (inject_Z (Zpos b) * 2 ^ lb)).
    { apply Qmult_lt_0_compat; assumption. }
    setoid_replace ((a # b) * (inject_Z (Z.pos b) * 2 ^ lb))
      with (inject_Z a * 2 ^ lb) by (rewrite <- Hx'; ring).
    setoid_replace (2 * 2 ^ (la - lb) * (inject_Z (Z.pos b) * 2 ^ lb))
      with (2 * 2 ^ la * inject_Z (Zpos b)) by (rewrite <- Hl; ring).
    apply Qlt_le_trans with (2 * 2 ^ la * 2 ^ lb).
    + apply Qmult_lt_r; assumption.
    + apply Qmult_le_l; [lra|assumption].
  - assert (E' : a # b < 2 ^ (la - lb)).
    { apply Qnot_le_lt. intros H. apply Qle_bool_iff in H. congruence. }
    split.
    + apply (Qmult_le_r _ _ (inject_Z (Zpos b) * (2 * 2 ^ lb))).
      { apply Qmult_lt_0_compat; [assumption|lra]. }
      setoid_replace ((a # b) * (inject_Z (Z.pos b) * (2 * 2 ^ lb)))
        with (inject_Z a * (2 * 2 ^ lb)) by (rewrite <- Hx'; ring).
      setoid_replace (2 ^ (la - lb - 1) * (inject_Z (Z.pos b) * (2 * 2 ^ lb)))
        with (2 ^ la * inject_Z (Zpos b)).
      2:{ rewrite <- Hl. replace (la - lb)%Z with (la - lb - 1 + 1)%Z at 2 by lia.
          rewrite pow2_succ. ring. }
      apply Qle_trans with (2 ^ la * (2 * 2 ^ lb)).
      * apply Qmult_le_l; [assumption|lra].
      * apply Qmult_le_r; [lra|assumption].
    + now replace (la - lb - 1 + 1)%Z with (la - lb)%Z by lia.
Qed.

Lemma ilog2_unique (x : Q) (k : Z) : 2 ^ k <= x -> x < 2 ^ (k + 1) -> ilog2 x = k.
Proof.
  intros Hlo Hhi.
  assert (Hx : 0 < x) by (pose proof (pow2_pos k); lra).
  destruct (ilog2_spec x Hx) as [Hlo' Hhi'].
  assert (H1 : (k < ilog2 x + 1)%Z) by (apply pow2_lt_inv; lra).
  assert (H2 : (ilog2 x < k + 1)%Z) by (apply pow2_lt_inv; lra).
  lia.
Qed.

Lemma ilog2_le (x y : Q) : 0 < x -> x <= y -> (ilog2 x <= ilog2 y)%Z.
Proof.
  intros Hx Hxy.
  destruct (ilog2_spec x Hx) as [Hlo _].
  destruct (ilog2_spec y) as [_ Hhi]; [lra|].
  assert (H : (ilog2 x < ilog2 y + 1)%Z) by (apply pow2_lt_inv; lra).
  lia.
Qed.

Lemma ilog2_comp (x y : Q) : 0 < x -> x == y -> ilog2 x = ilog2 y.
Proof.
  intros Hx Hxy. destruct (ilog2_spec x Hx) as [Hlo Hhi].
  symmetry. apply ilog2_unique; lra.
Qed.

(** ** Rounding to the nearest integer, a tie going to the even one *)

Lemma round_even_cases (x : Q) :
  let f := Qfloor x in
  (round_even x = f /\ x - inject_Z f <= 1 # 2) \/
  (round_even x = (f + 1)%Z /\ 1 # 2 <= x - inject_Z f).
Proof.
  cbv zeta. unfold round_even.
  destruct (Qcompare_spec (x - inject_Z (Qfloor x)) (1 # 2)) as [H|H|H].
  - destruct (Z.even (Qfloor x)); [left|right]; split; trivial; lra.
  - left. split; [reflexivity|lra].
  - right. split; [reflexivity|lra].
Qed.

Lemma round_even_error (x : Q) : Qabs (inject_Z (round_even x) - x) <= 1 # 2.
Proof.
  pose proof (Qfloor_le x) as Hlo. pose proof (Qlt_floor x) as Hhi.
  rewrite inject_Z_plus in Hhi. change (inject_Z 1) with 1 in Hhi.
  apply Qabs_Qle_condition.
  destruct (round_even_cases x) as [[-> H]|[-> H]].
  - lra.
  - rewrite inject_Z_plus. change (inject_Z 1) with 1. lra.
Qed.

Lemma round_even_Z (n : Z) : round_even (inject_Z n) = n.
Proof.
  unfold round_even. rewrite Qfloor_Z.
  destruct (Qcompare_spec (inject_Z n - inject_Z n) (1 # 2)) as [H|H|H];
    [exfalso; lra|reflexivity|exfalso; lra].
Qed.

Lemma round_even_comp (x y : Q) : x == y -> round_even x = round_even y.
Proof.
  intros H. unfold round_even. rewrite <- (Qfloor_comp x y H).
  assert (C : Qcompare (x - inject_Z (Qfloor x)) (1 # 2)
              = Qcompare (y - inject_Z (Qfloor x)) (1 # 2)).
  { apply Qcompare_comp; [|reflexivity]. apply Qplus_comp; [exact H|reflexivity]. }
  now rewrite C.
Qed.

Lemma round_even_le (x y : Q) : x <= y -> (round_even x <= round_even y)%Z.
Proof.
  intros Hxy.
  pose proof (Qfloor_resp_le x y Hxy) as Hf.
  pose proof (Qfloor_le y) as Hy.
  destruct (Z.eq_dec (Qfloor x) (Qfloor y)) as [E|E].
  - unfold round_even. rewrite <- E.
    destruct (Qcompare_spec (x - inject_Z (Qfloor x)) (1 # 2)) as [Hx|Hx|Hx];
    destruct (Qcompare_spec (y - inject_Z (Qfloor x)) (1 # 2)) as [Hy'|Hy'|Hy'];
      try lia; try (exfalso; lra);
      destruct (Z.even (Qfloor x)); lia.
  - destruct (round_even_cases x) as [[-> _]|[-> _]];
    destruct (round_even_cases y) as [[-> _]|[-> _]]; lia.
Qed.

(** ** Rounding a positive rational to a double *)

Lemma ulp_exponent_ge (x : Q) : (-1074 <= ulp_exponent x)%Z.
Proof. unfold ulp_exponent. lia. Qed.

Lemma round_pos_error (x : Q) :
  Qabs (round_pos x - x) <= (1 # 2) * 2 ^ ulp_exponent x.
Proof.
  unfold round_pos. set (e := ulp_exponent x).
  pose proof (pow2_pos e) as He.
  pose proof (round_even_error (x / 2 ^ e)) as H.
  setoid_replace (inject_Z (round_even (x / 2 ^ e)) * 2 ^ e - x)
    with ((inject_Z (round_even (x / 2 ^ e)) - x / 2 ^ e) * 2 ^ e)
    by (field; lra).
  rewrite Qabs_Qmult, (Qabs_pos (2 ^ e)) by lra.
  apply Qmult_le_r; assumption.
Qed.

(** The bound in terms of [x]: half a unit in the last place is at most
    [x / 2^53], or [2^-1075] for a subnormal [x]. *)
Lemma ulp_exponent_bound (x : Q) :
  0 < x -> 2 ^ ulp_exponent x <= Qmax (x * 2 ^ (-52)) (2 ^ (-1074)).
Proof.
  intros Hx. destruct (ilog2_spec x Hx) as [Hlo _].
  unfold ulp_exponent.
  destruct (Z.max_spec (ilog2 x - 52) (-1074)) as [[_ ->]|[_ ->]].
  - apply Q.le_max_r.
  - eapply Qle_trans; [|apply Q.le_max_l].
    unfold Z.sub. rewrite pow2_plus.
    apply Qmult_le_r; [apply pow2_pos|assumption].
Qed.

(** A point of the grid on which [x] is rounded bounds the result as it
    bounds [x]. *)
Lemma round_pos_le_grid (x : Q) (n : Z) :
  x <= inject_Z n * 2 ^ ulp_exponent x -> round_pos x <= inject_Z n * 2 ^ ulp_exponent x.
Proof.
  intros H. unfold round_pos. set (e := ulp_exponent x) in *.
  pose proof (pow2_pos e) as He.
  apply Qmult_le_r; [assumption|].
  rewrite <- Zle_Qle.
  pose proof (round_even_le (x / 2 ^ e) (inject_Z n)) as G.
  rewrite round_even_Z in G. apply G.
  apply Qle_shift_div_r; assumption.
Qed.

Lemma round_pos_ge_grid (x : Q) (n : Z) :
  inject_Z n * 2 ^ ulp_exponent x <= x -> inject_Z n * 2 ^ ulp_exponent x <= round_pos x.
Proof.
  intros H. unfold round_pos. set (e := ulp_exponent x) in *.
  pose proof (pow2_pos e) as He.
  apply Qmult_le_r; [assumption|].
  rewrite <- Zle_Qle.
  pose proof (round_even_le (inject_Z n) (x / 2 ^ e)) as G.
  rewrite round_even_Z in G. apply G.
  apply Qle_shift_div_l; assumption.
Qed.

Lemma pow2_grid (m e : Z) : (e <= m)%Z -> 2 ^ m == inject_Z (2 ^ (m - e)) * 2 ^ e.
Proof.
  intros H. rewrite pow2_Z by lia. rewrite <- pow2_plus.
  now replace (m - e + e)%Z with m by lia.
Qed.

Lemma round_pos_nonneg (x : Q) : 0 <= x -> 0 <= round_pos x.
Proof.
  intros Hx. 
  setoid_replace 0 with (inject_Z 0 * 2 ^ ulp_exponent x) by (change (inject_Z 0) with 0; ring).
  apply round_pos_ge_grid. change (inject_Z 0) with 0. lra.
Qed.

Lemma round_pos_le (x y : Q) : 0 < x -> x <= y -> round_pos x <= round_pos y.
Proof.
  intros Hx Hxy. assert (Hy : 0 < y) by lra.
  destruct (ilog2_spec x Hx) as [Hxlo Hxhi].
  destruct (ilog2_spec y Hy) as [Hylo Hyhi].
  pose proof (ilog2_le x y Hx Hxy) as Hk.
  destruct (Z.eq_dec (ulp_exponent x) (ulp_exponent y)) as [E|E].
  - unfold round_pos. rewrite <- E. set (e := ulp_exponent x).
    pose proof (pow2_pos e) as He.
    apply Qmult_le_r; [assumption|]. rewrite <- Zle_Qle. apply round_even_le.
    apply Qmult_le_r; [apply Qinv_lt_0_compat; assumption|assumption].
  - assert (Hey : ulp_exponent y = (ilog2 y - 52)%Z /\ (ulp_exponent x < ilog2 y - 52)%Z).
    { unfold ulp_exponent in *. lia. }
    destruct Hey as [Hey Hlt].
    assert (Hkx : (ilog2 x - 52 <= ulp_exponent x)%Z) by (unfold ulp_exponent; lia).
    set (m := Z.max (ilog2 x + 1) (ulp_exponent x)).
    apply Qle_trans with (2 ^ m); [|apply Qle_trans with (2 ^ ilog2 y)].
    + rewrite (pow2_grid m (ulp_exponent x)) by (unfold m; lia).
      apply round_pos_le_grid.
      rewrite <- pow2_grid by (unfold m; lia).
      apply Qle_trans with (2 ^ (ilog2 x + 1)); [lra|]. apply pow2_le. unfold m. lia.
    + apply pow2_le. unfold m. lia.
    + rewrite (pow2_grid (ilog2 y) (ulp_exponent y)) by lia.
      apply round_pos_ge_grid.
      rewrite <- pow2_grid by lia. assumption.
Qed.

Lemma round_pos_comp (x y : Q) : 0 < x -> x == y -> round_pos x == round_pos y.
Proof.
  intros Hx Hxy. unfold round_pos, ulp_exponent.
  rewrite <- (ilog2_comp x y Hx Hxy).
  set (e := Z.max (ilog2 x - 52) (-1074)).
  assert (H : x / 2 ^ e == y / 2 ^ e) by now rewrite Hxy.
  now rewrite (round_even_comp _ _ H).
Qed.

(** The result is a whole number of units [2^-1074]. *)
Lemma round_pos_grid (x : Q) : exists n : Z, round_pos x == inject_Z n * 2 ^ (-1074).
Proof.
  unfold round_pos. set (e := ulp_exponent x).
  pose proof (ulp_exponent_ge x) as He. fold e in He.
  exists (round_even (x / 2 ^ e) * 2 ^ (e + 1074))%Z.
  rewrite inject_Z_mult, pow2_Z by lia.
  rewrite <- Qmult_assoc, <- pow2_plus.
  now replace (e + 1074 + -1074)%Z with e by lia.
Qed.

(** ** Rounding a rational to a double *)

Lemma Qnum_Qred_pos (x : Q) : 0 < x -> exists p, Qnum (Qred x) = Zpos p.
Proof.
  intros Hx. rewrite <- (Qred_correct x) in Hx.
  destruct (Qred x) as [[|p|p] d]; unfold Qlt in Hx; simpl in Hx; try lia.
  now exists p.
Qed.

Lemma Qnum_Qred_neg (x : Q) : x < 0 -> exists p, Qnum (Qred x) = Zneg p.
Proof.
  intros Hx. rewrite <- (Qred_correct x) in Hx.
  destruct (Qred x) as [[|p|p] d]; unfold Qlt in Hx; simpl in Hx; try lia.
  now exists p.
Qed.

Lemma Qnum_Qred_zero (x : Q) : x == 0 -> Qnum (Qred x) = 0%Z.
Proof.
  intros Hx. rewrite <- (Qred_correct x) in Hx.
  destruct (Qred x) as [n d]. unfold Qeq in Hx. simpl in *. lia.
Qed.

Lemma rnd_of_pos (x : Q) : 0 < x -> rnd x = round_pos (Qred x).
Proof.
  intros Hx. destruct (Qnum_Qred_pos x Hx) as [p Hp]. unfold rnd. now rewrite Hp.
Qed.

Lemma rnd_of_neg (x : Q) : x < 0 -> rnd x = - round_pos (- Qred x).
Proof.
  intros Hx. destruct (Qnum_Qred_neg x Hx) as [p Hp]. unfold rnd. now rewrite Hp.
Qed.

Lemma rnd_of_zero (x : Q) : x == 0 -> rnd x = 0.
Proof.
  intros Hx. unfold rnd. now rewrite (Qnum_Qred_zero x Hx).
Qed.

Lemma rnd_comp (x y : Q) : x == y -> rnd x = rnd y.
Proof.
  intros H. unfold rnd. now rewrite (Qred_complete x y H).
Qed.

Lemma rnd_opp (x : Q) : rnd (- x) == - rnd x.
Proof.
  destruct (Q_dec x 0) as [[H|H]|H].
  - rewrite (rnd_of_pos (- x)) by lra. rewrite (rnd_of_neg x H).
    rewrite Qred_opp. ring.
  - rewrite (rnd_of_neg (- x)) by lra. rewrite (rnd_of_pos x H).
    rewrite Qred_opp. apply Qopp_comp. apply round_pos_comp.
    + rewrite Qopp_involutive, Qred_correct. assumption.
    + apply Qopp_involutive.
  - rewrite (rnd_of_zero x H), (rnd_of_zero (- x)) by lra. reflexivity.
Qed.

Lemma rnd_nonneg (x : Q) : 0 <= x -> 0 <= rnd x.
Proof.
  intros Hx. destruct (Qle_lt_or_eq _ _ Hx) as [H|H].
  - rewrite (rnd_of_pos x H). apply round_pos_nonneg. rewrite Qred_correct. lra.
  - rewrite (rnd_of_zero x) by now symmetry. lra.
Qed.

Lemma rnd_nonpos (x : Q) : x <= 0 -> rnd x <= 0.
Proof.
  intros Hx. pose proof (rnd_nonneg (- x)) as H. rewrite rnd_opp in H. lra.
Qed.

Lemma rnd_le_pos (x y : Q) : 0 < x -> x <= y -> rnd x <= rnd y.
Proof.
  intros Hx Hxy. rewrite (rnd_of_pos x), (rnd_of_pos y) by lra.
  apply round_pos_le; rewrite !Qred_correct; assumption.
Qed.

(** Rounding is monotone. *)
Lemma rnd_le (x y : Q) : x <= y -> rnd x <= rnd y.
Proof.
  intros Hxy. destruct (Qlt_le_dec 0 x) as [Hx|Hx].
  - now apply rnd_le_pos.
  - destruct (Qlt_le_dec y 0) as [Hy|Hy].
    + pose proof (rnd_le_pos (- y) (- x)) as H.
      rewrite !rnd_opp in H. lra.
    + pose proof (rnd_nonpos x Hx). pose proof (rnd_nonneg y Hy). lra.
Qed.

Lemma rnd_error_pos (x : Q) :
  0 < x -> Qabs (rnd x - x) <= Qmax (x * 2 ^ (-53)) (2 ^ (-1075)).
Proof.
  intros Hx. rewrite (rnd_of_pos x Hx).
  assert (Hr : 0 < Qred x) by now rewrite Qred_correct.
  pose proof (round_pos_error (Qred x)) as He.
  pose proof (ulp_exponent_bound (Qred x) Hr) as Hb.
  rewrite Qred_correct in He at 2. rewrite Qred_correct in Hb at 2.
  eapply Qle_trans; [exact He|].
  assert (H53 : 2 ^ (-53) == (1 # 2) * 2 ^ (-52)) by reflexivity.
  assert (H1075 : 2 ^ (-1075) == (1 # 2) * 2 ^ (-1074)).
  { change (-1075)%Z with (-1074 + -1)%Z. rewrite pow2_plus. change (2 ^ (-1)) with (1 # 2). ring. }
  rewrite H53, H1075.
  destruct (Q.max_spec (x * 2 ^ (-52)) (2 ^ (-1074))) as [[_ E]|[_ E]]; rewrite E in Hb.
  - eapply Qle_trans; [|apply Q.le_max_r]. lra.
  - eapply Qle_trans; [|apply Q.le_max_l]. lra.
Qed.

(** The error of a rounding: at most [|x| / 2^53], or [2^-1075] on a
    subnormal [x]. *)
Lemma rnd_error (x : Q) :
  Qabs (rnd x - x) <= Qmax (Qabs x * 2 ^ (-53)) (2 ^ (-1075)).
Proof.
  destruct (Q_dec x 0) as [[H|H]|H].
  - pose proof (rnd_error_pos (- x)) as E.
    rewrite rnd_opp in E.
    setoid_replace (- rnd x - - x) with (- (rnd x - x)) in E by ring.
    rewrite Qabs_opp in E. rewrite (Qabs_neg x) by lra. apply E. lra.
  - rewrite (Qabs_pos x) by lra. now apply rnd_error_pos.
  - rewrite (rnd_of_zero x H). 
    setoid_replace (0 - x) with 0 by lra.
    eapply Qle_trans; [|apply Q.le_max_r]. apply Qlt_le_weak, pow2_pos.
Qed.

Lemma rnd_error_bound (x B : Q) :
  Qabs x <= B -> 2 ^ (-1022) <= B -> Qabs (rnd x - x) <= B * unit_roundoff.
Proof.
  intros Hx HB. eapply Qle_trans; [apply rnd_error|].
  assert (Hu : 0 < unit_roundoff) by apply pow2_pos.
  apply Q.max_lub.
  - apply Qmult_le_r; assumption.
  - assert (E : 2 ^ (-1075) == 2 ^ (-1022) * unit_roundoff).
    { unfold unit_roundoff. rewrite <- pow2_plus. reflexivity. }
    rewrite E. apply Qmult_le_r; assumption.
Qed.

Lemma rnd_grid (x : Q) : exists n : Z, rnd x == inject_Z n * 2 ^ (-1074).
Proof.
  destruct (Q_dec x 0) as [[H|H]|H].
  - rewrite (rnd_of_neg x H).
    destruct (round_pos_grid (- Qred x)) as [n Hn].
    exists (- n)%Z. rewrite Hn, inject_Z_opp. ring.
  - rewrite (rnd_of_pos x H). apply round_pos_grid.
  - rewrite (rnd_of_zero x H). exists 0%Z. change (inject_Z 0) with 0. ring.
Qed.

(** ** The numbers of the arithmetic operations *)

Lemma Qltb_lt (x y : Q) : Qltb x y = true <-> x < y.
Proof.
  unfold Qltb. rewrite negb_true_iff. split.
  - intros H. apply Qnot_le_lt. intros Hle. apply Qle_bool_iff in Hle. congruence.
  - intros H. destruct (Qle_bool y x) eqn:E; [|reflexivity].
    apply Qle_bool_iff in E. exfalso. now apply (Qlt_not_le x y).
Qed.

Lemma Qltb_ge (x y : Q) : Qltb x y = false <-> y <= x.
Proof.
  unfold Qltb. rewrite negb_false_iff. apply Qle_bool_iff.
Qed.

Lemma unit_roundoff_pos : 0 < unit_roundoff.
Proof. apply pow2_pos. Qed.

Lemma unit_roundoff_small : unit_roundoff <= 12 # 100000000000000000.
Proof. apply Qle_bool_iff. reflexivity. Qed.

(** The result of a rounding, within the error that the bound [B] of the
    operand gives. *)
Lemma rnd_near (x B : Q) :
  Qabs x <= B -> Qle_bool (2 ^ (-1022)) B = true ->
  x - B * unit_roundoff <= rnd x /\ rnd x <= x + B * unit_roundoff.
Proof.
  intros Hx HB. apply Qle_bool_iff in HB.
  pose proof (rnd_error_bound x B Hx HB) as H.
  apply Qabs_Qle_condition in H. split; lra.
Qed.

Lemma rnd_pow2_1023 : rnd (2 ^ 1023) == 2 ^ 1023.
Proof. vm_compute. reflexivity. Qed.

(** An operation whose exact result is far from the largest double answers
    a finite number. *)
Lemma fl_Num (x : Q) : Qabs x <= 2 ^ 1023 -> fl x = Num (rnd x).
Proof.
  intros Hx. apply Qabs_Qle_condition in Hx. destruct Hx as [Hlo Hhi].
  pose proof (rnd_le _ _ Hlo) as Rlo. pose proof (rnd_le _ _ Hhi) as Rhi.
  rewrite rnd_opp in Rlo. rewrite rnd_pow2_1023 in Rlo, Rhi.
  unfold fl. cbv zeta.
  destruct (Qle_bool (2 ^ 1024) (Qabs (rnd x))) eqn:E; [|reflexivity].
  apply Qle_bool_iff in E. exfalso.
  assert (Habs : Qabs (rnd x) <= 2 ^ 1023) by (apply Qabs_Qle_condition; split; assumption).
  assert (Hpow : 2 ^ 1023 < 2 ^ 1024) by (apply pow2_lt; lia).
  lra.
Qed.

Lemma fl_bounded (x B : Q) :
  Qabs x <= B -> Qle_bool B (2 ^ 1023) = true -> fl x = Num (rnd x).
Proof.
  intros Hx HB. apply Qle_bool_iff in HB. apply fl_Num. lra.
Qed.

(** A double is a whole number of units [2^-1074]. *)
Lemma double_grid (q : Q) : double q -> exists n : Z, q == inject_Z n * 2 ^ (-1074).
Proof.
  intros Hq. destruct (rnd_grid q) as [n Hn]. exists n.
  unfold double in Hq. rewrite <- Hn. symmetry. exact Hq.
Qed.

Lemma rnd_least : rnd (2 ^ (-1074)) == 2 ^ (-1074).
Proof. vm_compute. reflexivity. Qed.

(** The difference of two doubles is not rounded to zero. *)
Lemma rnd_sub_pos (a b : Q) : double a -> double b -> a < b -> 0 < rnd (b - a).
Proof.
  intros Ha Hb Hab.
  destruct (double_grid a Ha) as [na Hna]. destruct (double_grid b Hb) as [nb Hnb].
  pose proof (pow2_pos (-1074)) as Hpos.
  assert (Hn : (na < nb)%Z).
  { destruct (Z.lt_ge_cases na nb) as [H|H]; [exact H|exfalso].
    rewrite Zle_Qle in H.
    assert (inject_Z nb * 2 ^ (-1074) <= inject_Z na * 2 ^ (-1074))
      by (apply Qmult_le_r; assumption).
    lra. }
  assert (Hge : 2 ^ (-1074) <= b - a).
  { rewrite Hna, Hnb.
    setoid_replace (inject_Z nb * 2 ^ (-1074) - inject_Z na * 2 ^ (-1074))
      with (inject_Z (nb - na) * 2 ^ (-1074))
      by (unfold Z.sub; rewrite inject_Z_plus, inject_Z_opp; ring).
    rewrite <- (Qmult_1_l (2 ^ (-1074))) at 1.
    apply Qmult_le_r; [assumption|].
    change 1 with (inject_Z 1). rewrite <- Zle_Qle. lia. }
  pose proof (rnd_le _ _ Hge) as H. rewrite rnd_least in H. lra.
Qed.

(** The sign of [b - a], as the comparator of a sort reads it. *)
Lemma sub_positive (a b : Q) :
  double a -> double b -> (gt (sub (Num b) (Num a)) (Num 0) = true <-> a < b).
Proof.
  intros Ha Hb. unfold gt, sub, fl. cbv zeta.
  destruct (Qle_bool (2 ^ 1024) (Qabs (rnd (b - a)))) eqn:E.
  - destruct (Qltb (rnd (b - a)) 0) eqn:S; cbn [lt].
    + apply Qltb_lt in S. split; [discriminate|]. intros Hab.
      pose proof (rnd_sub_pos a b Ha Hb Hab). lra.
    + apply Qltb_ge in S. split; [intros _|reflexivity].
      apply Qle_bool_iff in E.
      destruct (Qlt_le_dec a b) as [H|H]; [exact H|exfalso].
      assert (Hr : rnd (b - a) <= 0) by (apply rnd_nonpos; lra).
      assert (Hz : rnd (b - a) == 0) by lra.
      rewrite Hz in E. pose proof (pow2_pos 1024). 
      change (Qabs 0) with 0 in E. lra.
  - cbn [lt]. rewrite Qltb_lt. split.
    + intros Hpos. destruct (Qlt_le_dec a b) as [H|H]; [exact H|exfalso].
      assert (Hr : rnd (b - a) <= 0) by (apply rnd_nonpos; lra). lra.
    + now apply rnd_sub_pos.
Qed.

(** The same two facts, for operands that are neither tiny nor huge. *)
Lemma rnd_within (x B : Q) :
  Qabs x <= B -> Qle_bool (1 # 1000000) B = true ->
  x - B * unit_roundoff <= rnd x /\ rnd x <= x + B * unit_roundoff.
Proof.
  intros Hx HB. apply rnd_near; [assumption|].
  apply Qle_bool_iff in HB. apply Qle_bool_iff.
  assert (H : 2 ^ (-1022) <= 1 # 1000000) by (apply Qle_bool_iff; vm_compute; reflexivity).
  lra.
Qed.

Lemma fl_small (x B : Q) :
  Qabs x <= B -> Qle_bool B 1000000 = true -> fl x = Num (rnd x).
Proof.
  intros Hx HB. apply (fl_bounded x B Hx).
  apply Qle_bool_iff in HB. apply Qle_bool_iff.
  assert (H : 1000000 <= 2 ^ 1023) by (apply Qle_bool_iff; vm_compute; reflexivity).
  lra.
Qed.

Lemma rnd_0 : rnd 0 = 0.
Proof. reflexivity. Qed.



(** [Math.round] between two integers. *)
Lemma round_half_up_bounds (p : Q) (lo hi : Z) :
  inject_Z lo - (1 # 2) <= p -> p < inject_Z hi + (1 # 2) ->
  inject_Z lo <= Qround_half_up p /\ Qround_half_up p <= inject_Z hi.
Proof.
  intros Hlo Hhi. unfold Qround_half_up. rewrite <- !Zle_Qle.
  pose proof (Qfloor_le (p + (1 # 2))) as Hf.
  pose proof (Qlt_floor (p + (1 # 2))) as Hc.
  split.
  - rewrite <- (Qfloor_Z lo). apply Qfloor_resp_le. lra.
  - destruct (Z.le_gt_cases (Qfloor (p + (1 # 2))) hi) as [H|H]; [exact H|exfalso].
    assert (H' : (hi + 1 <= Qfloor (p + (1 # 2)))%Z) by lia.
    rewrite Zle_Qle, inject_Z_plus in H'. change (inject_Z 1) with 1 in H'. lra.
Qed.



(** The final score made of a product [p]: between the doubles of the
    hundredths that bound the sum. *)
Lemma final_score_between (p x : Q) (lo hi : Z) :
  Qabs (p / 100 - x) <= tolerance ->
  inject_Z lo / 100 <= x -> x <= inject_Z hi / 100 ->
  rnd (inject_Z lo / 100) <= rnd (Qround_half_up p / 100) /\
  rnd (Qround_half_up p / 100) <= rnd (inject_Z hi / 100).
Proof.
  intros Hnear Hlo Hhi. unfold tolerance in Hnear.
  apply Qabs_Qle_condition in Hnear.
  assert (Hq : p / 100 * 100 == p) by field.
  assert (Hl : inject_Z lo / 100 * 100 == inject_Z lo) by field.
  assert (Hh : inject_Z hi / 100 * 100 == inject_Z hi) by field.
  set (q := p / 100) in *. set (l := inject_Z lo / 100) in *.
  set (h := inject_Z hi / 100) in *.
  destruct (round_half_up_bounds p lo hi) as [Hn0 Hn1]; [lra|lra|].
  split; apply rnd_le; apply Qmult_le_r; try reflexivity; assumption.
Qed.

(** ** Objects: keys and lookup after an assignment *)

Section ObjFacts.
Context {V : Type}.
Implicit Types (o : obj V) (k : string) (v : V).

Lemma has_key_In o k : has_key o k = true <-> In k (keys o).
Proof.
  unfold has_key, keys. rewrite existsb_exists, in_map_iff. split.
  - intros [e [Hin He]]. exists e. apply String.eqb_eq in He. auto.
  - intros [e [He Hin]]. exists e. split; [assumption|]. now apply String.eqb_eq.
Qed.

Lemma has_key_false o k : has_key o k = false <-> ~ In k (keys o).
Proof.
  rewrite <- has_key_In. destruct (has_key o k); split; congruence.
Qed.

Lemma keys_replace_value k v o : keys (replace_value k v o) = keys o.
Proof.
  induction o as [|[k' v'] o IH]; simpl; [reflexivity|].
  destruct (String.eqb k' k); simpl; [reflexivity|]. now f_equal.
Qed.

Lemma keys_insert_index i k v o :
  Permutation (keys (insert_index i k v o)) (k :: keys o).
Proof.
  induction o as [|[k' v'] o IH]; simpl; [reflexivity|].
  destruct (array_index k') as [j|]; [|reflexivity].
  destruct (j <? i)%N; simpl; [|reflexivity].
  fold (keys (insert_index i k v o)). rewrite IH. apply perm_swap.
Qed.

(** The keys after [o[k] = v]: those of [o], and [k] once more when it is
    new. *)
Lemma keys_obj_set k v o :
  Permutation (keys (obj_set k v o)) (if has_key o k then keys o else k :: keys o).
Proof.
  unfold obj_set. destruct (has_key o k).
  - now rewrite keys_replace_value.
  - destruct (array_index k) as [i|].
    + apply keys_insert_index.
    + unfold keys. rewrite map_app. simpl.
      symmetry. apply Permutation_cons_append.
Qed.

Lemma In_keys_obj_set k v o k' :
  In k' (keys (obj_set k v o)) <-> k' = k \/ In k' (keys o).
Proof.
  pose proof (keys_obj_set k v o) as HP.
  destruct (has_key o k) eqn:Hk.
  - apply has_key_In in Hk. split.
    + intros H. right. eapply Permutation_in; eassumption.
    + intros [->|H]; (eapply Permutation_in; [symmetry; eassumption|]); assumption.
  - split.
    + intros H. apply (Permutation_in _ HP) in H. destruct H; auto.
    + intros H. apply (Permutation_in _ (Permutation_sym HP)).
      destruct H; [left|right]; auto.
Qed.

Lemma NoDup_keys_obj_set k v o : NoDup (keys o) -> NoDup (keys (obj_set k v o)).
Proof.
  intros Hnd. pose proof (keys_obj_set k v o) as HP.
  destruct (has_key o k) eqn:Hk.
  - eapply Permutation_NoDup; [symmetry; eassumption|assumption].
  - eapply Permutation_NoDup; [symmetry; eassumption|].
    constructor; [now apply has_key_false|assumption].
Qed.

Lemma obj_get_replace_value_same k v o :
  has_key o k = true -> obj_get (replace_value k v o) k = Some v.
Proof.
  induction o as [|[k' v'] o IH]; simpl; [discriminate|].
  destruct (String.eqb k' k) eqn:E; simpl; rewrite E; auto.
Qed.

Lemma obj_get_replace_value_other k v o k' :
  k' <> k -> obj_get (replace_value k v o) k' = obj_get o k'.
Proof.
  intros Hne. induction o as [|[k1 v1] o IH]; simpl; [reflexivity|].
  destruct (String.eqb k1 k) eqn:E; simpl.
  - apply String.eqb_eq in E. subst k1.
    destruct (String.eqb k k') eqn:E'; [|reflexivity].
    apply String.eqb_eq in E'. congruence.
  - destruct (String.eqb k1 k'); auto.
Qed.

Lemma obj_get_fresh o k : has_key o k = false -> obj_get o k = None.
Proof.
  induction o as [|[k' v'] o IH]; simpl; [reflexivity|].
  destruct (String.eqb k' k); simpl; [discriminate|auto].
Qed.

Lemma obj_get_insert_index_same i k v o :
  has_key o k = false -> obj_get (insert_index i k v o) k = Some v.
Proof.
  induction o as [|[k' v'] o IH]; simpl; intros Hk.
  - now rewrite String.eqb_refl.
  - destruct (String.eqb k' k) eqn:E; simpl in Hk; [discriminate|].
    destruct (array_index k') as [j|]; [destruct (j <? i)%N|]; simpl;
      rewrite ?E, ?String.eqb_refl; auto.
Qed.

Lemma obj_get_insert_index_other i k v o k' :
  k' <> k -> obj_get (insert_index i k v o) k' = obj_get o k'.
Proof.
  intros Hne. apply not_eq_sym, String.eqb_neq in Hne.
  induction o as [|[k1 v1] o IH]; simpl; [now rewrite Hne|].
  destruct (array_index k1) as [j|]; [destruct (j <? i)%N|]; simpl;
    rewrite ?Hne; try reflexivity.
  destruct (String.eqb k1 k'); auto.
Qed.

Lemma obj_get_app o1 o2 k :
  obj_get (o1 ++ o2)%list k = match obj_get o1 k with Some v => Some v | None => obj_get o2 k end.
Proof.
  induction o1 as [|[k' v'] o1 IH]; simpl; [reflexivity|].
  destruct (String.eqb k' k); auto.
Qed.

(** Reading back the property that was just written. *)
Lemma obj_get_obj_set_same k v o : obj_get (obj_set k v o) k = Some v.
Proof.
  unfold obj_set. destruct (has_key o k) eqn:Hk.
  - now apply obj_get_replace_value_same.
  - destruct (array_index k).
    + now apply obj_get_insert_index_same.
    + rewrite obj_get_app, (obj_get_fresh _ _ Hk). simpl. now rewrite String.eqb_refl.
Qed.

(** The other properties are left as they were. *)
Lemma obj_get_obj_set_other k v o k' :
  k' <> k -> obj_get (obj_set k v o) k' = obj_get o k'.
Proof.
  intros Hne. unfold obj_set. destruct (has_key o k).
  - now apply obj_get_replace_value_other.
  - destruct (array_index k).
    + now apply obj_get_insert_index_other.
    + rewrite obj_get_app. destruct (obj_get o k'); [reflexivity|]. simpl.
      apply not_eq_sym, String.eqb_neq in Hne. now rewrite Hne.
Qed.

Lemma obj_get_In o k v : obj_get o k = Some v -> In (k, v) o.
Proof.
  induction o as [|[k' v'] o IH]; simpl; [discriminate|].
  destruct (String.eqb k' k) eqn:E.
  - apply String.eqb_eq in E. intros [= ->]. left. now subst.
  - auto.
Qed.

Lemma In_obj_get o k v : NoDup (keys o) -> In (k, v) o -> obj_get o k = Some v.
Proof.
  induction o as [|[k' v'] o IH]; simpl; [contradiction|].
  intros Hnd [Heq|Hin].
  - injection Heq as -> ->. now rewrite String.eqb_refl.
  - inversion Hnd as [|? ? Hnotin Hnd']; subst.
    destruct (String.eqb k' k) eqn:E; [|auto].
    apply String.eqb_eq in E. subst k'. exfalso. apply Hnotin.
    change (In (fst (k, v)) (map fst o)). now apply in_map.
Qed.

Lemma In_replace_value k v o e : In e (replace_value k v o) -> e = (k, v) \/ In e o.
Proof.
  induction o as [|[k' v'] o IH]; simpl; [tauto|].
  destruct (String.eqb k' k) eqn:E; simpl.
  - apply String.eqb_eq in E. subst k'. intuition.
  - intuition.
Qed.

Lemma In_insert_index i k v o e : In e (insert_index i k v o) -> e = (k, v) \/ In e o.
Proof.
  induction o as [|[k' v'] o IH]; simpl; [intuition|].
  destruct (array_index k') as [j|]; [destruct (j <? i)%N|]; simpl; intuition.
Qed.

(** An assignment adds at most the entry that it writes. *)
Lemma In_obj_set k v o e : In e (obj_set k v o) -> e = (k, v) \/ In e o.
Proof.
  unfold obj_set. destruct (has_key o k).
  - apply In_replace_value.
  - destruct (array_index k).
    + apply In_insert_index.
    + rewrite in_app_iff. simpl. intuition.
Qed.

End ObjFacts.

(** ** The heuristic scorer: one entry per participant *)

Section HeuristicEntries.
Import DebateAnalyzer.

Variable topic : string.

Lemma fallbackLoop_keys args : forall scores,
  NoDup (keys scores) ->
  NoDup (keys (fallbackLoop topic args scores)) /\
  forall k, In k (keys (fallbackLoop topic args scores)) <->
            In k (keys scores) \/ In k (map Argument.userId args).
Proof.
  induction args as [|arg args IH]; intros scores Hnd; simpl.
  - split; [assumption|]. intros k. tauto.
  - destruct (IH (obj_set (Argument.userId arg)
                          (fallbackScore topic (Argument.text arg)) scores)) as [Hnd' Hin].
    { now apply NoDup_keys_obj_set. }
    split; [exact Hnd'|]. intros k. rewrite (Hin k), In_keys_obj_set.
    intuition auto.
Qed.

Lemma fallbackLoop_untouched args k : forall scores,
  (forall b, In b args -> Argument.userId b <> k) ->
  obj_get (fallbackLoop topic args scores) k = obj_get scores k.
Proof.
  induction args as [|arg args IH]; intros scores Hk; simpl; [reflexivity|].
  rewrite IH by (intros b Hb; apply Hk; now right).
  apply obj_get_obj_set_other. apply not_eq_sym, Hk. now left.
Qed.

Lemma fallbackLoop_last pre a post scores :
  (forall b, In b post -> Argument.userId b <> Argument.userId a) ->
  obj_get (fallbackLoop topic (pre ++ a :: post) scores) (Argument.userId a)
  = Some (fallbackScore topic (Argument.text a)).
Proof.
  intros Hpost. unfold fallbackLoop. rewrite fold_left_app. simpl.
  fold (fallbackLoop topic pre scores).
  match goal with |- obj_get (fold_left ?f post ?o) _ = _ =>
    change (fold_left f post o) with (fallbackLoop topic post o) end.
  rewrite fallbackLoop_untouched by assumption.
  apply obj_get_obj_set_same.
Qed.

End HeuristicEntries.

Lemma performFallbackAnalysis_scores session :
  DebateAnalyzer.AIScoringResponse.scores (DebateAnalyzer.performFallbackAnalysis session)
  = DebateAnalyzer.fallbackLoop
      (DebateSession.topic session) (DebateSession.arguments session) [].
Proof. reflexivity. Qed.

Lemma fallback_scores_keys (session : DebateSession.t) :
  let scores :=
    DebateAnalyzer.AIScoringResponse.scores (DebateAnalyzer.performFallbackAnalysis session) in
  NoDup (keys scores) /\
  forall userId,
    In userId (keys scores) <->
    exists arg, In arg (DebateSession.arguments session) /\ Argument.userId arg = userId.
Proof.
  cbv zeta. rewrite performFallbackAnalysis_scores.
  destruct (fallbackLoop_keys (DebateSession.topic session)
              (DebateSession.arguments session) []) as [Hnd Hin]; [constructor|].
  split; [exact Hnd|]. intros userId. rewrite Hin, in_map_iff. simpl.
  split.
  - intros [[]|[arg [Hid Harg]]]. now exists arg.
  - intros [arg [Harg Hid]]. right. now exists arg.
Qed.

Lemma accessor_loop_properties (topic : string) (args : list Argument.t)
  (scores : Accessor.ordinary Score.t) :
  Accessor.properties (Accessor.fallbackLoop topic args scores)
  = DebateAnalyzer.fallbackLoop topic
      (filter (fun arg => negb (String.eqb (Argument.userId arg) "__proto__")) args)
      (Accessor.properties scores).
Proof.
  revert scores. induction args as [|arg args IH]; intros scores; [reflexivity|].
  unfold Accessor.fallbackLoop, DebateAnalyzer.fallbackLoop in *. cbn [fold_left filter].
  rewrite IH. unfold Accessor.assign.
  destruct (String.eqb (Argument.userId arg) "__proto__"); reflexivity.
Qed.

(** C8 fails on the code.  The object that [performFallbackAnalysis] fills
    by [scores[arg.userId] = ...] has no key twice, and its keys are the
    participant ids of the arguments of the session except the id
    [__proto__]: the assignment under that name replaces the prototype of
    the object and adds no property.  It agrees with the mapping of the
    participants on every session in which nobody has that id; in the
    session [Accessor.session] one of the two participants has it, and only
    the other one has an entry, so that the aggregator returns one result
    and the other participant is the winner without an opponent. *)
Theorem heuristic_scorer_drops_the_participant_named_proto :
  (forall session,
     let scores := Accessor.performFallbackAnalysis session in
     NoDup (Accessor.Object_keys scores) /\
     (forall userId,
        In userId (Accessor.Object_keys scores) <->
        userId <> "__proto__"%string /\ In userId (Accessor.participants session)) /\
     (~ In "__proto__"%string (Accessor.participants session) ->
      Accessor.properties scores
      = DebateAnalyzer.AIScoringResponse.scores
          (DebateAnalyzer.performFallbackAnalysis session))) /\
  Accessor.participants Accessor.session = ["__proto__"; "user2"]%string /\
  Accessor.Object_keys (Accessor.performFallbackAnalysis Accessor.session)
  = ["user2"]%string /\
  Accessor.prototype (Accessor.performFallbackAnalysis Accessor.session)
  = Some (DebateAnalyzer.fallbackScore
            "Should AI replace human teachers?"
            "However, research shows that teachers notice what a machine cannot.") /\
  (exists r,
     DebateAnalyzer.calculateFinalScores (fun _ => NaN) (fun _ => EmptyString)
       (Some (JObj (map (fun e => (fst e, DebateAnalyzer.Score_value (snd e)))
                        (Accessor.properties
                           (Accessor.performFallbackAnalysis Accessor.session)))))
     = Return [("user2", r)]%string /\
     DebateAnalyzer.determineWinner [("user2", r)]%string
     = {| DebateAnalyzer.Decision.winner := Some (winnerOf ("user2", r)%string);
          DebateAnalyzer.Decision.isTie := false |}).
Proof.
  split; [|split; [reflexivity|split; [reflexivity|split; [reflexivity|]]]].
  2:{ eexists. split; [vm_compute; reflexivity|reflexivity]. }
  intros session. cbv zeta.
  unfold Accessor.performFallbackAnalysis, Accessor.Object_keys, Accessor.participants.
  rewrite accessor_loop_properties. cbn [Accessor.properties Accessor.empty].
  set (kept := filter _ _).
  destruct (fallbackLoop_keys (DebateSession.topic session) kept [])
    as [Hnd Hin]; [constructor|].
  split; [exact Hnd|]. split.
  - intros userId. rewrite Hin. unfold kept. rewrite !in_map_iff. simpl. split.
    + intros [[]|[arg [Hid Harg]]]. apply filter_In in Harg. destruct Harg as [Harg Hne].
      split.
      * apply negb_true_iff, String.eqb_neq in Hne. congruence.
      * now exists arg.
    + intros [Hne [arg [Hid Harg]]]. right. exists arg. split; [exact Hid|].
      apply filter_In. split; [exact Harg|].
      apply negb_true_iff, String.eqb_neq. congruence.
  - intros Hnone. rewrite performFallbackAnalysis_scores. f_equal.
    unfold kept. clear - Hnone.
    induction (DebateSession.arguments session) as [|arg args IH]; [reflexivity|].
    cbn [filter]. cbn [map] in Hnone.
    destruct (String.eqb (Argument.userId arg) "__proto__") eqn:E.
    + apply String.eqb_eq in E. exfalso. apply Hnone. left. exact E.
    + cbn [negb]. f_equal. apply IH. intros H. apply Hnone. right. exact H.
Qed.

(** C10.  When several arguments of a session carry the same participant id,
    the one entry of that id is the score of the last of them: an argument
    that no later argument of the same participant follows determines the
    entry of its participant, whatever precedes it. *)
Theorem heuristic_scorer_last_argument_wins
  (session : DebateSession.t) (pre post : list Argument.t) (a : Argument.t) :
  DebateSession.arguments session = (pre ++ a :: post)%list ->
  (forall b, In b post -> Argument.userId b <> Argument.userId a) ->
  let scores :=
    DebateAnalyzer.AIScoringResponse.scores (DebateAnalyzer.performFallbackAnalysis session) in
  NoDup (keys scores) /\
  obj_get scores (Argument.userId a)
  = Some (DebateAnalyzer.fallbackScore (DebateSession.topic session) (Argument.text a)).
Proof.
  intros Hargs Hpost. cbv zeta. split.
  - apply fallback_scores_keys.
  - rewrite performFallbackAnalysis_scores, Hargs. now apply fallbackLoop_last.
Qed.

(** ** Sorting *)

Section SortFacts.
Context {A : Type} (after : A -> A -> bool).

Lemma insert_sorted_perm x l : Permutation (insert_sorted after x l) (x :: l).
Proof.
  induction l as [|y l IH]; simpl; [reflexivity|].
  destruct (after x y); [|reflexivity].
  rewrite IH. apply perm_swap.
Qed.

Lemma sort_perm l : Permutation (sort after l) l.
Proof.
  induction l as [|x l IH]; simpl; [constructor|].
  rewrite insert_sorted_perm. now constructor.
Qed.

Lemma sort_length l : List.length (sort after l) = List.length l.
Proof. apply Permutation_length, sort_perm. Qed.

(** When, on the elements that satisfy [P], the comparator decides a
    transitive and total relation [R], the result is ordered by [R]. *)
Variable P : A -> Prop.
Variable R : A -> A -> Prop.
Hypothesis after_true : forall x y, P x -> P y -> after x y = true -> R y x.
Hypothesis after_false : forall x y, P x -> P y -> after x y = false -> R x y.
Hypothesis R_trans : forall x y z, R x y -> R y z -> R x z.

Lemma insert_sorted_sorted x l :
  P x -> Forall P l -> StronglySorted R l -> StronglySorted R (insert_sorted after x l).
Proof.
  intros Px. induction l as [|y l IH]; intros HP Hs; simpl.
  - repeat constructor.
  - inversion HP as [|? ? Py HP']; subst. inversion Hs as [|? ? Hs' Hy]; subst.
    destruct (after x y) eqn:E.
    + constructor; [now apply IH|].
      apply (Permutation_Forall (Permutation_sym (insert_sorted_perm x l))).
      constructor; [now apply after_true|assumption].
    + constructor; [assumption|].
      assert (Rxy : R x y) by now apply after_false.
      constructor; [assumption|].
      eapply Forall_impl; [|exact Hy]. intros z Hz. now apply R_trans with y.
Qed.

Lemma sort_sorted l : Forall P l -> StronglySorted R (sort after l).
Proof.
  induction l as [|x l IH]; intros HP; simpl; [constructor|].
  inversion HP; subst. apply insert_sorted_sorted; auto.
  now apply (Permutation_Forall (Permutation_sym (sort_perm l))).
Qed.

End SortFacts.

(** ** The winner resolver *)

Section WinnerResolver.
Import DebateAnalyzer.

Lemma byFinalScore_true x y :
  numeric x -> numeric y -> byFinalScore x y = true -> outranks y x.
Proof.
  intros [qx [Hx Dx]] [qy [Hy Dy]]. unfold byFinalScore, outranks. rewrite Hx, Hy.
  intros H. apply sub_positive in H; trivial.
  exists qy, qx. repeat split; trivial. lra.
Qed.

Lemma byFinalScore_false x y :
  numeric x -> numeric y -> byFinalScore x y = false -> outranks x y.
Proof.
  intros [qx [Hx Dx]] [qy [Hy Dy]]. unfold byFinalScore, outranks. rewrite Hx, Hy.
  intros H. exists qx, qy. repeat split; trivial.
  destruct (Qlt_le_dec qx qy) as [Hlt|Hle]; [|exact Hle].
  apply (sub_positive qx qy Dx Dy) in Hlt. congruence.
Qed.

Lemma outranks_trans x y z : outranks x y -> outranks y z -> outranks x z.
Proof.
  intros [qx [qy [Hx [Hy Hxy]]]] [qy' [qz [Hy' [Hz Hyz]]]].
  rewrite Hy in Hy'. injection Hy' as <-.
  exists qx, qz. repeat split; trivial. lra.
Qed.

Lemma sort_two_or_more (e1 e2 : string * UserResult.t) l :
  exists top second rest, sort byFinalScore (e1 :: e2 :: l) = top :: second :: rest.
Proof.
  pose proof (sort_length byFinalScore (e1 :: e2 :: l)) as Hlen.
  destruct (sort byFinalScore (e1 :: e2 :: l)) as [|top [|second rest]];
    simpl in Hlen; try discriminate.
  now exists top, second, rest.
Qed.

(** What [determineWinner] does once the entries are sorted. *)
Lemma determineWinner_sorted e1 e2 l top second rest :
  sort byFinalScore (e1 :: e2 :: l) = top :: second :: rest ->
  determineWinner (e1 :: e2 :: l) =
    let isTie :=
      lt (Math_abs (sub (UserResult.finalScore (snd top))
                        (UserResult.finalScore (snd second)))) (Num (rnd 0.1)) in
    {| Decision.winner := if isTie then None else Some (winnerOf top);
       Decision.isTie := isTie |}.
Proof.
  intros Hs. unfold determineWinner. destruct e1 as [k1 r1]. rewrite Hs.
  destruct top as [kt rt], second as [ks rs]. reflexivity.
Qed.

(** The two doubles next to the decimal 0.1. *)
Lemma rnd_tenth_above : 0.1 <= rnd 0.1.
Proof. apply Qle_bool_iff. vm_compute. reflexivity. Qed.



End WinnerResolver.

(** C2.  Whatever the results, [determineWinner] answers a null winner
    exactly when it declares a tie or there is no participant at all; and on
    a mapping with one participant it declares no tie and answers that
    participant, with the final score of that participant. *)
Theorem winner_is_null_iff_tie_or_no_participant :
  (forall results : obj UserResult.t,
     let decision := DebateAnalyzer.determineWinner results in
     DebateAnalyzer.Decision.winner decision = None <->
     DebateAnalyzer.Decision.isTie decision = true \/ List.length results = 0%nat) /\
  (forall (userId : string) (result : UserResult.t),
     DebateAnalyzer.determineWinner [(userId, result)] =
       {| DebateAnalyzer.Decision.winner :=
            Some {| Winner.userId := userId;
                    Winner.userName := UserResult.userName result;
                    Winner.finalScore := UserResult.finalScore result |};
          DebateAnalyzer.Decision.isTie := false |}).
Proof.
  split; [|reflexivity].
  intros [|e1 [|e2 l]].
  - simpl. intuition.
  - destruct e1 as [k1 r1]. simpl. split; [discriminate|].
    intros [H|H]; discriminate.
  - destruct (sort_two_or_more e1 e2 l) as [top [second [rest Hs]]].
    cbv zeta. rewrite (determineWinner_sorted _ _ _ _ _ _ Hs). cbv zeta.
    cbn [DebateAnalyzer.Decision.winner DebateAnalyzer.Decision.isTie List.length].
    destruct (lt _ _); split; trivial.
    + intros _. now left.
    + discriminate.
    + intros [H|H]; discriminate.
Qed.



(** ** The aggregator *)


Lemma round_half_up_hundredths_range (w : Q) :
  0 <= w -> w <= 10 ->
  0 <= Qround_half_up (w * 100) / 100 /\ Qround_half_up (w * 100) / 100 <= 10.
Proof.
  intros H0 H10. unfold Qround_half_up.
  assert (Hlo : (0 <= Qfloor (w * 100 + (1 # 2)))%Z).
  { change 0%Z with (Qfloor 0). apply Qfloor_resp_le. lra. }
  assert (Hhi : (Qfloor (w * 100 + (1 # 2)) <= 1000)%Z).
  { change 1000%Z with (Qfloor (1000 + (1 # 2))). apply Qfloor_resp_le. lra. }
  rewrite Zle_Qle in Hlo, Hhi.
  set (n := inject_Z (Qfloor (w * 100 + (1 # 2)))) in *.
  change (inject_Z 0) with 0 in Hlo. change (inject_Z 1000) with 1000 in Hhi.
  split.
  - apply Qle_shift_div_l; [reflexivity|]. lra.
  - apply Qle_shift_div_r; [reflexivity|]. lra.
Qed.

Section Aggregator.
Import DebateAnalyzer.

Variable StringToNumber : string -> number.
Variable Array_toString : list JSON -> string.

Lemma get_returns (score : JSON) k v k' :
  get (Some score) k = Return v -> exists v', get (Some score) k' = Return v'.
Proof.
  destruct score; simpl; intros H; try discriminate; eauto.
Qed.

Lemma operand_JNum (score : JSON) (criterion : string) (q : Q) :
  get (Some score) criterion = Return (Some (JNum q)) ->
  operand StringToNumber Array_toString score criterion = Return (Num q).
Proof. intros H. unfold operand. now rewrite H. Qed.

(** The weights, as doubles. *)
Lemma weight_quarter : rnd 0.25 == 1 # 4.
Proof. vm_compute. reflexivity. Qed.

Lemma weight_logic : (3 # 10) - (12 # 1000000000000000000) <= rnd 0.30 /\ rnd 0.30 <= 3 # 10.
Proof. split; apply Qle_bool_iff; vm_compute; reflexivity. Qed.

Lemma weight_relevance : 2 # 10 <= rnd 0.20 /\ rnd 0.20 <= (2 # 10) + (12 # 1000000000000000000).
Proof. split; apply Qle_bool_iff; vm_compute; reflexivity. Qed.

(** A sub-score from 0 to 10 times a weight. *)
Lemma weighted_bounds (x w lo hi : Q) :
  0 <= x -> x <= 10 -> 0 <= lo -> lo <= w -> w <= hi ->
  x * lo <= x * w /\ x * w <= x * hi.
Proof.
  intros H0 H10 Hlo Hw Hhi. split; apply Qmult_le_compat_nonneg.
  - split; lra.
  - split; lra.
  - split; lra.
  - split; lra.
Qed.

(** The weighted sum of four sub-scores from 0 to 10, times 100, as the
    doubles give it: a finite number [p] within [100 * tolerance] of the
    exact one. *)
Lemma weighted_sum_doubles (c l e r : Q) :
  inRange c -> inRange l -> inRange e -> inRange r ->
  exists p,
    mul (add (add (add (mul (Num c) (Num scoringWeights.clarity))
                       (mul (Num l) (Num scoringWeights.logic)))
                  (mul (Num e) (Num scoringWeights.evidence)))
             (mul (Num r) (Num scoringWeights.relevance)))
        (Num 100)
    = Num p /\
    Qabs (p / 100 - weightedSum c l e r) <= tolerance /\
    0 <= p /\ p <= 1000 + (1 # 4).
Proof.
  intros [Hc0 Hc1] [Hl0 Hl1] [He0 He1] [Hr0 Hr1].
  unfold scoringWeights.clarity, scoringWeights.logic,
    scoringWeights.evidence, scoringWeights.relevance.
  pose proof unit_roundoff_pos as Hu0. pose proof unit_roundoff_small as Hu1.
  pose proof weight_quarter as Wq.
  destruct weight_logic as [Wl0 Wl1]. destruct weight_relevance as [Wr0 Wr1].
  (* the four products *)
  cbn [mul].
  assert (X1 : c * rnd 0.25 == c * (1 # 4)) by now rewrite Wq.
  assert (X3 : e * rnd 0.25 == e * (1 # 4)) by now rewrite Wq.
  destruct (weighted_bounds l (rnd 0.30) ((3 # 10) - (12 # 1000000000000000000)) (3 # 10))
    as [X2lo X2hi]; try lra.
  destruct (weighted_bounds r (rnd 0.20) (2 # 10) ((2 # 10) + (12 # 1000000000000000000)))
    as [X4lo X4hi]; try lra.
  set (x1 := c * rnd 0.25) in *. set (x2 := l * rnd 0.30) in *.
  set (x3 := e * rnd 0.25) in *. set (x4 := r * rnd 0.20) in *.
  assert (B1 : Qabs x1 <= 3) by (apply Qabs_Qle_condition; split; lra).
  assert (B2 : Qabs x2 <= 3) by (apply Qabs_Qle_condition; split; lra).
  assert (B3 : Qabs x3 <= 3) by (apply Qabs_Qle_condition; split; lra).
  assert (B4 : Qabs x4 <= 3) by (apply Qabs_Qle_condition; split; lra).
  destruct (rnd_within x1 3 B1 eq_refl) as [T1lo T1hi].
  destruct (rnd_within x2 3 B2 eq_refl) as [T2lo T2hi].
  destruct (rnd_within x3 3 B3 eq_refl) as [T3lo T3hi].
  destruct (rnd_within x4 3 B4 eq_refl) as [T4lo T4hi].
  rewrite (fl_small x1 3 B1 eq_refl), (fl_small x2 3 B2 eq_refl),
    (fl_small x3 3 B3 eq_refl), (fl_small x4 3 B4 eq_refl).
  set (t1 := rnd x1) in *. set (t2 := rnd x2) in *.
  set (t3 := rnd x3) in *. set (t4 := rnd x4) in *.
  (* the three sums *)
  assert (A1 : Qabs (t1 + t2) <= 6) by (apply Qabs_Qle_condition; split; lra).
  destruct (rnd_within (t1 + t2) 6 A1 eq_refl) as [S1lo S1hi].
  cbn [add]. rewrite (fl_small (t1 + t2) 6 A1 eq_refl).
  set (a1 := rnd (t1 + t2)) in *.
  assert (A2 : Qabs (a1 + t3) <= 9) by (apply Qabs_Qle_condition; split; lra).
  destruct (rnd_within (a1 + t3) 9 A2 eq_refl) as [S2lo S2hi].
  cbn [add]. rewrite (fl_small (a1 + t3) 9 A2 eq_refl).
  set (a2 := rnd (a1 + t3)) in *.
  assert (A3 : Qabs (a2 + t4) <= 11) by (apply Qabs_Qle_condition; split; lra).
  destruct (rnd_within (a2 + t4) 11 A3 eq_refl) as [S3lo S3hi].
  cbn [add]. rewrite (fl_small (a2 + t4) 11 A3 eq_refl).
  set (s := rnd (a2 + t4)) in *.
  (* times 100 *)
  assert (P : Qabs (s * 100) <= 1100) by (apply Qabs_Qle_condition; split; lra).
  destruct (rnd_within (s * 100) 1100 P eq_refl) as [Plo Phi].
  cbn [mul]. rewrite (fl_small (s * 100) 1100 P eq_refl).
  exists (rnd (s * 100)). split; [reflexivity|].
  assert (Hnn : 0 <= rnd (s * 100)).
  { apply rnd_nonneg. unfold s. 
    assert (0 <= rnd (a2 + t4)); [|lra].
    apply rnd_nonneg. unfold a2.
    assert (0 <= rnd (a1 + t3) /\ 0 <= t4); [|lra]. split.
    - apply rnd_nonneg. unfold a1.
      assert (0 <= rnd (t1 + t2) /\ 0 <= t3); [|lra]. split.
      + apply rnd_nonneg.
        assert (0 <= t1 /\ 0 <= t2); [|lra].
        split; apply rnd_nonneg; lra.
      + apply rnd_nonneg; lra.
    - apply rnd_nonneg; lra. }
  set (p := rnd (s * 100)) in *.
  assert (Hq : p / 100 * 100 == p) by field.
  set (q := p / 100) in *.
  unfold weightedSum, tolerance. split; [|split].
  - apply Qabs_Qle_condition. split; lra.
  - exact Hnn.
  - lra.
Qed.

(** The final score that the aggregator computes from the four sub-scores. *)
Lemma finalResult_rawScore score c l e r :
  rawScore score c l e r ->
  exists res p,
    finalResult StringToNumber Array_toString score = Return res /\
    UserResult.finalScore res = Num (rnd (Qround_half_up p / 100)) /\
    Qabs (p / 100 - weightedSum c l e r) <= tolerance /\
    0 <= Qround_half_up p /\ Qround_half_up p <= 1000 /\
    UserResult.reasoning res = fieldOf score "reasoning".
Proof.
  intros [Hc [Hl [He [Hr [Rc [Rl [Re Rr]]]]]]].
  destruct (get_returns score _ _ "reasoning" Hc) as [reasoning Hreasoning].
  destruct (weighted_sum_doubles c l e r Rc Rl Re Rr) as [p [Hp [Hnear [Hp0 Hp1]]]].
  destruct (round_half_up_bounds p 0 1000) as [Hn0 Hn1].
  { change (inject_Z 0) with 0. lra. }
  { change (inject_Z 1000) with 1000. lra. }
  change (inject_Z 0) with 0 in Hn0. change (inject_Z 1000) with 1000 in Hn1.
  unfold finalResult.
  rewrite (operand_JNum _ _ _ Hc), (operand_JNum _ _ _ Hl),
    (operand_JNum _ _ _ He), (operand_JNum _ _ _ Hr), Hreasoning.
  cbn [bind]. eexists. exists p. split; [reflexivity|].
  cbn [UserResult.finalScore UserResult.reasoning]. rewrite Hp. cbn [Math_round div].
  split; [|split; [exact Hnear|split; [exact Hn0|split; [exact Hn1|]]]].
  - change (Qeq_bool 100 0) with false. cbv iota.
    apply (fl_small _ 10); [|reflexivity].
    apply Qabs_Qle_condition. split.
    + apply Qle_shift_div_l; [reflexivity|]. lra.
    + apply Qle_shift_div_r; [reflexivity|]. lra.
  - unfold fieldOf. now rewrite Hreasoning.
Qed.



End Aggregator.



(** ** The heuristic relevance score *)

Lemma countIf_filter {A : Type} (p : A -> bool) (l : list A) :
  countIf p l = List.length (filter p l).
Proof.
  induction l as [|x l IH]; simpl; [reflexivity|].
  destruct (p x); simpl; now rewrite IH.
Qed.

Lemma countIf_le {A : Type} (p : A -> bool) (l : list A) :
  (countIf p l <= List.length l)%nat.
Proof.
  induction l as [|x l IH]; simpl; [lia|]. destruct (p x); lia.
Qed.

Lemma lower_char_whitespace (c : ascii) : is_whitespace (lower_char c) = is_whitespace c.
Proof.
  destruct c as [[] [] [] [] [] [] [] []]; reflexivity.
Qed.

Lemma ends_with_space_lower (s : string) :
  ends_with_space (toLowerCase s) = ends_with_space s.
Proof.
  induction s as [|c s IH]; [reflexivity|].
  destruct s as [|c' s]; [apply lower_char_whitespace|exact IH].
Qed.

Lemma trimmed_lower (s : string) : trimmed (toLowerCase s) = trimmed s.
Proof.
  destruct s as [|c s]; [reflexivity|].
  pose proof (ends_with_space_lower (String c s)) as H. cbn [toLowerCase] in H.
  unfold trimmed. cbn [toLowerCase]. now rewrite lower_char_whitespace, H.
Qed.

(** On a text that does not end with white space, [split] leaves the words
    of the text, once it is reading a word, or is behind white space with
    characters to come. *)
Lemma split_ws_from_words (t : string) : forall cur in_ws,
  t = EmptyString \/ ends_with_space t = false ->
  (in_ws = true -> cur = EmptyString /\ t <> EmptyString) ->
  (in_ws = false -> cur = EmptyString ->
   exists c t', t = String c t' /\ is_whitespace c = false) ->
  split_ws_from cur in_ws t = words_from cur t.
Proof.
  induction t as [|c t IH]; intros cur in_ws Hend Hws Hword.
  - destruct in_ws.
    + destruct (Hws eq_refl) as [_ H]. now elim H.
    + destruct cur as [|a cur]; [|reflexivity].
      destruct (Hword eq_refl eq_refl) as [c [t' [H _]]]. discriminate H.
  - cbn [split_ws_from words_from]. destruct (is_whitespace c) eqn:Ec.
    + assert (Ht : t <> EmptyString /\ ends_with_space t = false).
      { destruct Hend as [H|H]; [discriminate H|].
        destruct t as [|c' t]; [cbn in H; congruence|].
        split; [discriminate|exact H]. }
      destruct Ht as [Hne Hend'].
      assert (Hrest : split_ws_from EmptyString true t = words_from EmptyString t).
      { apply IH; [now right|now split|discriminate]. }
      destruct in_ws.
      * destruct (Hws eq_refl) as [-> _]. exact Hrest.
      * destruct cur as [|a cur]; [|now rewrite Hrest].
        destruct (Hword eq_refl eq_refl) as [c' [t' [H H']]].
        injection H as <- <-. congruence.
    + apply IH.
      * destruct t as [|c' t]; [now left|right].
        destruct Hend as [H|H]; [discriminate H|exact H].
      * discriminate.
      * intros _ H. destruct cur; discriminate H.
Qed.

(** The pieces of a trimmed text are its words. *)
Lemma split_ws_words (s : string) :
  trimmed s = true -> split_ws (toLowerCase s) = words s.
Proof.
  intros H. rewrite <- trimmed_lower in H. unfold split_ws, words.
  destruct (toLowerCase s) as [|c t] eqn:E; [discriminate H|].
  unfold trimmed in H. apply andb_prop in H. destruct H as [Hc He].
  apply negb_true_iff in Hc, He.
  apply split_ws_from_words; [now right|discriminate|].
  intros _ _. now exists c, t.
Qed.

Lemma calculateRelevance_clamp (text topic : string) :
  trimmed text = true -> trimmed topic = true ->
  DebateAnalyzer.calculateRelevance text topic
  = clamp 5 10 (relevanceOf (relevanceRatio text topic)).
Proof.
  intros Htext Htopic.
  unfold DebateAnalyzer.calculateRelevance, relevanceRatio, matchedShare, relevanceOf,
    clamp, isSubstring.
  cbv zeta. rewrite (split_ws_words text Htext), (split_ws_words topic Htopic).
  now rewrite countIf_filter.
Qed.

Lemma clamp_bounds (lo hi x : Q) : lo <= hi -> lo <= clamp lo hi x /\ clamp lo hi x <= hi.
Proof.
  intros Hlh. unfold clamp.
  destruct (Q.min_spec hi (Qmax lo x)) as [[? Hi]|[? Hi]];
    destruct (Q.max_spec lo x) as [[? Hm]|[? Hm]]; split; lra.
Qed.

Lemma clamp_clamp (x : Q) : clamp 6 10 (clamp 5 10 x) == clamp 6 10 x.
Proof.
  unfold clamp.
  destruct (Q.max_spec 5 x) as [[? H5]|[? H5]];
    destruct (Q.min_spec 10 (Qmax 5 x)) as [[? Hi]|[? Hi]];
    destruct (Q.max_spec 6 (Qmin 10 (Qmax 5 x))) as [[? Ho]|[? Ho]];
    destruct (Q.min_spec 10 (Qmax 6 (Qmin 10 (Qmax 5 x)))) as [[? Hoo]|[? Hoo]];
    destruct (Q.max_spec 6 x) as [[? H6]|[? H6]];
    destruct (Q.min_spec 10 (Qmax 6 x)) as [[? Hr]|[? Hr]];
    lra.
Qed.

Lemma fallbackScore_relevance (topic text : string) :
  Score.relevance (DebateAnalyzer.fallbackScore topic text)
  = clamp 6 10 (DebateAnalyzer.calculateRelevance text topic).
Proof. reflexivity. Qed.

Lemma of_nat_le (m n : nat) : (m <= n)%nat -> 0 <= of_nat m /\ of_nat m <= of_nat n.
Proof.
  intros H. unfold of_nat. split.
  - change 0 with (inject_Z 0). rewrite <- Zle_Qle. lia.
  - rewrite <- Zle_Qle. lia.
Qed.

Lemma matchedShare_range (text topic : string) :
  0 <= matchedShare text topic /\ matchedShare text topic <= 1.
Proof.
  unfold matchedShare. cbv zeta.
  set (p := fun w => existsb _ _).
  pose proof (countIf_le p (words topic)) as Hle.
  destruct (of_nat_le _ _ Hle) as [H0 H1].
  set (m := of_nat (countIf p (words topic))) in *.
  set (n := of_nat (List.length (words topic))) in *.
  destruct (Qlt_le_dec 0 n) as [Hn|Hn].
  - split.
    + apply Qle_shift_div_l; [assumption|lra].
    + apply Qle_shift_div_r; [assumption|lra].
  - assert (En : n == 0) by lra.
    assert (E : m / n == 0) by (unfold Qdiv; rewrite En; unfold Qinv; simpl; ring).
    rewrite E. split; lra.
Qed.

(** The relevance that the doubles give to a share stays within
    [tolerance] of the share times 10 plus 5. *)
Lemma relevanceOf_near (q : Q) :
  0 <= q -> q <= 1 -> Qabs (relevanceOf (rnd q) - (q * 10 + 5)) <= tolerance.
Proof.
  intros H0 H1. unfold relevanceOf, tolerance.
  pose proof unit_roundoff_pos as Hu0. pose proof unit_roundoff_small as Hu1.
  assert (B0 : Qabs q <= 1) by (apply Qabs_Qle_condition; split; lra).
  destruct (rnd_within q 1 B0 eq_refl) as [R0lo R0hi].
  set (ratio := rnd q) in *.
  assert (B1 : Qabs (ratio * 10) <= 11) by (apply Qabs_Qle_condition; split; lra).
  destruct (rnd_within (ratio * 10) 11 B1 eq_refl) as [R1lo R1hi].
  set (x := rnd (ratio * 10)) in *.
  assert (B2 : Qabs (x + 5) <= 17) by (apply Qabs_Qle_condition; split; lra).
  destruct (rnd_within (x + 5) 17 B2 eq_refl) as [R2lo R2hi].
  apply Qabs_Qle_condition. split; lra.
Qed.

(** C6, as it is stated, fails: on the topic [cats] and the argument [dog]
    no topic word matches, so that the ratio is 0 and the claimed score is
    5, whereas the heuristic scorer answers 6. *)
Lemma heuristic_relevance_is_not_clamped_to_5_10 :
  relevanceRatio "dog" "cats" == 0 /\
  clamp 5 10 (relevanceOf (relevanceRatio "dog" "cats")) == 5 /\
  Score.relevance (DebateAnalyzer.fallbackScore "cats" "dog") == 6 /\
  ~ (forall text topic,
       Score.relevance (DebateAnalyzer.fallbackScore topic text)
       == clamp 5 10 (relevanceOf (relevanceRatio text topic))).
Proof.
  split; [vm_compute; reflexivity|].
  split; [vm_compute; reflexivity|].
  split; [vm_compute; reflexivity|].
  intros H. specialize (H "dog" "cats"). vm_compute in H. discriminate H.
Qed.

(** C6, amended.  On a topic and an argument that are trimmed, so that
    each has a word at either end, [calculateRelevance] answers the ratio
    times 10 plus 5, clamped to the interval from 5 to 10, and the heuristic
    scorer raises the lower bound to 6: the relevance score of the scorer is
    the ratio times 10 plus 5 clamped to the interval from 6 to 10.  The
    ratio, the product and the sum are the ones of the doubles, and stay
    within [10^-14] of the exact ones.  Whatever the topic and the argument,
    the score lies between 6 and 10; it can be as low as 6. *)
Theorem heuristic_relevance_is_clamped_to_6_10 :
  (forall text topic,
     trimmed text = true -> trimmed topic = true ->
     DebateAnalyzer.calculateRelevance text topic
     = clamp 5 10 (relevanceOf (relevanceRatio text topic)) /\
     Score.relevance (DebateAnalyzer.fallbackScore topic text)
     == clamp 6 10 (relevanceOf (relevanceRatio text topic)) /\
     Qabs (relevanceOf (relevanceRatio text topic) - (matchedShare text topic * 10 + 5))
     <= tolerance) /\
  (forall text topic,
     6 <= Score.relevance (DebateAnalyzer.fallbackScore topic text) /\
     Score.relevance (DebateAnalyzer.fallbackScore topic text) <= 10) /\
  (exists text topic,
     trimmed text = true /\ trimmed topic = true /\
     Score.relevance (DebateAnalyzer.fallbackScore topic text) == 6).
Proof.
  split; [|split].
  - intros text topic Htext Htopic.
    split; [now apply calculateRelevance_clamp|]. split.
    + rewrite fallbackScore_relevance, calculateRelevance_clamp by assumption.
      apply clamp_clamp.
    + destruct (matchedShare_range text topic) as [H0 H1].
      now apply relevanceOf_near.
  - intros text topic. rewrite fallbackScore_relevance. apply clamp_bounds. lra.
  - exists "dog", "cats". repeat split; vm_compute; reflexivity.
Qed.

(** ** The heuristic scorer on an empty text *)

Lemma includes_empty (s : string) : includes s EmptyString = true.
Proof. destruct s; reflexivity. Qed.

Lemma split_ws_from_length (s : string) : forall cur in_ws,
  (1 <= List.length (split_ws_from cur in_ws s))%nat.
Proof.
  induction s as [|c s IH]; intros cur in_ws; simpl; [lia|].
  destruct (is_whitespace c); [destruct in_ws|]; simpl; try apply IH; lia.
Qed.

Lemma filter_all {A : Type} (p : A -> bool) (l : list A) :
  (forall x, p x = true) -> filter p l = l.
Proof.
  intros Hp. induction l as [|x l IH]; simpl; [reflexivity|].
  now rewrite Hp, IH.
Qed.

Lemma calculateRelevance_empty_text (topic : string) :
  DebateAnalyzer.calculateRelevance EmptyString topic == 10.
Proof.
  unfold DebateAnalyzer.calculateRelevance. cbv zeta.
  change (split_ws (toLowerCase EmptyString)) with [EmptyString].
  rewrite filter_all.
  2:{ intros word. simpl. rewrite includes_empty. now rewrite orb_true_r. }
  pose proof (split_ws_from_length (toLowerCase topic) EmptyString false) as Hlen.
  fold (split_ws (toLowerCase topic)) in Hlen.
  set (n := List.length (split_ws (toLowerCase topic))) in *.
  assert (Hn : ~ of_nat n == 0).
  { unfold of_nat, Qeq. simpl. lia. }
  assert (Hratio : of_nat n / of_nat n == 1).
  { field. exact Hn. }
  rewrite (rnd_comp _ _ Hratio). vm_compute. reflexivity.
Qed.

(** C9.  On an empty text the heuristic scorer answers clarity 6, logic 5 and
    evidence 4, but the relevance is 10, the top of its range, whatever the
    topic: the one empty word of the text is a substring of every topic
    word. *)
Theorem empty_text_gets_the_highest_relevance (topic : string) :
  let score := DebateAnalyzer.fallbackScore topic EmptyString in
  Score.clarity score = 6 /\ Score.logic score = 5 /\ Score.evidence score = 4 /\
  Score.relevance score == 10 /\
  forall session_id userId, 
    DebateAnalyzer.AIScoringResponse.scores
      (DebateAnalyzer.performFallbackAnalysis
         {| DebateSession.id := session_id;
            DebateSession.topic := topic;
            DebateSession.arguments :=
              [{| Argument.id := EmptyString; Argument.userId := userId;
                  Argument.userName := EmptyString; Argument.topic := topic;
                  Argument.text := EmptyString; Argument.timestamp := 0 |}];
            DebateSession.createdAt := 0;
            DebateSession.processedAt := None |})
    = [(userId, score)].
Proof.
  cbv zeta. repeat split.
  - rewrite fallbackScore_relevance.
    pose proof (calculateRelevance_empty_text topic) as H.
    unfold clamp.
    destruct (Q.max_spec 6 (DebateAnalyzer.calculateRelevance EmptyString topic))
      as [[? Hm]|[? Hm]];
      destruct (Q.min_spec 10 (Qmax 6 (DebateAnalyzer.calculateRelevance EmptyString topic)))
        as [[? Hi]|[? Hi]]; lra.
  - intros session_id userId.
    unfold DebateAnalyzer.performFallbackAnalysis, DebateAnalyzer.fallbackLoop, obj_set.
    simpl. destruct (array_index userId); reflexivity.
Qed.

(** ** The response validator *)

(** *** The span between braces *)

Lemma string_app_assoc (a b c : string) : ((a ++ b) ++ c = a ++ b ++ c)%string.
Proof. induction a as [|x a IH]; simpl; [reflexivity|]. now rewrite IH. Qed.

Lemma from_first_open_Some s r :
  from_first_open s = Some r ->
  exists a r', s = (a ++ r)%string /\ r = String open_brace r'.
Proof.
  induction s as [|c s IH]; simpl; [discriminate|].
  destruct (Ascii.eqb c open_brace) eqn:E.
  - apply Ascii.eqb_eq in E. subst c. intros [= <-].
    exists EmptyString, s. split; reflexivity.
  - intros H. destruct (IH H) as [a [r' [Hs Hr]]].
    exists (String c a), r'. simpl. split; congruence.
Qed.

Lemma from_first_open_found a t :
  exists r' p,
    from_first_open (a ++ String open_brace t)%string = Some (String open_brace r') /\
    r' = (p ++ t)%string.
Proof.
  induction a as [|c a IH]; simpl.
  - exists t, EmptyString. split; reflexivity.
  - destruct (Ascii.eqb c open_brace) eqn:E.
    + apply Ascii.eqb_eq in E. subst c.
      exists (a ++ String open_brace t)%string, (a ++ String open_brace EmptyString)%string.
      split; [reflexivity|]. now rewrite string_app_assoc.
    + exact IH.
Qed.

Lemma upto_last_close_Some r m :
  upto_last_close r = Some m ->
  exists b c, r = (b ++ String close_brace c)%string.
Proof.
  revert m. induction r as [|x r IH]; simpl; intros m; [discriminate|].
  destruct (upto_last_close r) as [m'|].
  - intros _. destruct (IH m' eq_refl) as [b [c Hr]].
    exists (String x b), c. simpl. congruence.
  - destruct (Ascii.eqb x close_brace) eqn:E; [|discriminate].
    apply Ascii.eqb_eq in E. subst x. intros _.
    exists EmptyString, r. reflexivity.
Qed.

Lemma upto_last_close_found p c :
  upto_last_close (p ++ String close_brace c)%string <> None.
Proof.
  induction p as [|x p IH]; simpl.
  - destruct (upto_last_close c); discriminate.
  - destruct (upto_last_close (p ++ String close_brace c)%string); [discriminate|].
    now contradiction IH.
Qed.

Lemma match_braces_None (s : string) : match_braces s = None <-> noBraceSpan s.
Proof.
  unfold match_braces, noBraceSpan. split.
  - intros Hnone [a [b [c Hs]]]. subst s.
    destruct (from_first_open_found a (b ++ "}" ++ c)%string) as [r' [p [Hr Hp]]].
    change ("{" ++ b ++ "}" ++ c)%string with (String open_brace (b ++ "}" ++ c))%string
      in Hnone.
    rewrite Hr in Hnone. subst r'.
    apply (upto_last_close_found (String open_brace (p ++ b)) c).
    rewrite <- Hnone. simpl. now rewrite string_app_assoc.
  - intros Hno. destruct (from_first_open s) as [r|] eqn:Hr; [|reflexivity].
    destruct (upto_last_close r) as [m|] eqn:Hm; [|reflexivity].
    exfalso. apply Hno.
    destruct (from_first_open_Some _ _ Hr) as [a [r' [Hs Hr']]].
    destruct (upto_last_close_Some _ _ Hm) as [b [c Hb]].
    destruct b as [|x b].
    + rewrite Hr' in Hb. simpl in Hb. discriminate Hb.
    + rewrite Hr' in Hb. simpl in Hb. injection Hb as Hx Hb'.
      exists a, b, c. rewrite Hs, Hr', Hb'. reflexivity.
Qed.

(** *** The checks on the entries *)

Lemma invalidScore_false (v : value) :
  DebateAnalyzer.invalidScore v = false <-> numberInRange v.
Proof.
  unfold numberInRange, inRange. split.
  - destruct v as [[| | q | | | |]|]; simpl; try discriminate.
    rewrite orb_false_iff, !Qltb_ge. intros [H0 H10]. now exists q.
  - intros [q [-> [H0 H10]]]. simpl. rewrite orb_false_iff, !Qltb_ge. now split.
Qed.

Lemma invalidScore_true (v : value) :
  DebateAnalyzer.invalidScore v = true <-> ~ numberInRange v.
Proof.
  rewrite <- invalidScore_false. destruct (DebateAnalyzer.invalidScore v); split; congruence.
Qed.

Lemma get_throws_TypeError (v : value) k m : get v k = Throw m -> m = TypeError.
Proof.
  destruct v as [[| | | | | |]|]; simpl; congruence.
Qed.

Lemma get_throws_nullish (v : value) k m :
  get v k = Throw m -> v = None \/ v = Some JNull.
Proof.
  destruct v as [[| | | | | |]|]; simpl; try discriminate; auto.
Qed.

Lemma get_truthy (score : JSON) k :
  falsy (Some score) = false -> get (Some score) k = Return (fieldOf score k).
Proof.
  unfold fieldOf. destruct score; simpl; try discriminate; reflexivity.
Qed.

Lemma falsy_has_no_clarity (score : JSON) :
  falsy (Some score) = true -> ~ numberInRange (fieldOf score "clarity").
Proof.
  intros Hf [q [Hq _]]. unfold fieldOf in Hq.
  destruct score as [| [|] | q' | | [|c s] | |]; simpl in *; discriminate.
Qed.

Lemma checkCriterion_truthy (score : JSON) criterion userId :
  falsy (Some score) = false ->
  DebateAnalyzer.checkCriterion (Some score) criterion userId
  = if DebateAnalyzer.invalidScore (fieldOf score criterion)
    then Throw (InvalidScore criterion userId) else Return tt.
Proof.
  intros Ht. unfold DebateAnalyzer.checkCriterion. now rewrite (get_truthy _ _ Ht).
Qed.

(** One round of the validation loop either passes, on a scored
    participant, or throws the first violation of the participant. *)
Lemma checkArgument_spec (parsed : JSON) (arg : Argument.t) :
  (DebateAnalyzer.checkArgument parsed arg = Return tt /\
   scored parsed (Argument.userId arg)) \/
  (exists m,
     DebateAnalyzer.checkArgument parsed arg = Throw m /\
     violationOf parsed (Argument.userId arg) m /\
     ~ scored parsed (Argument.userId arg)).
Proof.
  unfold DebateAnalyzer.checkArgument. cbv zeta.
  set (userId := Argument.userId arg).
  assert (Hscores : get (Some parsed) "scores" = Return (scoresOf parsed) \/
                    (exists m, get (Some parsed) "scores" = Throw m) /\ scoresOf parsed = None).
  { unfold scoresOf. destruct (get (Some parsed) "scores"); eauto. }
  destruct Hscores as [Hs|[[m Hs] Hnone]].
  2:{ right. exists m. rewrite Hs. cbn [bind]. split; [reflexivity|].
      rewrite (get_throws_TypeError _ _ _ Hs). split.
      - apply violation_no_scores. now left.
      - intros [score [He _]]. unfold entryOf in He. rewrite Hnone in He. discriminate. }
  rewrite Hs. cbn [bind].
  destruct (get (scoresOf parsed) userId) as [entry|m] eqn:He.
  2:{ right. exists m. cbn [bind]. split; [reflexivity|].
      rewrite (get_throws_TypeError _ _ _ He). split.
      - apply violation_no_scores. exact (get_throws_nullish _ _ _ He).
      - intros [score [He' _]]. unfold entryOf in He'. rewrite He in He'. discriminate. }
  cbn [bind].
  assert (Hentry : entryOf parsed userId = entry) by (unfold entryOf; now rewrite He).
  destruct (falsy entry) eqn:Hf.
  { right. exists (MissingScore userId). split; [reflexivity|]. split.
    - now apply violation_missing with entry.
    - intros [score [He' Hall]]. rewrite Hentry in He'. rewrite He' in Hf.
      inversion Hall as [|? ? Hc _]; subst.
      exact (falsy_has_no_clarity _ Hf Hc). }
  destruct entry as [score|]; [|discriminate].
  rewrite !(checkCriterion_truthy _ _ _ Hf).
  destruct (DebateAnalyzer.invalidScore (fieldOf score "clarity")) eqn:Hc; cbn [bind].
  { right. exists (InvalidScore "clarity" userId). apply invalidScore_true in Hc.
    split; [reflexivity|]. split.
    - apply violation_invalid with score [] ["logic"; "evidence"; "relevance"]; auto.
    - intros [score' [He' Hall]]. rewrite Hentry in He'. injection He' as <-.
      inversion Hall; subst. contradiction. }
  destruct (DebateAnalyzer.invalidScore (fieldOf score "logic")) eqn:Hl; cbn [bind].
  { right. exists (InvalidScore "logic" userId).
    apply invalidScore_false in Hc. apply invalidScore_true in Hl.
    split; [reflexivity|]. split.
    - apply violation_invalid with score ["clarity"] ["evidence"; "relevance"]; auto.
    - intros [score' [He' Hall]]. rewrite Hentry in He'. injection He' as <-.
      inversion Hall as [|? ? _ Hall1]; subst. inversion Hall1; subst. contradiction. }
  destruct (DebateAnalyzer.invalidScore (fieldOf score "evidence")) eqn:Hv; cbn [bind].
  { right. exists (InvalidScore "evidence" userId).
    apply invalidScore_false in Hc, Hl. apply invalidScore_true in Hv.
    split; [reflexivity|]. split.
    - apply violation_invalid with score ["clarity"; "logic"] ["relevance"]; auto.
    - intros [score' [He' Hall]]. rewrite Hentry in He'. injection He' as <-.
      inversion Hall as [|? ? _ Hall1]; subst. inversion Hall1 as [|? ? _ Hall2]; subst.
      inversion Hall2; subst. contradiction. }
  destruct (DebateAnalyzer.invalidScore (fieldOf score "relevance")) eqn:Hr.
  { right. exists (InvalidScore "relevance" userId).
    apply invalidScore_false in Hc, Hl, Hv. apply invalidScore_true in Hr.
    split; [reflexivity|]. split.
    - apply violation_invalid with score ["clarity"; "logic"; "evidence"] []; auto.
    - intros [score' [He' Hall]]. rewrite Hentry in He'. injection He' as <-.
      inversion Hall as [|? ? _ Hall1]; subst. inversion Hall1 as [|? ? _ Hall2]; subst.
      inversion Hall2 as [|? ? _ Hall3]; subst. inversion Hall3; subst. contradiction. }
  left. split; [reflexivity|].
  apply invalidScore_false in Hc, Hl, Hv, Hr.
  exists score. split; [exact Hentry|]. unfold criteria. auto.
Qed.

Lemma checkArguments_scored (parsed : JSON) (args : list Argument.t) :
  Forall (fun arg => scored parsed (Argument.userId arg)) args ->
  DebateAnalyzer.checkArguments parsed args = Return tt.
Proof.
  induction 1 as [|arg args Harg _ IH]; simpl; [reflexivity|].
  destruct (checkArgument_spec parsed arg) as [[-> _]|[m [_ [_ Hno]]]]; [exact IH|].
  contradiction.
Qed.

Lemma checkArguments_first_violation (parsed : JSON) pre arg post :
  Forall (fun arg => scored parsed (Argument.userId arg)) pre ->
  ~ scored parsed (Argument.userId arg) ->
  exists m,
    DebateAnalyzer.checkArguments parsed (pre ++ arg :: post) = Throw m /\
    violationOf parsed (Argument.userId arg) m.
Proof.
  intros Hpre Hno. induction Hpre as [|a pre Ha _ IH]; simpl.
  - destruct (checkArgument_spec parsed arg) as [[_ Hyes]|[m [-> [Hv _]]]]; [contradiction|].
    exists m. split; [reflexivity|exact Hv].
  - destruct (checkArgument_spec parsed a) as [[-> _]|[m [_ [_ Hna]]]]; [exact IH|].
    contradiction.
Qed.

Lemma checkArguments_Return (parsed : JSON) (args : list Argument.t) :
  DebateAnalyzer.checkArguments parsed args = Return tt ->
  Forall (fun arg => scored parsed (Argument.userId arg)) args.
Proof.
  induction args as [|arg args IH]; simpl; [constructor|].
  destruct (checkArgument_spec parsed arg) as [[-> Hyes]|[m [-> _]]]; cbn [bind].
  - intros H. constructor; auto.
  - discriminate.
Qed.

Section Validator.
Variable JSON_parse : string -> option JSON.

Lemma parseAIResponse_checked response session jsonMatch parsed :
  match_braces response = Some jsonMatch ->
  JSON_parse jsonMatch = Some parsed ->
  DebateAnalyzer.parseAIResponse JSON_parse response session
  = match DebateAnalyzer.checkArguments parsed (DebateSession.arguments session) with
    | Return _ => Return parsed
    | Throw m => Throw (InvalidAIResponseFormat m)
    end.
Proof.
  intros Hm Hp. unfold DebateAnalyzer.parseAIResponse. rewrite Hm, Hp.
  destruct (DebateAnalyzer.checkArguments parsed (DebateSession.arguments session));
    reflexivity.
Qed.

Lemma parseAIResponse_no_braces response session :
  match_braces response = None ->
  DebateAnalyzer.parseAIResponse JSON_parse response session
  = Throw (InvalidAIResponseFormat NoJSONFound).
Proof.
  intros Hm. unfold DebateAnalyzer.parseAIResponse. now rewrite Hm.
Qed.

Lemma parseAIResponse_throws response session m :
  DebateAnalyzer.parseAIResponse JSON_parse response session = Throw m ->
  exists cause, m = InvalidAIResponseFormat cause.
Proof.
  unfold DebateAnalyzer.parseAIResponse.
  destruct (match_braces response) as [jsonMatch|]; simpl; [|intros [= <-]; eauto].
  destruct (JSON_parse jsonMatch) as [parsed|]; simpl; [|intros [= <-]; eauto].
  destruct (DebateAnalyzer.checkArguments parsed (DebateSession.arguments session));
    simpl; [discriminate|intros [= <-]; eauto].
Qed.

End Validator.

(** C4.  Whatever [JSON.parse] is, the validator

    - fails with the error of no JSON found when the text of the judge has
      no span from an opening brace to a closing brace, which is exactly when
      the regular expression finds no match;
    - on a text whose span parses, succeeds, with the parsed payload, exactly
      when every participant of the arguments has an entry in the scores of
      the payload whose clarity, logic, evidence and relevance are numbers in
      the inclusive range from 0 to 10, and fails otherwise;
    - fails fast: the error is the first violation of the first argument, in
      the order of the session, whose participant is not so scored; this is
      a missing score when the participant has no entry, and else the first
      of clarity, logic, evidence and relevance, in that order, that is not
      a number in the range. *)
Theorem validator_checks_every_participant
  (JSON_parse : string -> option JSON) (response : string) (session : DebateSession.t) :
  let result := DebateAnalyzer.parseAIResponse JSON_parse response session in
  let participantScored parsed := fun arg => scored parsed (Argument.userId arg) in
  (match_braces response = None <-> noBraceSpan response) /\
  (noBraceSpan response -> result = Throw (InvalidAIResponseFormat NoJSONFound)) /\
  (forall jsonMatch parsed,
     match_braces response = Some jsonMatch ->
     JSON_parse jsonMatch = Some parsed ->
     (Forall (participantScored parsed) (DebateSession.arguments session)
      <-> result = Return parsed) /\
     (~ Forall (participantScored parsed) (DebateSession.arguments session)
      -> exists m, result = Throw (InvalidAIResponseFormat m)) /\
     (forall pre arg post,
        DebateSession.arguments session = (pre ++ arg :: post)%list ->
        Forall (participantScored parsed) pre ->
        ~ scored parsed (Argument.userId arg) ->
        exists m,
          result = Throw (InvalidAIResponseFormat m) /\
          violationOf parsed (Argument.userId arg) m)).
Proof.
  cbv zeta. split; [apply match_braces_None|].
  split.
  - intros Hno. apply parseAIResponse_no_braces. now apply match_braces_None.
  - intros jsonMatch parsed Hm Hp.
    rewrite (parseAIResponse_checked JSON_parse _ session _ _ Hm Hp).
    split; [|split].
    + split.
      * intros Hall. now rewrite (checkArguments_scored _ _ Hall).
      * destruct (DebateAnalyzer.checkArguments parsed (DebateSession.arguments session))
          as [[]|m] eqn:Hc; [|discriminate].
        intros _. now apply checkArguments_Return.
    + intros Hnot.
      destruct (DebateAnalyzer.checkArguments parsed (DebateSession.arguments session))
        as [[]|m] eqn:Hc; [|eauto].
      exfalso. apply Hnot. now apply checkArguments_Return.
    + intros pre arg post Hargs Hpre Hno. rewrite Hargs.
      destruct (checkArguments_first_violation parsed pre arg post Hpre Hno)
        as [m [-> Hv]].
      exists m. split; [reflexivity|exact Hv].
Qed.

(** ** The orchestrator *)

(** C1.  A session with one argument on which [analyzeDebate] throws: the
    judge scores the participant of the session, so that its answer passes
    the validation, and adds a null entry for another participant; the
    aggregator, which goes through all the entries of the payload, throws on
    that entry, and the error reaches the caller. *)
Theorem analyzeDebate_throws_on_a_session_with_an_argument
  (StringToNumber : string -> number) (Array_toString : list JSON -> string)
  (Date_now : Z) :
  List.length (DebateSession.arguments NullEntry.session) = 1%nat /\
  DebateAnalyzer.parseAIResponse NullEntry.JSON_parse NullEntry.response NullEntry.session
  = Return NullEntry.payload /\
  DebateAnalyzer.analyzeDebate StringToNumber Array_toString
    NullEntry.JSON_parse NullEntry.generateText Date_now NullEntry.session
  = Throw (FailedToAnalyze TypeError).
Proof.
  split; [reflexivity|]. split; vm_compute; reflexivity.
Qed.

(** *** The heuristic path *)

Section HeuristicPath.
Import DebateAnalyzer.

Variable StringToNumber : string -> number.
Variable Array_toString : list JSON -> string.

Lemma finalResult_Score_value (s : Score.t) :
  finalResult StringToNumber Array_toString (Score_value s) = Return (heuristicResult s).
Proof. reflexivity. Qed.

Lemma finalResults_heuristic (scores : obj Score.t) : forall results0,
  finalResults StringToNumber Array_toString
    (map (fun e => (fst e, Score_value (snd e))) scores) results0
  = Return (fold_left (fun results e => obj_set (fst e) (heuristicResult (snd e)) results)
                      scores results0).
Proof.
  induction scores as [|[k s] scores IH]; intros results0; simpl; [reflexivity|].
  apply IH.
Qed.

(** The aggregator does not throw on the payload of the heuristic scorer. *)
Lemma calculateFinalScores_heuristic (response : AIScoringResponse.t) :
  bind (get (Some (AIScoringResponse_value response)) "scores")
       (calculateFinalScores StringToNumber Array_toString)
  = Return (fold_left (fun results e => obj_set (fst e) (heuristicResult (snd e)) results)
                      (AIScoringResponse.scores response) []).
Proof.
  unfold AIScoringResponse_value. cbn [get obj_get String.eqb Ascii.eqb Bool.eqb bind].
  unfold calculateFinalScores. cbn [Object_entries bind].
  apply finalResults_heuristic.
Qed.

Variable JSON_parse : string -> option JSON.
Variable generateText : string -> completion string.
Variable Date_now : Z.

(** When the judge fails on a session with an argument, the decision is
    made of the scores and of the consensus statement of the heuristic
    scorer. *)
Lemma analyzeDebate_heuristic (session : DebateSession.t) (m : Message) :
  DebateSession.arguments session <> [] ->
  performAIAnalysis JSON_parse generateText session = Throw m ->
  let response := performFallbackAnalysis session in
  let results :=
    fold_left (fun results e => obj_set (fst e) (heuristicResult (snd e)) results)
              (AIScoringResponse.scores response) [] in
  analyzeDebate StringToNumber Array_toString JSON_parse generateText Date_now session
  = Return
      {| DebateResult.sessionId := DebateSession.id session;
         DebateResult.topic := DebateSession.topic session;
         DebateResult.results := results;
         DebateResult.winner := Decision.winner (determineWinner results);
         DebateResult.isTie := Decision.isTie (determineWinner results);
         DebateResult.consensusStatement :=
           Some (JStr (AIScoringResponse.consensusStatement response));
         DebateResult.processedAt := Date_now |}.
Proof.
  intros Hargs Hjudge. cbv zeta. unfold analyzeDebate.
  destruct (DebateSession.arguments session) as [|a args] eqn:Ha; [congruence|].
  cbn [List.length Nat.eqb]. rewrite Hjudge.
  pose proof (calculateFinalScores_heuristic (performFallbackAnalysis session)) as Hcalc.
  destruct (get (Some (AIScoringResponse_value (performFallbackAnalysis session))) "scores")
    as [scores|] eqn:Hget; [|discriminate Hcalc].
  cbn [bind] in Hcalc |- *. rewrite Hcalc. reflexivity.
Qed.

Lemma performAIAnalysis_rejected (session : DebateSession.t) (a : Argument.t) args :
  DebateSession.arguments session = a :: args ->
  (forall prompt, exists m, generateText prompt = Throw m) ->
  exists m, performAIAnalysis JSON_parse generateText session = Throw m.
Proof.
  intros Hargs Hjudge. unfold performAIAnalysis, constructAnalysisPrompt.
  rewrite Hargs. cbn [bind].
  match goal with |- context [generateText ?p] => destruct (Hjudge p) as [m ->] end.
  exists m. reflexivity.
Qed.

Lemma performAIAnalysis_invalid (session : DebateSession.t) (a : Argument.t) args :
  DebateSession.arguments session = a :: args ->
  (forall prompt, exists response m,
     generateText prompt = Return response /\
     parseAIResponse JSON_parse response session = Throw m) ->
  exists m, performAIAnalysis JSON_parse generateText session = Throw m.
Proof.
  intros Hargs Hjudge. unfold performAIAnalysis, constructAnalysisPrompt.
  rewrite Hargs. cbn [bind].
  match goal with |- context [generateText ?p] =>
    destruct (Hjudge p) as [response [m [-> Hparse]]] end.
  cbn [bind]. rewrite Hparse. exists m. reflexivity.
Qed.

(** [analyzeDebate] throws on an empty session, and otherwise only when the
    judge has answered a payload that passes the validation and on which the
    aggregator throws. *)
Lemma analyzeDebate_throws (session : DebateSession.t) (m : Message) :
  analyzeDebate StringToNumber Array_toString JSON_parse generateText Date_now session
  = Throw m ->
  DebateSession.arguments session = [] \/
  exists parsed,
    performAIAnalysis JSON_parse generateText session = Return parsed /\
    exists cause,
      bind (get (Some parsed) "scores") (calculateFinalScores StringToNumber Array_toString)
      = Throw cause.
Proof.
  intros Hthrow.
  destruct (DebateSession.arguments session) as [|a args] eqn:Hargs; [now left|].
  right.
  destruct (performAIAnalysis JSON_parse generateText session) as [parsed|e] eqn:Hjudge.
  - exists parsed. split; [reflexivity|].
    unfold analyzeDebate in Hthrow. rewrite Hargs, Hjudge in Hthrow.
    cbn [List.length Nat.eqb] in Hthrow.
    destruct (get (Some parsed) "scores") as [scores|cause] eqn:Hget; cbn [bind] in *;
      [|eauto].
    destruct (calculateFinalScores StringToNumber Array_toString scores)
      as [results|cause]; cbn [bind] in *; [|eauto].
    destruct parsed; simpl in Hget, Hthrow; discriminate.
  - assert (Hne : DebateSession.arguments session <> []) by (rewrite Hargs; discriminate).
    rewrite (analyzeDebate_heuristic session e Hne Hjudge) in Hthrow. discriminate.
Qed.

Lemma analyzeDebate_no_arguments (session : DebateSession.t) :
  DebateSession.arguments session = [] ->
  analyzeDebate StringToNumber Array_toString JSON_parse generateText Date_now session
  = Throw (FailedToAnalyze NoArguments).
Proof.
  intros Hargs. unfold analyzeDebate. now rewrite Hargs.
Qed.

End HeuristicPath.

(** ** Scenario A *)




Lemma rawScore_Score_value (s : Score.t) :
  inRange (Score.clarity s) -> inRange (Score.logic s) ->
  inRange (Score.evidence s) -> inRange (Score.relevance s) ->
  rawScore (DebateAnalyzer.Score_value s)
    (Score.clarity s) (Score.logic s) (Score.evidence s) (Score.relevance s).
Proof.
  intros Hc Hl He Hr. unfold rawScore. do 4 (split; [reflexivity|]). auto.
Qed.

(** The final score of a heuristic entry: the rounding to hundredths of a
    product [p] that stays within [100 * tolerance] of 100 times the
    weighted sum. *)
Lemma heuristicResult_finalScore (s : Score.t) :
  inRange (Score.clarity s) -> inRange (Score.logic s) ->
  inRange (Score.evidence s) -> inRange (Score.relevance s) ->
  exists p,
    UserResult.finalScore (heuristicResult s) = Num (rnd (Qround_half_up p / 100)) /\
    Qabs (p / 100 - weightedSum (Score.clarity s) (Score.logic s)
                                (Score.evidence s) (Score.relevance s)) <= tolerance.
Proof.
  intros Hc Hl He Hr.
  destruct (finalResult_rawScore (fun _ => NaN) (fun _ => EmptyString) _ _ _ _ _
              (rawScore_Score_value s Hc Hl He Hr))
    as [res [p [Hres [Hf [Hnear _]]]]].
  rewrite finalResult_Score_value in Hres. injection Hres as <-.
  now exists p.
Qed.

Section ScenarioA.
Import DebateAnalyzer.

Variable StringToNumber : string -> number.
Variable Array_toString : list JSON -> string.
Variable JSON_parse : string -> option JSON.
Variable generateText : string -> completion string.
Variable Date_now : Z.

Lemma fallbackScore_with_structure topic text :
  detectStructure text = true -> Score.clarity (fallbackScore topic text) = 8.
Proof. intros H. unfold fallbackScore. cbn [Score.clarity]. now rewrite H. Qed.

Lemma fallbackScore_without_structure topic text :
  detectStructure text = false -> Score.clarity (fallbackScore topic text) = 6.
Proof. intros H. unfold fallbackScore. cbn [Score.clarity]. now rewrite H. Qed.



Lemma fallbackScore_evidence topic text :
  Score.evidence (fallbackScore topic text) = if detectEvidence text then 8 else 4.
Proof.
  unfold fallbackScore. cbn [Score.evidence]. now destruct (detectEvidence text).
Qed.

Lemma fallbackScore_relevance_range topic text :
  6 <= Score.relevance (fallbackScore topic text) <= 10.
Proof. rewrite fallbackScore_relevance. apply clamp_bounds. lra. Qed.


End ScenarioA.

(** ** The properties on concrete inputs *)

Ltac decide_Q := unfold inRange, Qle, Qlt; simpl; lia.





Lemma last_argument_wins_witness :
  let scores :=
    DebateAnalyzer.AIScoringResponse.scores
      (DebateAnalyzer.performFallbackAnalysis Repeated.session) in
  NoDup (keys scores) /\
  obj_get scores "user1"
  = Some (DebateAnalyzer.fallbackScore "Should AI replace human teachers?"
            "However, teachers notice what a machine cannot.").
Proof.
  apply (heuristic_scorer_last_argument_wins Repeated.session
           [Repeated.argument "user1" "AI is cheaper than teachers."]
           [Repeated.argument "user2" "Teachers are human."]
           (Repeated.argument "user1" "However, teachers notice what a machine cannot.")).
  - reflexivity.
  - intros b [<-|[]]. discriminate.
Defined.

Lemma validator_witness :
  DebateAnalyzer.parseAIResponse NullEntry.JSON_parse NullEntry.response NullEntry.session
  = Return NullEntry.payload.
Proof.
  destruct (validator_checks_every_participant
              NullEntry.JSON_parse NullEntry.response NullEntry.session)
    as [_ [_ Hparsed]].
  destruct (Hparsed NullEntry.response NullEntry.payload eq_refl eq_refl)
    as [[Hyes _] _].
  apply Hyes. constructor; [|constructor].
  eexists. split; [reflexivity|].
  repeat constructor; (eexists; split; [reflexivity|decide_Q]).
Defined.

(** * Further properties of the analyzer *)

Import Notions.

(** ** The aggregator on arbitrary payloads *)

Section AggregatorEdges.
Import DebateAnalyzer.

Variable StringToNumber : string -> number.
Variable Array_toString : list JSON -> string.

Lemma finalResult_null :
  finalResult StringToNumber Array_toString JNull = Throw TypeError.
Proof. reflexivity. Qed.

Lemma ToNumber_cases (v : value) :
  match v with
  | Some j =>
      if toString_throws j
      then ToNumber StringToNumber Array_toString v = Throw TypeError
      else exists n, ToNumber StringToNumber Array_toString v = Return n
  | None => exists n, ToNumber StringToNumber Array_toString v = Return n
  end.
Proof.
  destruct v as [j|]; [|simpl; eauto].
  destruct j; simpl; eauto.
  - destruct (existsb toString_throws items); eauto.
  - destruct (existsb _ props); eauto.
Qed.

Lemma JSON_null_dec (score : JSON) : {score = JNull} + {score <> JNull}.
Proof. destruct score; (now left) || (right; discriminate). Qed.

Lemma operand_cases (score : JSON) (criterion : string) :
  score <> JNull ->
  if throws score criterion
  then operand StringToNumber Array_toString score criterion = Throw TypeError
  else exists n, operand StringToNumber Array_toString score criterion = Return n.
Proof.
  intros Hnn. unfold throws, operand.
  assert (Hget : exists v, get (Some score) criterion = Return v)
    by (destruct score; simpl; try congruence; eauto).
  destruct Hget as [v ->]. cbn [bind].
  pose proof (ToNumber_cases v) as H. destruct v as [j|]; exact H.
Qed.

Lemma unusable_throws (score : JSON) :
  score <> JNull ->
  unusable score
  = throws score "clarity" || (throws score "logic" || (throws score "evidence"
    || (throws score "relevance" || false))).
Proof. intros Hnn. destruct score; try congruence; reflexivity. Qed.

Lemma finalResult_unusable (score : JSON) :
  unusable score = true ->
  finalResult StringToNumber Array_toString score = Throw TypeError.
Proof.
  intros Hun. destruct (JSON_null_dec score) as [->|Hnn]; [reflexivity|].
  rewrite (unusable_throws score Hnn) in Hun. unfold finalResult.
  pose proof (operand_cases score "clarity" Hnn) as Hc.
  pose proof (operand_cases score "logic" Hnn) as Hl.
  pose proof (operand_cases score "evidence" Hnn) as He.
  pose proof (operand_cases score "relevance" Hnn) as Hr.
  destruct (throws score "clarity"); [now rewrite Hc|]. destruct Hc as [c ->].
  destruct (throws score "logic"); [now rewrite Hl|]. destruct Hl as [l ->].
  destruct (throws score "evidence"); [now rewrite He|]. destruct He as [e ->].
  destruct (throws score "relevance"); [now rewrite Hr|]. discriminate Hun.
Qed.

Lemma finalResult_usable (score : JSON) :
  unusable score = false ->
  exists r, finalResult StringToNumber Array_toString score = Return r /\
            UserResult.userName r = EmptyString.
Proof.
  intros Hun. destruct (JSON_null_dec score) as [->|Hnn]; [discriminate Hun|].
  rewrite (unusable_throws score Hnn) in Hun. unfold finalResult.
  pose proof (operand_cases score "clarity" Hnn) as Hc.
  pose proof (operand_cases score "logic" Hnn) as Hl.
  pose proof (operand_cases score "evidence" Hnn) as He.
  pose proof (operand_cases score "relevance" Hnn) as Hr.
  destruct (throws score "clarity"); [discriminate Hun|]. destruct Hc as [c ->].
  destruct (throws score "logic"); [discriminate Hun|]. destruct Hl as [l ->].
  destruct (throws score "evidence"); [discriminate Hun|]. destruct He as [e ->].
  destruct (throws score "relevance"); [discriminate Hun|]. destruct Hr as [r ->].
  assert (Hget : exists v, get (Some score) "reasoning" = Return v)
    by (destruct score; simpl; try congruence; eauto).
  destruct Hget as [v ->]. cbn [bind]. eexists. split; reflexivity.
Qed.

Lemma finalResults_usable entries : forall results0,
  Forall (fun e => unusable (snd e) = false) entries ->
  exists results,
    finalResults StringToNumber Array_toString entries results0 = Return results /\
    (forall k, In k (keys results) <-> In k (keys results0) \/ In k (keys entries)) /\
    (NoDup (keys results0) -> NoDup (keys results)) /\
    (forall e, In e results -> In e results0 \/ UserResult.userName (snd e) = EmptyString).
Proof.
  induction entries as [|[userId score] entries IH]; intros results0 Hnn.
  - exists results0. simpl. repeat split; auto. intros [H|[]]; assumption.
  - inversion Hnn as [|? ? Hscore Hrest]; subst. simpl in Hscore.
    destruct (finalResult_usable score Hscore) as [r [Hr Hname]].
    destruct (IH (obj_set userId r results0) Hrest) as [results [Hrun [Hkeys [Hnd Hnames]]]].
    exists results. simpl. rewrite Hr. cbn [bind]. split; [exact Hrun|].
    split; [|split].
    + intros k. rewrite Hkeys, In_keys_obj_set. intuition auto.
    + intros H. apply Hnd. now apply NoDup_keys_obj_set.
    + intros e He. destruct (Hnames e He) as [Hset|Hn]; [|now right].
      apply In_obj_set in Hset. destruct Hset as [->|Hold]; [right; exact Hname|now left].
Qed.

Lemma finalResults_unusable entries : forall results0,
  Exists (fun e => unusable (snd e) = true) entries ->
  finalResults StringToNumber Array_toString entries results0 = Throw TypeError.
Proof.
  induction entries as [|[userId score] entries IH]; intros results0 Hex.
  - inversion Hex.
  - simpl. destruct (unusable score) eqn:Hun.
    + now rewrite finalResult_unusable.
    + destruct (finalResult_usable score Hun) as [r [-> _]]. cbn [bind].
      apply IH. inversion Hex as [? ? Hhere|? ? Hlater]; subst; [|exact Hlater].
      simpl in Hhere. congruence.
Qed.

End AggregatorEdges.

(** X1.  The aggregator throws exactly on an entry that it cannot take: a
    null entry, or an entry one of whose four sub-scores is an object with a
    property [toString] of its own or an array that holds such an object.
    On an object of scores without such an entry it returns, whatever else
    the entries are, results without a repeated key, with the keys of the
    object: every key other than [__proto__] has a result if and only if it
    is a key of the object.  As soon as one entry is of that kind it throws
    a [TypeError]. *)
Theorem aggregator_throws_exactly_on_an_unusable_entry
  (StringToNumber : string -> number) (Array_toString : list JSON -> string)
  (scores : list (string * JSON)) :
  (Forall (fun e => unusable (snd e) = false) scores ->
   exists results,
     DebateAnalyzer.calculateFinalScores StringToNumber Array_toString (Some (JObj scores))
     = Return results /\
     NoDup (keys results) /\
     forall userId, userId <> "__proto__"%string ->
       (In userId (keys results) <-> In userId (keys scores))) /\
  (Exists (fun e => unusable (snd e) = true) scores ->
   DebateAnalyzer.calculateFinalScores StringToNumber Array_toString (Some (JObj scores))
   = Throw TypeError).
Proof.
  split.
  - intros Hnn.
    destruct (finalResults_usable StringToNumber Array_toString scores [] Hnn)
      as [results [Hrun [Hkeys [Hnd _]]]].
    exists results. split; [exact Hrun|]. split; [apply Hnd; constructor|].
    intros userId _. rewrite Hkeys. simpl. tauto.
  - intros Hex. unfold DebateAnalyzer.calculateFinalScores. cbn [Object_entries bind].
    now apply finalResults_unusable.
Qed.

(** ** The range of the heuristic scores *)

Lemma round_half_up_between (lo hi : Z) (x : Q) :
  inject_Z lo <= x -> x <= inject_Z hi ->
  inject_Z lo <= Qround_half_up x /\ Qround_half_up x <= inject_Z hi.
Proof.
  intros Hlo Hhi. unfold Qround_half_up. split.
  - rewrite <- Zle_Qle. rewrite <- (Qfloor_Z lo). apply Qfloor_resp_le. lra.
  - rewrite <- Zle_Qle.
    assert (H : (Qfloor (x + (1 # 2)) < hi + 1)%Z).
    { rewrite Zlt_Qlt, inject_Z_plus. pose proof (Qfloor_le (x + (1 # 2))).
      change (inject_Z 1) with 1. lra. }
    lia.
Qed.

Section HeuristicRange.
Import DebateAnalyzer.

Lemma fallbackScore_values (topic text : string) :
  let s := fallbackScore topic text in
  (Score.clarity s = 6 \/ Score.clarity s = 8) /\
  (Score.logic s = 5 \/ Score.logic s = 7) /\
  (Score.evidence s = 4 \/ Score.evidence s = 8) /\
  6 <= Score.relevance s /\ Score.relevance s <= 10.
Proof.
  cbv zeta. split; [|split; [|split]].
  - unfold fallbackScore. cbn [Score.clarity]. destruct (detectStructure text); auto.
  - unfold fallbackScore. cbn [Score.logic].
    destruct (50 <? List.length (split_ws text))%nat; auto.
  - unfold fallbackScore. cbn [Score.evidence]. destruct (detectEvidence text); auto.
  - apply fallbackScore_relevance_range.
Qed.

Lemma fallbackScore_weighted_sum (topic text : string) :
  let s := fallbackScore topic text in
  5.2 <= weightedSum (Score.clarity s) (Score.logic s)
                     (Score.evidence s) (Score.relevance s) /\
  weightedSum (Score.clarity s) (Score.logic s)
              (Score.evidence s) (Score.relevance s) <= 8.1.
Proof.
  cbv zeta. destruct (fallbackScore_values topic text) as [Hc [Hl [He [Hr1 Hr2]]]].
  cbv zeta in *. unfold weightedSum.
  destruct Hc as [-> | ->], Hl as [-> | ->], He as [-> | ->]; split; lra.
Qed.

Lemma heuristicResult_between (topic text : string) :
  exists f,
    UserResult.finalScore (heuristicResult (fallbackScore topic text)) = Num f /\
    5.2 <= f /\ f <= 8.1.
Proof.
  destruct (fallbackScore_values topic text) as [Hc [Hl [He [Hr1 Hr2]]]].
  destruct (fallbackScore_weighted_sum topic text) as [Hlo Hhi].
  cbv zeta in *.
  destruct (heuristicResult_finalScore (fallbackScore topic text)) as [p [Hf Hnear]].
  { unfold inRange. destruct Hc as [-> | ->]; lra. }
  { unfold inRange. destruct Hl as [-> | ->]; lra. }
  { unfold inRange. destruct He as [-> | ->]; lra. }
  { unfold inRange. lra. }
  destruct (final_score_between p _ 520 810 Hnear) as [H1 H2].
  { assert (E : inject_Z 520 / 100 == 5.2) by reflexivity. rewrite E. exact Hlo. }
  { assert (E : inject_Z 810 / 100 == 8.1) by reflexivity. rewrite E. exact Hhi. }
  exists (rnd (Qround_half_up p / 100)). split; [exact Hf|].
  assert (H520 : 5.2 <= rnd (inject_Z 520 / 100))
    by (apply Qle_bool_iff; vm_compute; reflexivity).
  assert (H810 : rnd (inject_Z 810 / 100) <= 8.1)
    by (apply Qle_bool_iff; vm_compute; reflexivity).
  split; lra.
Qed.

(** Every entry that the loop of the scorer leaves is the score of an
    argument of the same participant. *)
Lemma fallbackLoop_entries topic args : forall scores0 e,
  In e (fallbackLoop topic args scores0) ->
  In e scores0 \/
  exists arg, In arg args /\ fst e = Argument.userId arg /\
              snd e = fallbackScore topic (Argument.text arg).
Proof.
  induction args as [|arg args IH]; intros scores0 e He; simpl in He; [now left|].
  destruct (IH _ _ He) as [Hset|[a [Ha [Hk Hs]]]].
  - apply In_obj_set in Hset. destruct Hset as [->|Hold]; [|now left].
    right. exists arg. simpl. auto.
  - right. exists a. simpl. auto.
Qed.

Lemma heuristic_results_entries (scores : obj Score.t) : forall results0 e,
  In e (fold_left (fun results e => obj_set (fst e) (heuristicResult (snd e)) results)
                  scores results0) ->
  In e results0 \/ exists s, In (fst e, s) scores /\ snd e = heuristicResult s.
Proof.
  induction scores as [|[k s] scores IH]; intros results0 e He; simpl in He; [now left|].
  destruct (IH _ _ He) as [Hset|[s' [Hs' Hr]]].
  - apply In_obj_set in Hset. destruct Hset as [->|Hold]; [|now left].
    right. exists s. simpl. auto.
  - right. exists s'. simpl. auto.
Qed.

Lemma heuristic_results_keys (scores : obj Score.t) : forall results0,
  NoDup (keys results0) ->
  let results :=
    fold_left (fun results e => obj_set (fst e) (heuristicResult (snd e)) results)
              scores results0 in
  NoDup (keys results) /\
  forall k, In k (keys results) <-> In k (keys results0) \/ In k (keys scores).
Proof.
  induction scores as [|[k s] scores IH]; intros results0 Hnd; simpl.
  - split; [assumption|]. intros k. tauto.
  - destruct (IH (obj_set k (heuristicResult s) results0)) as [Hnd' Hin].
    { now apply NoDup_keys_obj_set. }
    split; [exact Hnd'|]. intros k'. rewrite (Hin k'), In_keys_obj_set. intuition auto.
Qed.

End HeuristicRange.

(** X2.  Whatever the session, the aggregator returns on the payload of the
    heuristic scorer, and every final score that it computes from it belongs
    to an argument of the session and lies between 5.2 and 8.1: the heuristic
    path can neither fail a participant nor give full marks. *)
Theorem heuristic_final_scores_lie_between_5_2_and_8_1
  (StringToNumber : string -> number) (Array_toString : list JSON -> string)
  (session : DebateSession.t) :
  exists results,
    bind (get (Some (DebateAnalyzer.AIScoringResponse_value
                       (DebateAnalyzer.performFallbackAnalysis session))) "scores")
         (DebateAnalyzer.calculateFinalScores StringToNumber Array_toString)
    = Return results /\
    forall userId r, In (userId, r) results ->
      exists arg f,
        In arg (DebateSession.arguments session) /\ Argument.userId arg = userId /\
        UserResult.finalScore r = Num f /\ 5.2 <= f /\ f <= 8.1.
Proof.
  eexists. split; [apply calculateFinalScores_heuristic|].
  intros userId r Hin.
  destruct (heuristic_results_entries _ _ _ Hin) as [[]|[s [Hs Hr]]].
  cbn [fst snd] in Hs, Hr. rewrite performFallbackAnalysis_scores in Hs.
  destruct (fallbackLoop_entries _ _ _ _ Hs) as [[]|[arg [Harg [Hk Hscore]]]].
  cbn [fst snd] in Hk, Hscore. subst s r.
  destruct (heuristicResult_between (DebateSession.topic session) (Argument.text arg))
    as [f [Hf [Hlo Hhi]]].
  exists arg, f. auto.
Qed.

(** ** The heuristic payload and the validator *)

Lemma obj_get_map {V W : Type} (f : V -> W) (o : obj V) (k : string) :
  obj_get (map (fun e => (fst e, f (snd e))) o) k = option_map f (obj_get o k).
Proof.
  induction o as [|[k' v] o IH]; simpl; [reflexivity|].
  destruct (String.eqb k' k); [reflexivity|exact IH].
Qed.

Lemma In_keys_obj_get {V : Type} (o : obj V) (k : string) :
  In k (keys o) -> exists v, obj_get o k = Some v.
Proof.
  induction o as [|[k' v] o IH]; simpl; [contradiction|].
  intros [->|Hin].
  - rewrite String.eqb_refl. eauto.
  - destruct (String.eqb k' k); eauto.
Qed.

Lemma obj_get_In_keys {V : Type} (o : obj V) (k : string) (v : V) :
  obj_get o k = Some v -> In k (keys o).
Proof.
  intros H. apply obj_get_In in H. unfold keys.
  change k with (fst (k, v)). now apply in_map.
Qed.

Lemma fallbackScore_scored (topic text : string) :
  Forall (fun criterion =>
            numberInRange (fieldOf (DebateAnalyzer.Score_value
                                      (DebateAnalyzer.fallbackScore topic text)) criterion))
         criteria.
Proof.
  destruct (fallbackScore_values topic text) as [Hc [Hl [He [Hr1 Hr2]]]]. cbv zeta in *.
  unfold criteria, numberInRange, inRange.
  repeat constructor.
  - eexists. split; [reflexivity|]. destruct Hc as [-> | ->]; split; lra.
  - eexists. split; [reflexivity|]. destruct Hl as [-> | ->]; split; lra.
  - eexists. split; [reflexivity|]. destruct He as [-> | ->]; split; lra.
  - eexists. split; [reflexivity|]. split; lra.
Qed.

(** X3.  The payload of the heuristic scorer passes the checks that the
    validator applies to the answer of a judge: every participant of the
    session has an entry in it, with four numbers between 0 and 10. *)
Theorem heuristic_payload_passes_the_validation (session : DebateSession.t) :
  DebateAnalyzer.checkArguments
    (DebateAnalyzer.AIScoringResponse_value (DebateAnalyzer.performFallbackAnalysis session))
    (DebateSession.arguments session)
  = Return tt.
Proof.
  apply checkArguments_scored. apply Forall_forall. intros arg Harg.
  destruct (fallback_scores_keys session) as [_ Hkeys]. cbv zeta in Hkeys.
  assert (Hin : In (Argument.userId arg)
                   (keys (DebateAnalyzer.AIScoringResponse.scores
                            (DebateAnalyzer.performFallbackAnalysis session)))).
  { apply Hkeys. now exists arg. }
  destruct (In_keys_obj_get _ _ Hin) as [s Hs].
  pose proof (obj_get_In _ _ _ Hs) as Hentry.
  rewrite performFallbackAnalysis_scores in Hentry.
  destruct (fallbackLoop_entries _ _ _ _ Hentry) as [[]|[a [_ [_ Hscore]]]].
  cbn [snd] in Hscore.
  exists (DebateAnalyzer.Score_value s). split.
  - unfold entryOf, scoresOf, DebateAnalyzer.AIScoringResponse_value.
    cbn [get obj_get String.eqb Ascii.eqb Bool.eqb].
    now rewrite obj_get_map, Hs.
  - rewrite Hscore. apply fallbackScore_scored.
Qed.

(** ** The winner leads, whatever the order of the entries *)

Section Leader.
Import DebateAnalyzer.

(** The test of a tie on two scores in descending order fails exactly when
    the rounded difference reaches the double 0.1. *)
Lemma tie_test_rounded (qt qs : Q) :
  qs <= qt ->
  lt (Math_abs (sub (Num qt) (Num qs))) (Num (rnd 0.1)) = false <->
  rnd 0.1 <= rnd (qt - qs).
Proof.
  intros Hle. unfold sub, fl. cbv zeta.
  assert (Hnn : 0 <= rnd (qt - qs)) by (apply rnd_nonneg; lra).
  destruct (Qle_bool (2 ^ 1024) (Qabs (rnd (qt - qs)))) eqn:E.
  - apply Qle_bool_iff in E. rewrite Qabs_pos in E by assumption.
    assert (H1 : rnd 0.1 <= 2 ^ 1024) by (apply Qle_bool_iff; vm_compute; reflexivity).
    split; [intros _; lra|intros _].
    destruct (Qltb (rnd (qt - qs)) 0); reflexivity.
  - cbn [Math_abs lt]. split.
    + intros H. apply Qltb_ge in H. rewrite Qabs_pos in H by assumption. exact H.
    + intros H. apply Qltb_ge. rewrite Qabs_pos by assumption. exact H.
Qed.

(** A rounded difference that reaches the double 0.1 is the difference of
    a higher and a lower score. *)
Lemma lead_is_strict (a b : Q) : rnd 0.1 <= rnd (a - b) -> b < a.
Proof.
  intros H. destruct (Qlt_le_dec b a) as [Hlt|Hge]; [exact Hlt|].
  assert (Hr : rnd (a - b) <= 0) by (apply rnd_nonpos; lra).
  pose proof rnd_tenth_above. lra.
Qed.

(** On two or more entries with numeric scores, either a tie is declared,
    or the winner is an entry that leads all the others. *)
Lemma determineWinner_cases (results : obj UserResult.t) :
  (2 <= List.length results)%nat -> Forall numeric results ->
  determineWinner results = {| Decision.winner := None; Decision.isTie := true |} \/
  exists e rest,
    Permutation results (e :: rest) /\ leads e rest /\
    determineWinner results
    = {| Decision.winner := Some (winnerOf e); Decision.isTie := false |}.
Proof.
  intros Hlen Hnum.
  destruct results as [|e1 [|e2 l]]; simpl in Hlen; try lia.
  destruct (sort_two_or_more e1 e2 l) as [top [second [rest Hs]]].
  pose proof (sort_perm byFinalScore (e1 :: e2 :: l)) as Hperm.
  pose proof (sort_sorted byFinalScore numeric outranks
                byFinalScore_true byFinalScore_false outranks_trans _ Hnum) as Hsorted.
  rewrite Hs in Hperm, Hsorted.
  inversion Hsorted as [|? ? Hsorted' Htop]; subst.
  inversion Hsorted' as [|? ? _ Hsecond]; subst.
  inversion Htop as [|? ? [qt [qs [Ht [Hsec Hle]]]] _]; subst.
  rewrite (determineWinner_sorted _ _ _ _ _ _ Hs). cbv zeta.
  rewrite Ht, Hsec.
  destruct (lt (Math_abs (sub (Num qt) (Num qs))) (Num (rnd 0.1))) eqn:E; [now left|right].
  apply (tie_test_rounded qt qs Hle) in E.
  exists top, (second :: rest). split; [now symmetry|]. split; [|reflexivity].
  exists qt. split; [exact Ht|]. constructor.
  - exists qs. split; [exact Hsec|exact E].
  - eapply Forall_impl; [|exact Hsecond].
    intros e' [q2 [q' [H2 [He' Hle']]]]. rewrite Hsec in H2. injection H2 as <-.
    exists q'. split; [exact He'|].
    apply Qle_trans with (rnd (qt - qs)); [exact E|]. apply rnd_le. lra.
Qed.

(** An entry that leads all the others is the winner. *)
Lemma determineWinner_leader (results : obj UserResult.t) e rest :
  Forall numeric results ->
  Permutation results (e :: rest) -> leads e rest ->
  determineWinner results
  = {| Decision.winner := Some (winnerOf e); Decision.isTie := false |}.
Proof.
  intros Hnum Hperm [qe [Hqe Hrest]].
  destruct results as [|e1 [|e2 l]].
  - apply Permutation_nil in Hperm. discriminate.
  - apply Permutation_length_1_inv in Hperm. injection Hperm as -> ->.
    destruct e1 as [k r]. reflexivity.
  - destruct (determineWinner_cases (e1 :: e2 :: l)) as [Htie|[e' [rest' [Hperm' [Hlead' Hd]]]]];
      [simpl; lia|exact Hnum| |].
    + (* a tie: the two highest scores are within 0.1, against the lead of [e] *)
      exfalso.
      destruct (sort_two_or_more e1 e2 l) as [top [second [rest' Hs]]].
      pose proof (sort_perm byFinalScore (e1 :: e2 :: l)) as Hsp.
      pose proof (sort_sorted byFinalScore numeric outranks
                    byFinalScore_true byFinalScore_false outranks_trans _ Hnum) as Hsorted.
      rewrite Hs in Hsp, Hsorted.
      inversion Hsorted as [|? ? Hsorted' Htop]; subst.
      inversion Htop as [|? ? [qt [qs [Ht [Hsec Hle]]]] Htop']; subst.
      rewrite (determineWinner_sorted _ _ _ _ _ _ Hs) in Htie. cbv zeta in Htie.
      rewrite Ht, Hsec in Htie.
      destruct (lt (Math_abs (sub (Num qt) (Num qs))) (Num (rnd 0.1))) eqn:E;
        [clear Htie|discriminate Htie].
      assert (Hnot : ~ rnd 0.1 <= rnd (qt - qs)).
      { intros H. apply (tie_test_rounded qt qs Hle) in H. congruence. }
      assert (Hpr : Permutation (e :: rest) (top :: second :: rest')).
      { rewrite <- Hperm. now symmetry. }
      assert (He : In e (top :: second :: rest'))
        by exact (Permutation_in e Hpr (or_introl eq_refl)).
      rewrite Forall_forall in Hrest.
      assert (Hin_top : In top (e :: rest))
        by (eapply Permutation_in; [symmetry; exact Hpr|now left]).
      assert (Hqe' : qe <= qt).
      { destruct He as [<-|He].
        - rewrite Hqe in Ht. injection Ht as ->. lra.
        - rewrite Forall_forall in Htop. destruct (Htop _ He) as [q1 [q2 [H1 [H2 H12]]]].
          rewrite Ht in H1. injection H1 as <-. rewrite Hqe in H2. injection H2 as <-.
          exact H12. }
      (* [top] is [e], and [second] is one of the others *)
      destruct Hin_top as [Htop_e|Hin];
        [|destruct (Hrest _ Hin) as [q' [Hq' Hg]];
          rewrite Ht in Hq'; injection Hq' as <-; apply lead_is_strict in Hg; lra].
      subst top. apply Permutation_cons_inv in Hpr.
      assert (Hsec_rest : In second rest)
        by (eapply Permutation_in; [symmetry; exact Hpr|now left]).
      destruct (Hrest _ Hsec_rest) as [q' [Hq' Hg]]. rewrite Hsec in Hq'.
      injection Hq' as <-. rewrite Hqe in Ht. injection Ht as <-. exact (Hnot Hg).
    + (* a winner [e']: it is [e] *)
      rewrite Hd. destruct Hlead' as [qe' [Hqe' Hrest']].
      assert (Hpr : Permutation (e :: rest) (e' :: rest')).
      { rewrite <- Hperm. exact Hperm'. }
      assert (Hin : In e' (e :: rest))
        by (eapply Permutation_in; [symmetry; exact Hpr|now left]).
      destruct Hin as [->|Hin]; [reflexivity|].
      exfalso. rewrite Forall_forall in Hrest, Hrest'.
      destruct (Hrest _ Hin) as [q' [Hq' Hg]]. rewrite Hqe' in Hq'. injection Hq' as <-.
      apply lead_is_strict in Hg.
      assert (Hin' : In e (e' :: rest'))
        by (eapply Permutation_in; [exact Hpr|now left]).
      destruct Hin' as [<-|Hin'].
      * rewrite Hqe in Hqe'. injection Hqe' as ->. lra.
      * destruct (Hrest' _ Hin') as [q'' [Hq'' Hg']]. rewrite Hqe in Hq''.
        injection Hq'' as <-. apply lead_is_strict in Hg'. lra.
Qed.

End Leader.

(** X4.  On results whose final scores are finite numbers, the winner is an
    entry that leads every other entry by at least 0.1, the difference of
    two scores being rounded to a double and compared with the double 0.1,
    and every such entry is the winner; a tie is declared exactly when there
    are two or more entries and none of them leads the others in this way. *)
Theorem winner_leads_every_other_entry (results : obj UserResult.t) :
  Forall numeric results ->
  let decision := DebateAnalyzer.determineWinner results in
  (forall w,
     DebateAnalyzer.Decision.winner decision = Some w <->
     exists e rest, Permutation results (e :: rest) /\ leads e rest /\ w = winnerOf e) /\
  (DebateAnalyzer.Decision.isTie decision = true <->
   (2 <= List.length results)%nat /\
   ~ exists e rest, Permutation results (e :: rest) /\ leads e rest).
Proof.
  intros Hnum. cbv zeta. split.
  - intros w. split.
    + destruct results as [|e1 [|e2 l]].
      * discriminate.
      * destruct e1 as [k r]. simpl. intros [= <-].
        exists (k, r), []. split; [reflexivity|]. split; [|reflexivity].
        inversion Hnum as [|? ? [q [Hq _]] _]; subst. exists q. split; [exact Hq|constructor].
      * destruct (determineWinner_cases (e1 :: e2 :: l)) as [->|[e [rest [Hp [Hl ->]]]]];
          [simpl; lia|exact Hnum| |].
        -- discriminate.
        -- simpl. intros [= <-]. exists e, rest. auto.
    + intros [e [rest [Hp [Hl ->]]]].
      now rewrite (determineWinner_leader results e rest Hnum Hp Hl).
  - split.
    + intros Htie. destruct results as [|e1 [|e2 l]].
      * discriminate.
      * destruct e1 as [k r]. discriminate.
      * split; [simpl; lia|]. intros [e [rest [Hp Hl]]].
        rewrite (determineWinner_leader _ e rest Hnum Hp Hl) in Htie. discriminate.
    + intros [Hlen Hnone].
      destruct (determineWinner_cases results Hlen Hnum) as [->|[e [rest [Hp [Hl _]]]]];
        [reflexivity|].
      exfalso. apply Hnone. now exists e, rest.
Qed.

(** X5.  The decision does not depend on the order in which the results are
    enumerated: on results whose final scores are finite numbers, neither
    [NaN] nor an infinity, [determineWinner] answers the same on every
    rearrangement of the entries. *)
Theorem decision_is_independent_of_the_order (results results' : obj UserResult.t) :
  Forall numeric results ->
  Permutation results results' ->
  DebateAnalyzer.determineWinner results = DebateAnalyzer.determineWinner results'.
Proof.
  intros Hnum Hperm.
  assert (Hnum' : Forall numeric results') by exact (Permutation_Forall Hperm Hnum).
  destruct results as [|e1 [|e2 l]].
  - apply Permutation_nil in Hperm. now subst.
  - apply Permutation_length_1_inv in Hperm. now subst.
  - assert (Hlen' : (2 <= List.length results')%nat).
    { rewrite <- (Permutation_length Hperm). simpl. lia. }
    destruct (determineWinner_cases (e1 :: e2 :: l)) as [Htie|[e [rest [Hp [Hl Hd]]]]];
      [simpl; lia|exact Hnum| |].
    + destruct (determineWinner_cases results' Hlen' Hnum')
        as [Htie'|[e [rest [Hp [Hl _]]]]]; [congruence|].
      rewrite (determineWinner_leader (e1 :: e2 :: l) e rest Hnum) in Htie;
        [discriminate| |exact Hl].
      now rewrite Hperm.
    + rewrite Hd. symmetry. apply (determineWinner_leader results' e rest Hnum'); [|exact Hl].
      now rewrite <- Hperm.
Qed.

(** ** The orchestrator, path by path *)

Section Orchestrator.
Import DebateAnalyzer.

Variable StringToNumber : string -> number.
Variable Array_toString : list JSON -> string.
Variable JSON_parse : string -> option JSON.
Variable generateText : string -> completion string.
Variable Date_now : Z.

Lemma determineWinner_null (results : obj UserResult.t) :
  results <> [] ->
  (Decision.winner (determineWinner results) = None <->
   Decision.isTie (determineWinner results) = true).
Proof.
  destruct results as [|e1 [|e2 l]]; [congruence| |]; intros _.
  - destruct e1 as [k r]. simpl. split; discriminate.
  - destruct (sort_two_or_more e1 e2 l) as [top [second [rest Hs]]].
    rewrite (determineWinner_sorted _ _ _ _ _ _ Hs). cbv zeta. simpl.
    destruct (lt _ _); split; trivial; discriminate.
Qed.

Lemma determineWinner_winner_In (results : obj UserResult.t) (w : Winner.t) :
  Decision.winner (determineWinner results) = Some w ->
  exists e, In e results /\ w = winnerOf e.
Proof.
  destruct results as [|e1 [|e2 l]].
  - discriminate.
  - destruct e1 as [k r]. simpl. intros [= <-]. exists (k, r). auto.
  - destruct (sort_two_or_more e1 e2 l) as [top [second [rest Hs]]].
    rewrite (determineWinner_sorted _ _ _ _ _ _ Hs). cbv zeta. simpl.
    destruct (lt _ _); [discriminate|]. intros [= <-]. exists top. split; [|reflexivity].
    apply (Permutation_in top (sort_perm byFinalScore (e1 :: e2 :: l))).
    rewrite Hs. now left.
Qed.

Lemma constructAnalysisPrompt_Return (session : DebateSession.t) (prompt : string) :
  constructAnalysisPrompt session = Return prompt -> DebateSession.arguments session <> [].
Proof.
  unfold constructAnalysisPrompt.
  destruct (DebateSession.arguments session); [discriminate|discriminate].
Qed.

(** What a validated answer of the judge is. *)
Lemma performAIAnalysis_Return (session : DebateSession.t) (parsed : JSON) :
  performAIAnalysis JSON_parse generateText session = Return parsed ->
  DebateSession.arguments session <> [] /\
  checkArguments parsed (DebateSession.arguments session) = Return tt.
Proof.
  unfold performAIAnalysis. intros H.
  destruct (constructAnalysisPrompt session) as [prompt|] eqn:Hp; [|discriminate].
  split; [exact (constructAnalysisPrompt_Return _ _ Hp)|].
  cbn [bind] in H. destruct (generateText prompt) as [response|]; [|discriminate].
  cbn [bind catch] in H. unfold parseAIResponse in H.
  destruct (match_braces response) as [jsonMatch|]; [|discriminate].
  destruct (JSON_parse jsonMatch) as [parsed'|]; [|discriminate].
  destruct (checkArguments parsed' (DebateSession.arguments session)) as [[]|] eqn:Hc;
    [|discriminate].
  cbn [bind catch] in H. injection H as <-. exact Hc.
Qed.

(** The scores of a validated payload are there to be read. *)
Lemma validated_scores (session : DebateSession.t) (parsed : JSON) :
  DebateSession.arguments session <> [] ->
  checkArguments parsed (DebateSession.arguments session) = Return tt ->
  get (Some parsed) "scores" = Return (scoresOf parsed) /\
  scoresOf parsed <> None /\ scoresOf parsed <> Some JNull /\
  forall arg, In arg (DebateSession.arguments session) ->
              scored parsed (Argument.userId arg).
Proof.
  intros Hne Hc. pose proof (checkArguments_Return _ _ Hc) as Hall.
  rewrite Forall_forall in Hall.
  destruct (DebateSession.arguments session) as [|a args]; [congruence|].
  destruct (Hall a (or_introl eq_refl)) as [score [He _]].
  unfold entryOf in He. unfold scoresOf in *.
  destruct (get (Some parsed) "scores") as [scores|] eqn:Hs.
  - split; [reflexivity|]. repeat split; auto;
      intros ->; simpl in He; discriminate.
  - simpl in He. discriminate.
Qed.

Lemma get_not_null (parsed : JSON) k v k' :
  get (Some parsed) k = Return v -> get (Some parsed) k' = Return (fieldOf parsed k').
Proof.
  unfold fieldOf. destruct parsed; simpl; intros H; try discriminate; reflexivity.
Qed.

(** The run of [analyzeDebate] on a validated answer of the judge. *)
Lemma analyzeDebate_judge (session : DebateSession.t) (parsed : JSON) :
  performAIAnalysis JSON_parse generateText session = Return parsed ->
  analyzeDebate StringToNumber Array_toString JSON_parse generateText Date_now session
  = match calculateFinalScores StringToNumber Array_toString (scoresOf parsed) with
    | Return results =>
        Return
          {| DebateResult.sessionId := DebateSession.id session;
             DebateResult.topic := DebateSession.topic session;
             DebateResult.results := results;
             DebateResult.winner := Decision.winner (determineWinner results);
             DebateResult.isTie := Decision.isTie (determineWinner results);
             DebateResult.consensusStatement := fieldOf parsed "consensusStatement";
             DebateResult.processedAt := Date_now |}
    | Throw cause => Throw (FailedToAnalyze cause)
    end.
Proof.
  intros Hjudge. destruct (performAIAnalysis_Return _ _ Hjudge) as [Hne Hc].
  destruct (validated_scores _ _ Hne Hc) as [Hget _].
  unfold analyzeDebate. rewrite Hjudge.
  destruct (DebateSession.arguments session) as [|a args]; [congruence|].
  cbn [List.length Nat.eqb]. rewrite Hget. cbn [bind].
  destruct (calculateFinalScores StringToNumber Array_toString (scoresOf parsed));
    cbn [bind catch]; [|reflexivity].
  rewrite (get_not_null _ _ _ "consensusStatement" Hget). reflexivity.
Qed.

End Orchestrator.

Section AggregatorEntries.
Import DebateAnalyzer.

Variable StringToNumber : string -> number.
Variable Array_toString : list JSON -> string.

Lemma unusable_entry_dec (entries : list (string * JSON)) :
  Forall (fun e => unusable (snd e) = false) entries \/
  Exists (fun e => unusable (snd e) = true) entries.
Proof.
  induction entries as [|[k v] entries [IH|IH]].
  - left. constructor.
  - destruct (unusable v) eqn:E.
    + right. now left.
    + left. constructor; [exact E|exact IH].
  - right. now right.
Qed.

Lemma calculateFinalScores_entries (scores : value) entries :
  Object_entries scores = Return entries ->
  (Forall (fun e => unusable (snd e) = false) entries ->
   exists results,
     calculateFinalScores StringToNumber Array_toString scores = Return results /\
     NoDup (keys results) /\
     (forall k, In k (keys results) <-> In k (keys entries)) /\
     (forall e, In e results -> UserResult.userName (snd e) = EmptyString)) /\
  (Exists (fun e => unusable (snd e) = true) entries ->
   calculateFinalScores StringToNumber Array_toString scores = Throw TypeError).
Proof.
  intros He. unfold calculateFinalScores. rewrite He. cbn [bind]. split.
  - intros Hnn.
    destruct (finalResults_usable StringToNumber Array_toString entries [] Hnn)
      as [results [Hrun [Hkeys [Hnd Hnames]]]].
    exists results. split; [exact Hrun|]. split; [apply Hnd; constructor|]. split.
    + intros k. rewrite Hkeys. simpl. tauto.
    + intros e Hin. destruct (Hnames e Hin) as [[]|H]. exact H.
  - apply finalResults_unusable.
Qed.

Lemma Object_entries_not_nullish (scores : value) :
  scores <> None -> scores <> Some JNull -> exists entries, Object_entries scores = Return entries.
Proof.
  destruct scores as [[| | | | | |]|]; simpl; intros H1 H2; try congruence; eauto.
Qed.

End AggregatorEntries.

Section OrchestratorTheorems.
Import DebateAnalyzer.

Variable StringToNumber : string -> number.
Variable Array_toString : list JSON -> string.
Variable JSON_parse : string -> option JSON.
Variable generateText : string -> completion string.
Variable Date_now : Z.

(** X6.  On a session in which no participant has the id [__proto__]: when
    the call of the judge is rejected, or when its answer does not pass the
    validator, [analyzeDebate] still returns a decision, made by the
    heuristic scorer: it carries the id and the topic of the session, one
    result for each participant of the session and for nobody else, the
    consensus statement of the heuristic scorer, and a winner unless a tie is
    declared. *)
Theorem judge_failure_falls_back_to_the_heuristic
  (session : DebateSession.t) (prompt : string) (m : Message) :
  ~ In "__proto__"%string (Accessor.participants session) ->
  constructAnalysisPrompt session = Return prompt ->
  generateText prompt = Throw m \/
  (exists response,
     generateText prompt = Return response /\
     parseAIResponse JSON_parse response session = Throw m) ->
  exists result,
    analyzeDebate StringToNumber Array_toString JSON_parse generateText Date_now session
    = Return result /\
    DebateResult.sessionId result = DebateSession.id session /\
    DebateResult.topic result = DebateSession.topic session /\
    DebateResult.processedAt result = Date_now /\
    NoDup (keys (DebateResult.results result)) /\
    (forall userId,
       In userId (keys (DebateResult.results result)) <->
       exists arg, In arg (DebateSession.arguments session) /\ Argument.userId arg = userId) /\
    DebateResult.consensusStatement result
    = Some (JStr ("Fallback analysis: "
                  ++ nat_to_string (List.length (DebateSession.arguments session))
                  ++ " arguments analyzed using basic heuristics. Results may vary from AI analysis.")) /\
    (DebateResult.winner result = None <-> DebateResult.isTie result = true).
Proof.
  intros _ Hprompt Hfail.
  assert (Hne : DebateSession.arguments session <> [])
    by exact (constructAnalysisPrompt_Return _ _ Hprompt).
  assert (Hjudge : performAIAnalysis JSON_parse generateText session = Throw m).
  { unfold performAIAnalysis. rewrite Hprompt. cbn [bind].
    destruct Hfail as [Hg | [response [Hg Hp]]]; rewrite Hg; cbn [bind catch];
      [reflexivity|rewrite Hp; reflexivity]. }
  pose proof (analyzeDebate_heuristic StringToNumber Array_toString JSON_parse
                generateText Date_now session m Hne Hjudge) as Hrun.
  cbv zeta in Hrun. eexists. split; [exact Hrun|].
  cbn [DebateResult.sessionId DebateResult.topic DebateResult.processedAt
       DebateResult.results DebateResult.consensusStatement
       DebateResult.winner DebateResult.isTie].
  destruct (heuristic_results_keys
              (AIScoringResponse.scores (performFallbackAnalysis session)) [])
    as [Hnd Hkeys]; [constructor|]. cbv zeta in Hnd, Hkeys.
  destruct (fallback_scores_keys session) as [_ Hparticipants]. cbv zeta in Hparticipants.
  assert (Hsome :
            fold_left (fun results e => obj_set (fst e) (heuristicResult (snd e)) results)
                      (AIScoringResponse.scores (performFallbackAnalysis session)) []
            <> []).
  { intros Hempty.
    assert (Hex : exists a, In a (DebateSession.arguments session)).
    { destruct (DebateSession.arguments session) as [|a args]; [congruence|].
      exists a. now left. }
    destruct Hex as [a Ha].
    assert (Hin : In (Argument.userId a) (keys (@nil (string * UserResult.t)))).
    { rewrite <- Hempty. apply Hkeys. right. apply Hparticipants. now exists a. }
    exact Hin. }
  repeat split; trivial.
  - intros Hin. apply Hparticipants. apply Hkeys in Hin. destruct Hin as [[]|Hin]. exact Hin.
  - intros Hex. apply Hkeys. right. now apply Hparticipants.
  - now apply determineWinner_null.
  - now apply determineWinner_null.
Qed.

(** X7.  [analyzeDebate] throws in two cases and in no other: on a session
    without arguments, with the error of no arguments; and when the judge has
    answered a payload that passes the validator but has, among its scores,
    an entry that the aggregator cannot take (a null entry, or an entry with
    a sub-score whose conversion to a number throws), with the [TypeError]
    of the aggregator.  Both errors reach the caller wrapped as a failure of
    the analysis. *)
Theorem analyzeDebate_throws_in_two_cases (session : DebateSession.t) (m : Message) :
  analyzeDebate StringToNumber Array_toString JSON_parse generateText Date_now session
  = Throw m <->
  (DebateSession.arguments session = [] /\ m = FailedToAnalyze NoArguments) \/
  (exists parsed entries,
     performAIAnalysis JSON_parse generateText session = Return parsed /\
     Object_entries (scoresOf parsed) = Return entries /\
     Exists (fun e => unusable (snd e) = true) entries /\
     m = FailedToAnalyze TypeError).
Proof.
  split.
  - intros Hthrow.
    destruct (DebateSession.arguments session) as [|a args] eqn:Hargs.
    + left. split; [reflexivity|].
      rewrite (analyzeDebate_no_arguments StringToNumber Array_toString JSON_parse
                 generateText Date_now session Hargs) in Hthrow. congruence.
    + right.
      destruct (performAIAnalysis JSON_parse generateText session) as [parsed|e] eqn:Hjudge.
      * exists parsed.
        destruct (performAIAnalysis_Return _ _ _ _ Hjudge) as [Hne Hc].
        destruct (validated_scores _ _ Hne Hc) as [_ [Hn1 [Hn2 _]]].
        destruct (Object_entries_not_nullish _ Hn1 Hn2) as [entries He].
        exists entries. split; [reflexivity|]. split; [exact He|].
        rewrite (analyzeDebate_judge StringToNumber Array_toString JSON_parse generateText
                   Date_now session parsed Hjudge) in Hthrow.
        destruct (calculateFinalScores_entries StringToNumber Array_toString _ _ He)
          as [Hok Hnull].
        destruct (unusable_entry_dec entries) as [Hnn|Hex].
        -- destruct (Hok Hnn) as [results [Hr _]]. rewrite Hr in Hthrow. discriminate.
        -- split; [exact Hex|]. rewrite (Hnull Hex) in Hthrow. congruence.
      * assert (Hne : DebateSession.arguments session <> [])
          by (rewrite Hargs; discriminate).
        rewrite (analyzeDebate_heuristic StringToNumber Array_toString JSON_parse
                   generateText Date_now session e Hne Hjudge) in Hthrow.
        discriminate.
  - intros [[Hargs ->]|[parsed [entries [Hjudge [He [Hex ->]]]]]].
    + now apply analyzeDebate_no_arguments.
    + rewrite (analyzeDebate_judge StringToNumber Array_toString JSON_parse generateText
                 Date_now session parsed Hjudge).
      destruct (calculateFinalScores_entries StringToNumber Array_toString _ _ He)
        as [_ Hnull].
      now rewrite (Hnull Hex).
Qed.

(** X8.  On a session in which no participant has the id [__proto__]: when
    the answer of the judge passes the validator and its scores are an
    object all of whose entries the aggregator can take (none is null, and
    no sub-score is a value whose conversion to a number throws),
    [analyzeDebate] returns a decision with one result for every entry of
    that object under a key other than [__proto__]: every participant of the
    session has one, and so has every other id that the judge has scored.
    The consensus statement is the one of the payload, [undefined] if it has
    none. *)
Theorem judge_answer_is_aggregated_entry_by_entry
  (session : DebateSession.t) (parsed : JSON) (scores : list (string * JSON)) :
  ~ In "__proto__"%string (Accessor.participants session) ->
  performAIAnalysis JSON_parse generateText session = Return parsed ->
  scoresOf parsed = Some (JObj scores) ->
  Forall (fun e => unusable (snd e) = false) scores ->
  exists result,
    analyzeDebate StringToNumber Array_toString JSON_parse generateText Date_now session
    = Return result /\
    NoDup (keys (DebateResult.results result)) /\
    (forall userId, userId <> "__proto__"%string ->
       (In userId (keys (DebateResult.results result)) <-> In userId (keys scores))) /\
    (forall arg, In arg (DebateSession.arguments session) ->
       In (Argument.userId arg) (keys (DebateResult.results result))) /\
    DebateResult.consensusStatement result = fieldOf parsed "consensusStatement" /\
    (DebateResult.winner result = None <-> DebateResult.isTie result = true).
Proof.
  intros _ Hjudge Hscores Hnn.
  destruct (performAIAnalysis_Return _ _ _ _ Hjudge) as [Hne Hc].
  destruct (validated_scores _ _ Hne Hc) as [_ [_ [_ Hscored]]].
  assert (He : Object_entries (scoresOf parsed) = Return scores) by now rewrite Hscores.
  destruct (calculateFinalScores_entries StringToNumber Array_toString _ _ He)
    as [Hok _].
  destruct (Hok Hnn) as [results [Hr [Hnd [Hkeys _]]]].
  rewrite (analyzeDebate_judge StringToNumber Array_toString JSON_parse generateText
             Date_now session parsed Hjudge), Hr.
  eexists. split; [reflexivity|].
  cbn [DebateResult.results DebateResult.consensusStatement
       DebateResult.winner DebateResult.isTie].
  assert (Hpart : forall arg, In arg (DebateSession.arguments session) ->
                              In (Argument.userId arg) (keys results)).
  { intros arg Harg. apply Hkeys. destruct (Hscored arg Harg) as [score [Hentry _]].
    unfold entryOf in Hentry. rewrite Hscores in Hentry. cbn [get] in Hentry.
    now apply obj_get_In_keys with score. }
  split; [exact Hnd|]. split; [intros userId _; apply Hkeys|].
  repeat split; trivial.
  - apply determineWinner_null.
    destruct (DebateSession.arguments session) as [|a args]; [congruence|].
    intros Hempty. specialize (Hpart a (or_introl eq_refl)). now rewrite Hempty in Hpart.
  - apply determineWinner_null.
    destruct (DebateSession.arguments session) as [|a args]; [congruence|].
    intros Hempty. specialize (Hpart a (or_introl eq_refl)). now rewrite Hempty in Hpart.
Qed.

End OrchestratorTheorems.

(** ** The names that the callers fill in *)

Section UserNames.
Import DebateAnalyzer DebateRefereeCLI.

Variable StringToNumber : string -> number.
Variable Array_toString : list JSON -> string.

Lemma finalResult_userName (score : JSON) (r : UserResult.t) :
  finalResult StringToNumber Array_toString score = Return r ->
  UserResult.userName r = EmptyString.
Proof.
  unfold finalResult. intros H.
  repeat match type of H with
         | bind ?c _ = _ => destruct c; cbn [bind] in H; [|discriminate H]
         end.
  injection H as <-. reflexivity.
Qed.

Lemma finalResults_userName entries : forall results0 results,
  finalResults StringToNumber Array_toString entries results0 = Return results ->
  forall e, In e results -> In e results0 \/ UserResult.userName (snd e) = EmptyString.
Proof.
  induction entries as [|[userId score] entries IH]; intros results0 results Hrun e He.
  - injection Hrun as <-. now left.
  - simpl in Hrun.
    destruct (finalResult StringToNumber Array_toString score) as [r|] eqn:Hr;
      [|discriminate].
    cbn [bind] in Hrun. destruct (IH _ _ Hrun e He) as [Hset|Hn]; [|now right].
    apply In_obj_set in Hset. destruct Hset as [->|Hold]; [|now left].
    right. exact (finalResult_userName _ _ Hr).
Qed.

Lemma calculateFinalScores_userName (scores : value) (results : obj UserResult.t) :
  calculateFinalScores StringToNumber Array_toString scores = Return results ->
  forall e, In e results -> UserResult.userName (snd e) = EmptyString.
Proof.
  unfold calculateFinalScores.
  destruct (Object_entries scores) as [entries|]; [|discriminate].
  cbn [bind]. intros Hrun e He.
  destruct (finalResults_userName _ _ _ Hrun e He) as [[]|H]. exact H.
Qed.

Variable JSON_parse : string -> option JSON.
Variable generateText : string -> completion string.
Variable Date_now : Z.

(** Whatever the path, a decision is made of the results of the
    aggregator and of what the winner resolver makes of them. *)
Lemma analyzeDebate_Return (session : DebateSession.t) (result : DebateResult.t) :
  analyzeDebate StringToNumber Array_toString JSON_parse generateText Date_now session
  = Return result ->
  (exists scores,
     calculateFinalScores StringToNumber Array_toString scores
     = Return (DebateResult.results result)) /\
  DebateResult.winner result
  = Decision.winner (determineWinner (DebateResult.results result)) /\
  DebateResult.isTie result
  = Decision.isTie (determineWinner (DebateResult.results result)).
Proof.
  unfold analyzeDebate.
  destruct (List.length (DebateSession.arguments session) =? 0)%nat; [discriminate|].
  set (aiResponse := match performAIAnalysis JSON_parse generateText session with
                     | Return response => response
                     | Throw _ => AIScoringResponse_value (performFallbackAnalysis session)
                     end).
  destruct (get (Some aiResponse) "scores") as [scores|]; [|discriminate].
  cbn [bind]. destruct (calculateFinalScores StringToNumber Array_toString scores)
    as [results|] eqn:Hcalc; [|discriminate].
  cbn [bind]. destruct (get (Some aiResponse) "consensusStatement"); [|discriminate].
  cbn [bind catch]. intros [= <-]. cbn. split; [now exists scores|]. split; reflexivity.
Qed.

(** X9.  The winner of a decision has no name, and the callers do not give
    it one: the loop that fills in the user names writes the name of the
    winning participant into the results, where the entry of the winner is,
    but the winner reference of the decision keeps the empty name that the
    aggregator has put. *)
Theorem winner_reference_keeps_an_empty_name
  (session : DebateSession.t) (result : DebateResult.t) (w : Winner.t) :
  analyzeDebate StringToNumber Array_toString JSON_parse generateText Date_now session
  = Return result ->
  DebateResult.winner (fillUserNames session result) = Some w ->
  Winner.userName w = EmptyString /\
  exists r,
    In (Winner.userId w, r) (DebateResult.results (fillUserNames session result)) /\
    UserResult.finalScore r = Winner.finalScore w /\
    forall arg,
      find (fun arg => String.eqb (Argument.userId arg) (Winner.userId w))
           (DebateSession.arguments session) = Some arg ->
      UserResult.userName r = Argument.userName arg.
Proof.
  intros Hrun Hw. destruct (analyzeDebate_Return _ _ Hrun) as [[scores Hcalc] [Hwin _]].
  cbn [fillUserNames DebateResult.winner] in Hw. rewrite Hwin in Hw.
  destruct (determineWinner_winner_In _ _ Hw) as [[k r] [Hin ->]].
  pose proof (calculateFinalScores_userName _ _ Hcalc _ Hin) as Hname.
  cbn [snd] in Hname. split; [exact Hname|].
  exists (snd (fillUserName session (k, r))). cbn [winnerOf Winner.userId Winner.finalScore fst snd].
  split; [|split].
  - cbn [fillUserNames DebateResult.results].
    replace (k, snd (fillUserName session (k, r))) with (fillUserName session (k, r)).
    + now apply in_map.
    + unfold fillUserName. destruct (find _ _); reflexivity.
  - unfold fillUserName. destruct (find _ _); reflexivity.
  - intros arg Hfind. unfold fillUserName. rewrite Hfind. reflexivity.
Qed.

End UserNames.

Section FirstNameLastScore.
Import DebateAnalyzer DebateRefereeCLI.





Variable StringToNumber : string -> number.
Variable Array_toString : list JSON -> string.
Variable JSON_parse : string -> option JSON.
Variable generateText : string -> completion string.
Variable Date_now : Z.


End FirstNameLastScore.

(** ** Substrings *)

Lemma string_app_nil (s : string) : (s ++ EmptyString)%string = s.
Proof. induction s as [|c s IH]; simpl; [reflexivity|]. now rewrite IH. Qed.

Lemma prefix_app (x c : string) : prefix x (x ++ c) = true.
Proof.
  induction x as [|ch x IH]; simpl; [destruct c; reflexivity|].
  destruct (ascii_dec ch ch); [exact IH|congruence].
Qed.

Lemma prefix_inv (x s : string) : prefix x s = true -> exists c, s = (x ++ c)%string.
Proof.
  revert s. induction x as [|ch x IH]; intros s.
  - intros _. now exists s.
  - destruct s as [|ch' s]; simpl; [discriminate|].
    destruct (ascii_dec ch ch') as [<-|]; [|discriminate].
    intros H. destruct (IH s H) as [c ->]. now exists c.
Qed.

Lemma includes_prefix (s x : string) : prefix x s = true -> includes s x = true.
Proof.
  intros H. destruct s; cbn [includes]; [exact H|]. now rewrite H.
Qed.

Lemma includes_occursIn (s x : string) : includes s x = true <-> occursIn x s.
Proof.
  unfold occursIn. split.
  - induction s as [|ch s IH]; cbn [includes].
    + intros H. destruct x; [|discriminate]. now exists EmptyString, EmptyString.
    + intros H. apply orb_true_iff in H. destruct H as [H|H].
      * destruct (prefix_inv _ _ H) as [c Hc]. now exists EmptyString, c.
      * destruct (IH H) as [a [c ->]]. now exists (String ch a), c.
  - intros [a [c ->]]. induction a as [|ch a IH].
    + change (includes (x ++ c) x = true). apply includes_prefix, prefix_app.
    + change (includes (String ch (a ++ x ++ c)) x = true). cbn [includes].
      rewrite IH. apply orb_true_r.
Qed.

Lemma occursIn_app (x s a c : string) : occursIn x s -> occursIn x (a ++ s ++ c).
Proof.
  intros [a' [c' ->]]. exists (a ++ a')%string, (c' ++ c)%string.
  now rewrite !string_app_assoc.
Qed.

Lemma occursIn_trans (x y z : string) : occursIn x y -> occursIn y z -> occursIn x z.
Proof.
  intros Hxy [a [c ->]]. now apply occursIn_app.
Qed.

Lemma occursIn_refl (x : string) : occursIn x x.
Proof. exists EmptyString, EmptyString. simpl. now rewrite string_app_nil. Qed.

Lemma occursIn_left (x s c : string) : occursIn x s -> occursIn x (s ++ c).
Proof.
  intros H. apply (occursIn_app x s EmptyString c) in H. exact H.
Qed.

Lemma occursIn_right (x s a : string) : occursIn x s -> occursIn x (a ++ s).
Proof.
  intros H. apply (occursIn_app x s a EmptyString) in H.
  now rewrite string_app_nil in H.
Qed.

Lemma occursIn_concat (sep x : string) (l : list string) :
  In x l -> occursIn x (String.concat sep l).
Proof.
  induction l as [|y l IH]; [contradiction|].
  intros [->|Hin].
  - destruct l; simpl; [apply occursIn_refl|]. apply occursIn_left, occursIn_refl.
  - destruct l as [|z l]; [contradiction|].
    change (String.concat sep (y :: z :: l)) with (y ++ sep ++ String.concat sep (z :: l))%string.
    apply occursIn_right, occursIn_right. now apply IH.
Qed.

Lemma toLowerCase_app (a b : string) :
  toLowerCase (a ++ b) = (toLowerCase a ++ toLowerCase b)%string.
Proof. induction a as [|c a IH]; simpl; [reflexivity|]. now rewrite IH. Qed.

(** ** The prompt *)

Section Prompt.
Import DebateAnalyzer.

Lemma argumentTexts_piece (arg : Argument.t) (args : list Argument.t) : forall index,
  In arg args ->
  exists piece,
    In piece (argumentTexts index args) /\
    occursIn (Argument.text arg) piece /\ occursIn (Argument.userName arg) piece.
Proof.
  induction args as [|a args IH]; intros index; [contradiction|].
  intros [->|Hin].
  - eexists. split; [left; reflexivity|]. split.
    + exists ("Argument " ++ nat_to_string (index + 1) ++ " (User: "
              ++ Argument.userName arg ++ "):" ++ newline)%string, newline.
      now rewrite !string_app_assoc.
    + exists ("Argument " ++ nat_to_string (index + 1) ++ " (User: ")%string,
             ("):" ++ newline ++ Argument.text arg ++ newline)%string.
      now rewrite !string_app_assoc.
  - destruct (IH (S index) Hin) as [piece [Hp Ho]]. exists piece. split; [now right|exact Ho].
Qed.

(** X11.  On a session without arguments the construction of the prompt
    throws.  On any other session the prompt shows the topic between quotes,
    the id of the first participant between quotes, as the key of the sample
    answer, and the name and the text of every argument. *)
Theorem prompt_shows_the_topic_and_every_argument (session : DebateSession.t) :
  (DebateSession.arguments session = [] ->
   constructAnalysisPrompt session = Throw TypeError) /\
  (forall first rest,
     DebateSession.arguments session = first :: rest ->
     exists prompt,
       constructAnalysisPrompt session = Return prompt /\
       includes prompt (quoted (DebateSession.topic session)) = true /\
       includes prompt (quoted (Argument.userId first)) = true /\
       forall arg, In arg (DebateSession.arguments session) ->
         includes prompt (Argument.userName arg) = true /\
         includes prompt (Argument.text arg) = true).
Proof.
  split.
  - intros Hargs. unfold constructAnalysisPrompt. now rewrite Hargs.
  - intros first rest Hargs. unfold constructAnalysisPrompt. rewrite Hargs.
    eexists. split; [reflexivity|].
    split; [|split].
    + apply includes_occursIn.
      eapply occursIn_trans; [|apply occursIn_concat; left; reflexivity].
      apply occursIn_right, occursIn_left, occursIn_refl.
    + apply includes_occursIn.
      eapply occursIn_trans; [|apply occursIn_concat; do 14 right; left; reflexivity].
      apply occursIn_right, occursIn_left, occursIn_refl.
    + intros arg Harg.
      destruct (argumentTexts_piece arg (first :: rest) 0 Harg) as [piece [Hp [Ht Hn]]].
      assert (Hpiece : occursIn piece
                         (String.concat newline (argumentTexts 0 (first :: rest))))
        by now apply occursIn_concat.
      split; apply includes_occursIn.
      * eapply occursIn_trans; [exact Hn|]. eapply occursIn_trans; [exact Hpiece|].
        apply occursIn_concat. do 9 right. left. reflexivity.
      * eapply occursIn_trans; [exact Ht|]. eapply occursIn_trans; [exact Hpiece|].
        apply occursIn_concat. do 9 right. left. reflexivity.
Qed.

End Prompt.

(** ** What the validator reads of the answer *)

Lemma from_first_open_skip (a t : string) :
  hasChar open_brace a = false ->
  from_first_open (a ++ String open_brace t) = Some (String open_brace t).
Proof.
  induction a as [|c a IH]; simpl; intros H.
  - reflexivity.
  - apply orb_false_iff in H. destruct H as [Hc Ha]. rewrite Hc. now apply IH.
Qed.

Lemma upto_last_close_none (c : string) :
  hasChar close_brace c = false -> upto_last_close c = None.
Proof.
  induction c as [|x c IH]; simpl; intros H; [reflexivity|].
  apply orb_false_iff in H. destruct H as [Hx Hc]. now rewrite (IH Hc), Hx.
Qed.

Lemma upto_last_close_cut (p c : string) :
  hasChar close_brace c = false ->
  upto_last_close (p ++ String close_brace c) = Some (p ++ String close_brace EmptyString).
Proof.
  intros Hc. induction p as [|x p IH]; simpl.
  - now rewrite (upto_last_close_none c Hc).
  - now rewrite IH.
Qed.

Lemma from_first_open_split (s r : string) :
  from_first_open s = Some r ->
  exists a t, s = (a ++ r)%string /\ r = String open_brace t /\
              hasChar open_brace a = false.
Proof.
  induction s as [|c s IH]; simpl; [discriminate|].
  destruct (Ascii.eqb c open_brace) eqn:E.
  - apply Ascii.eqb_eq in E. subst c. intros [= <-].
    exists EmptyString, s. repeat split.
  - intros H. destruct (IH H) as [a [t [Hs [Hr Ha]]]].
    exists (String c a), t. simpl. rewrite E, Ha. repeat split; congruence.
Qed.

Lemma upto_last_close_split (r m : string) :
  upto_last_close r = Some m ->
  exists p c, r = (m ++ c)%string /\ m = (p ++ String close_brace EmptyString)%string /\
              hasChar close_brace c = false.
Proof.
  revert m. induction r as [|x r IH]; simpl; intros m; [discriminate|].
  destruct (upto_last_close r) as [m'|] eqn:Hr.
  - intros [= <-]. destruct (IH m' eq_refl) as [p [c [Hrc [Hm Hc]]]].
    exists (String x p), c. simpl. repeat split; congruence.
  - destruct (Ascii.eqb x close_brace) eqn:E; [|discriminate].
    apply Ascii.eqb_eq in E. subst x. intros [= <-].
    exists EmptyString, r. repeat split.
    clear IH. induction r as [|y r IH]; [reflexivity|]. simpl in Hr |- *.
    destruct (upto_last_close r); [discriminate|].
    destruct (Ascii.eqb y close_brace); [discriminate|]. simpl. now apply IH.
Qed.

(** X12.  The validator reads the answer of the judge from its first
    opening brace to its last closing brace and ignores what is around: a
    text that has no opening brace before an object and no closing brace
    behind it is validated exactly as the object alone; and every text with a
    span between braces is of this form. *)
Theorem validator_ignores_the_text_around_the_braces
  (JSON_parse : string -> option JSON) (session : DebateSession.t) :
  (forall before body behind,
     hasChar open_brace before = false ->
     hasChar close_brace behind = false ->
     let object := ("{" ++ body ++ "}")%string in
     match_braces (before ++ object ++ behind) = Some object /\
     DebateAnalyzer.parseAIResponse JSON_parse (before ++ object ++ behind) session
     = DebateAnalyzer.parseAIResponse JSON_parse object session) /\
  (forall response jsonMatch,
     match_braces response = Some jsonMatch ->
     exists before body behind,
       response = (before ++ jsonMatch ++ behind)%string /\
       jsonMatch = ("{" ++ body ++ "}")%string /\
       hasChar open_brace before = false /\
       hasChar close_brace behind = false).
Proof.
  assert (Hmatch : forall before body behind,
            hasChar open_brace before = false ->
            hasChar close_brace behind = false ->
            match_braces (before ++ ("{" ++ body ++ "}") ++ behind)
            = Some ("{" ++ body ++ "}")%string).
  { intros before body behind Hb Hc. unfold match_braces.
    change (("{" ++ body ++ "}") ++ behind)%string
      with (String open_brace ((body ++ "}") ++ behind)).
    rewrite (from_first_open_skip _ _ Hb).
    rewrite string_app_assoc.
    change (String open_brace (body ++ "}" ++ behind))%string
      with ((String open_brace body) ++ String close_brace behind)%string.
    now rewrite (upto_last_close_cut _ _ Hc). }
  split.
  - intros before body behind Hb Hc. cbv zeta. split; [now apply Hmatch|].
    unfold DebateAnalyzer.parseAIResponse. rewrite (Hmatch before body behind Hb Hc).
    assert (Hself : match_braces ("{" ++ body ++ "}")%string
                    = Some ("{" ++ body ++ "}")%string).
    { pose proof (Hmatch EmptyString body EmptyString eq_refl eq_refl) as H0.
      rewrite string_app_nil in H0. exact H0. }
    now rewrite Hself.
  - intros response jsonMatch Hm. unfold match_braces in Hm.
    destruct (from_first_open response) as [r|] eqn:Hr; [|discriminate].
    destruct (from_first_open_split _ _ Hr) as [a [t [Hs [Hrt Ha]]]].
    destruct (upto_last_close_split _ _ Hm) as [p [c [Hrc [Hmp Hc]]]].
    destruct p as [|x p].
    + exfalso. rewrite Hmp in Hrc. rewrite Hrt in Hrc. simpl in Hrc. discriminate Hrc.
    + assert (Hx : x = open_brace).
      { rewrite Hmp, Hrt in Hrc. simpl in Hrc. congruence. }
      subst x. exists a, p, c. rewrite Hs, Hrc, Hmp. repeat split; assumption.
Qed.

(** ** Markers survive in a longer text *)

Section Markers.
Import DebateAnalyzer.

Lemma marker_survives (indicators : list string) (a b c : string) :
  existsb (fun indicator => includes (toLowerCase b) indicator) indicators = true ->
  existsb (fun indicator => includes (toLowerCase (a ++ b ++ c)) indicator) indicators = true.
Proof.
  rewrite !existsb_exists. intros [indicator [Hin Hinc]]. exists indicator.
  split; [exact Hin|]. apply includes_occursIn. apply includes_occursIn in Hinc.
  rewrite !toLowerCase_app. now apply occursIn_app.
Qed.

(** X13.  Text put before or behind an argument never lowers its clarity
    or its evidence score: a marker that the argument has is still found in
    the longer text. *)
Theorem longer_text_keeps_clarity_and_evidence (topic before text behind : string) :
  Score.clarity (fallbackScore topic text)
  <= Score.clarity (fallbackScore topic (before ++ text ++ behind)) /\
  Score.evidence (fallbackScore topic text)
  <= Score.evidence (fallbackScore topic (before ++ text ++ behind)).
Proof.
  split.
  - destruct (detectStructure text) eqn:E.
    + rewrite !fallbackScore_with_structure; [lra| |exact E].
      now apply marker_survives.
    + rewrite (fallbackScore_without_structure _ _ E).
      destruct (detectStructure (before ++ text ++ behind)) eqn:E'.
      * rewrite (fallbackScore_with_structure _ _ E'). lra.
      * rewrite (fallbackScore_without_structure _ _ E'). lra.
  - rewrite !fallbackScore_evidence.
    destruct (detectEvidence text) eqn:E.
    + assert (E' : detectEvidence (before ++ text ++ behind) = true)
        by now apply marker_survives.
      rewrite E'. lra.
    + destruct (detectEvidence (before ++ text ++ behind)); lra.
Qed.

End Markers.

(** ** White space around an argument *)

Lemma split_ws_leading (c : ascii) (s : string) :
  is_whitespace c = true -> In EmptyString (split_ws (String c s)).
Proof.
  intros H. unfold split_ws. simpl. rewrite H. now left.
Qed.

Lemma split_ws_from_trailing (c : ascii) (s : string) : forall cur in_ws,
  is_whitespace c = true ->
  In EmptyString (split_ws_from cur in_ws (s ++ String c EmptyString)).
Proof.
  induction s as [|x s IH]; intros cur in_ws H; simpl.
  - rewrite H. destruct in_ws; simpl; auto.
  - destruct (is_whitespace x); [destruct in_ws|]; simpl; auto.
Qed.

Lemma calculateRelevance_empty_word (text topic : string) :
  In EmptyString (split_ws (toLowerCase text)) ->
  DebateAnalyzer.calculateRelevance text topic == 10.
Proof.
  intros Hin. unfold DebateAnalyzer.calculateRelevance. cbv zeta.
  rewrite filter_all.
  2:{ intros word. apply existsb_exists. exists EmptyString. split; [exact Hin|].
      rewrite includes_empty. apply orb_true_r. }
  pose proof (split_ws_from_length (toLowerCase topic) EmptyString false) as Hlen.
  fold (split_ws (toLowerCase topic)) in Hlen.
  set (n := List.length (split_ws (toLowerCase topic))) in *.
  assert (Hn : ~ of_nat n == 0).
  { unfold of_nat, Qeq. simpl. lia. }
  assert (Hratio : of_nat n / of_nat n == 1).
  { field. exact Hn. }
  rewrite (rnd_comp _ _ Hratio). vm_compute. reflexivity.
Qed.

(** X14.  An argument whose text begins or ends with white space gets the
    relevance 10, whatever it says and whatever the topic: the empty piece
    that the split leaves at that end is a substring of every topic word. *)
Theorem text_with_white_space_around_gets_relevance_10 (topic text : string) :
  (exists c rest, text = String c rest /\ is_whitespace c = true) \/
  (exists init c, text = (init ++ String c EmptyString)%string /\ is_whitespace c = true) ->
  Score.relevance (DebateAnalyzer.fallbackScore topic text) == 10.
Proof.
  intros Hws.
  assert (Hin : In EmptyString (split_ws (toLowerCase text))).
  { destruct Hws as [[c [rest [-> Hc]]]|[init [c [-> Hc]]]].
    - simpl. apply split_ws_leading. now rewrite lower_char_whitespace.
    - rewrite toLowerCase_app. simpl. apply split_ws_from_trailing.
      now rewrite lower_char_whitespace. }
  rewrite fallbackScore_relevance.
  pose proof (calculateRelevance_empty_word text topic Hin) as H.
  unfold clamp.
  destruct (Q.max_spec 6 (DebateAnalyzer.calculateRelevance text topic)) as [[? Hm]|[? Hm]];
    destruct (Q.min_spec 10 (Qmax 6 (DebateAnalyzer.calculateRelevance text topic)))
      as [[? Hi]|[? Hi]]; lra.
Qed.

(** ** The sub-scores on display *)



Section Display.
Import DebateAnalyzer.

Variable StringToNumber : string -> number.
Variable Array_toString : list JSON -> string.



End Display.


(** * The result printer *)

Section WrapText.
Import ResultPrinter.

Local Abbreviation join := (String.concat " ").

Lemma length_app (a b : string) :
  String.length (a ++ b) = (String.length a + String.length b)%nat.
Proof. induction a as [|c a IH]; simpl; [reflexivity|]. now rewrite IH. Qed.

Lemma nonempty_true (s : string) : nonempty s = true <-> s <> EmptyString.
Proof.
  unfold nonempty. rewrite negb_true_iff. apply String.eqb_neq.
Qed.

Lemma nonempty_false (s : string) : nonempty s = false <-> s = EmptyString.
Proof.
  unfold nonempty. rewrite negb_false_iff. apply String.eqb_eq.
Qed.

Lemma join_cons (x y : string) (l : list string) :
  join (x :: y :: l) = (x ++ " " ++ join (y :: l))%string.
Proof. reflexivity. Qed.

Lemma join_merge (l : list string) (a b : string) (r : list string) :
  join (l ++ (a ++ " " ++ b)%string :: r) = join (l ++ a :: b :: r).
Proof.
  induction l as [|x l IH].
  - cbn [app]. rewrite join_cons. destruct r as [|y r].
    + reflexivity.
    + rewrite join_cons. now rewrite !string_app_assoc.
  - destruct l as [|x' l].
    + cbn [app] in *. rewrite !join_cons. now rewrite IH.
    + cbn [app] in *. rewrite (join_cons x x'), (join_cons x x'). now rewrite IH.
Qed.

Lemma split_space_from_join (s : string) : forall cur,
  join (split_space_from cur s) = (cur ++ s)%string.
Proof.
  induction s as [|c s IH]; intros cur; simpl.
  - now rewrite string_app_nil.
  - destruct (Ascii.eqb c space) eqn:E.
    + apply Ascii.eqb_eq in E. subst c.
      specialize (IH EmptyString).
      destruct (split_space_from EmptyString s) as [|y l] eqn:Hs.
      * destruct s; simpl in Hs; [discriminate|].
        destruct (Ascii.eqb _ _) in Hs; [discriminate|].
        exfalso. clear IH. revert Hs. generalize (String a EmptyString).
        induction s as [|c s IHs]; intros cur'; simpl; [discriminate|].
        destruct (Ascii.eqb c space); [discriminate|apply IHs].
      * rewrite join_cons, IH. reflexivity.
    + rewrite IH. now rewrite string_app_assoc.
Qed.

Lemma split_space_join (text : string) : join (split_space text) = text.
Proof. apply split_space_from_join. Qed.

(** What the loop makes of words that are not empty. *)
Lemma wrapLoop_join (width : Z) (words : list string) : forall lines cur,
  Forall (fun w => w <> EmptyString) words ->
  join (wrapLoop width words lines cur)
  = join (lines ++ (if nonempty cur then [cur] else []) ++ words).
Proof.
  induction words as [|word rest IH]; intros lines cur Hne; simpl.
  - destruct (nonempty cur); [reflexivity|now rewrite app_nil_r].
  - inversion Hne as [|? ? Hword Hrest]; subst.
    destruct (Z.of_nat (String.length (cur ++ word)) <=? width)%Z.
    + rewrite (IH _ _ Hrest). destruct (nonempty cur) eqn:Hc.
      * assert (Hn : nonempty (cur ++ " " ++ word) = true).
        { apply nonempty_true. apply nonempty_true in Hc. destruct cur; [congruence|discriminate]. }
        rewrite Hn. cbn [app]. apply join_merge.
      * apply nonempty_false in Hc. subst cur. cbn [append].
        assert (Hn : nonempty word = true) by now apply nonempty_true.
        now rewrite Hn.
    + rewrite (IH _ _ Hrest).
      assert (Hn : nonempty word = true) by now apply nonempty_true.
      rewrite Hn. destruct (nonempty cur); cbn [app]; [|reflexivity].
      now rewrite <- app_assoc.
Qed.

End WrapText.

(** X16.  Wrapping loses nothing of a text whose words are separated by
    single spaces: when no piece between two spaces is empty, the lines of
    [wrapText], joined by spaces, are the text again. *)
Theorem wrapped_lines_give_the_text_back (text : string) (width : Z) :
  Forall (fun w => w <> EmptyString) (ResultPrinter.split_space text) ->
  String.concat " " (ResultPrinter.wrapText text width) = text.
Proof.
  intros Hne. unfold ResultPrinter.wrapText.
  rewrite (wrapLoop_join width _ [] EmptyString Hne). cbn [app ResultPrinter.nonempty].
  apply split_space_join.
Qed.

Section WrapBounds.
Import ResultPrinter.

Lemma wrapLoop_nonempty (width : Z) (words : list string) : forall lines cur,
  Forall (fun l => l <> EmptyString) lines ->
  Forall (fun l => l <> EmptyString) (wrapLoop width words lines cur).
Proof.
  induction words as [|word rest IH]; intros lines cur Hlines; simpl.
  - destruct (nonempty cur) eqn:Hc; [|exact Hlines].
    apply Forall_app. split; [exact Hlines|]. constructor; [|constructor].
    now apply nonempty_true.
  - destruct (Z.of_nat (String.length (cur ++ word)) <=? width)%Z; apply IH; [exact Hlines|].
    destruct (nonempty cur) eqn:Hc; [|exact Hlines].
    apply Forall_app. split; [exact Hlines|]. constructor; [|constructor].
    now apply nonempty_true.
Qed.

Lemma wrapLoop_bound (width : Z) (words : list string) : forall lines cur,
  Forall (fun w => (Z.of_nat (String.length w) <= width)%Z) words ->
  Forall (fun l => (Z.of_nat (String.length l) <= width + 1)%Z) lines ->
  (Z.of_nat (String.length cur) <= width + 1)%Z ->
  Forall (fun l => (Z.of_nat (String.length l) <= width + 1)%Z)
         (wrapLoop width words lines cur).
Proof.
  induction words as [|word rest IH]; intros lines cur Hwords Hlines Hcur; simpl.
  - destruct (nonempty cur); [|exact Hlines].
    apply Forall_app. split; [exact Hlines|]. now constructor.
  - inversion Hwords as [|? ? Hword Hrest]; subst.
    destruct (Z.of_nat (String.length (cur ++ word)) <=? width)%Z eqn:E.
    + apply Z.leb_le in E. rewrite length_app in E.
      apply IH; [exact Hrest|exact Hlines|].
      rewrite !length_app. destruct (nonempty cur); simpl; lia.
    + apply IH; [exact Hrest| |lia].
      destruct (nonempty cur); [|exact Hlines].
      apply Forall_app. split; [exact Hlines|]. now constructor.
Qed.

Lemma length_copies (c : ascii) (n : nat) :
  String.length (copies (String c EmptyString) n) = n.
Proof. induction n as [|n IH]; simpl; [reflexivity|]. now rewrite IH. Qed.

Lemma split_space_from_no_space (s : string) : forall cur,
  hasChar space s = false -> split_space_from cur s = [(cur ++ s)%string].
Proof.
  induction s as [|c s IH]; intros cur H; simpl.
  - now rewrite string_app_nil.
  - simpl in H. apply orb_false_iff in H. destruct H as [Hc Hs].
    rewrite Hc, (IH _ Hs). now rewrite string_app_assoc.
Qed.

Lemma split_space_from_cons (s : string) : forall cur, split_space_from cur s <> [].
Proof.
  induction s as [|c s IH]; intros cur; simpl; [discriminate|].
  destruct (Ascii.eqb c space); [discriminate|apply IH].
Qed.

Lemma copies_no_space (n : nat) : hasChar space (copies "b" n) = false.
Proof. induction n as [|n IH]; simpl; [reflexivity|exact IH]. Qed.

End WrapBounds.

(** X17.  [wrapText] never returns an empty line; and when no word of the
    text is longer than the width, no line is longer than the width plus
    one.  The bound is reached for every width from 1 on: the test that lets
    a word join the current line does not count the space that joins them. *)
Theorem wrapped_lines_exceed_the_width_by_at_most_one (width : Z) :
  (forall text,
     Forall (fun l => l <> EmptyString) (ResultPrinter.wrapText text width) /\
     (Forall (fun w => (Z.of_nat (String.length w) <= width)%Z)
             (ResultPrinter.split_space text) ->
      Forall (fun l => (Z.of_nat (String.length l) <= width + 1)%Z)
             (ResultPrinter.wrapText text width))) /\
  ((1 <= width)%Z ->
   exists text line,
     Forall (fun w => (Z.of_nat (String.length w) <= width)%Z)
            (ResultPrinter.split_space text) /\
     ResultPrinter.wrapText text width = [line] /\
     Z.of_nat (String.length line) = (width + 1)%Z).
Proof.
  split.
  - intros text. split.
    + apply wrapLoop_nonempty. constructor.
    + intros Hwords. apply wrapLoop_bound; [exact Hwords|apply Forall_nil|].
      change (Z.of_nat 0 <= width + 1)%Z.
      pose proof (split_space_from_cons text EmptyString) as Hcons.
      unfold ResultPrinter.split_space in Hwords.
      destruct (ResultPrinter.split_space_from EmptyString text) as [|w ws];
        [congruence|].
      inversion Hwords; subst. lia.
  - intros Hw. set (n := Z.to_nat (width - 1)).
    exists ("a " ++ ResultPrinter.copies "b" n)%string,
           ("a " ++ ResultPrinter.copies "b" n)%string.
    assert (Hsplit : ResultPrinter.split_space ("a " ++ ResultPrinter.copies "b" n)
                     = ["a"; ResultPrinter.copies "b" n]%string).
    { unfold ResultPrinter.split_space. simpl.
      now rewrite (split_space_from_no_space _ _ (copies_no_space n)). }
    assert (Hlen : String.length (ResultPrinter.copies "b" n) = n) by apply length_copies.
    split; [|split].
    + rewrite Hsplit. repeat constructor; [simpl; lia|]. rewrite Hlen. lia.
    + unfold ResultPrinter.wrapText. rewrite Hsplit. cbn [ResultPrinter.wrapLoop append].
      assert (E1 : (Z.of_nat (String.length "a") <=? width)%Z = true)
        by (apply Z.leb_le; simpl; lia).
      rewrite E1. cbn [ResultPrinter.nonempty String.eqb negb append].
      assert (E2 : (Z.of_nat (String.length (String "a" (ResultPrinter.copies "b" n)))
                    <=? width)%Z = true).
      { apply Z.leb_le. cbn [String.length]. rewrite Hlen. lia. }
      rewrite E2. reflexivity.
    + cbn [append String.length]. rewrite Hlen. lia.
Qed.

Section WrapShort.
Import ResultPrinter.

Local Abbreviation join := (String.concat " ").

Lemma length_join_cons (cur word : string) (rest : list string) :
  (String.length (cur ++ word) < String.length (join (cur :: word :: rest)))%nat.
Proof.
  rewrite join_cons, !length_app. destruct rest as [|y rest].
  - simpl. lia.
  - rewrite join_cons, !length_app. simpl. lia.
Qed.

(** Once the current line is not empty, words that fit are all joined to
    it. *)
Lemma wrapLoop_fits (width : Z) (words : list string) : forall cur,
  cur <> EmptyString ->
  (Z.of_nat (String.length (join (cur :: words))) <= width)%Z ->
  wrapLoop width words [] cur = [join (cur :: words)].
Proof.
  induction words as [|word rest IH]; intros cur Hcur Hlen; simpl.
  - apply nonempty_true in Hcur. now rewrite Hcur.
  - pose proof (length_join_cons cur word rest) as Hlt.
    assert (E : (Z.of_nat (String.length (cur ++ word)) <=? width)%Z = true)
      by (apply Z.leb_le; lia).
    rewrite E. pose proof Hcur as Hc. apply nonempty_true in Hc. rewrite Hc.
    pose proof (join_merge [] cur word rest) as Hm. cbn [app] in Hm.
    rewrite IH.
    + f_equal. exact Hm.
    + destruct cur; [congruence|discriminate].
    + rewrite Hm. exact Hlen.
Qed.

Lemma split_space_from_first (s : string) : forall cur,
  cur <> EmptyString ->
  exists w ws, split_space_from cur s = w :: ws /\ w <> EmptyString.
Proof.
  induction s as [|c s IH]; intros cur Hcur; simpl.
  - now exists cur, [].
  - destruct (Ascii.eqb c space).
    + now exists cur, (split_space_from EmptyString s).
    + apply IH. destruct cur; [congruence|discriminate].
Qed.

Lemma wrapLoop_blank (width : Z) (words : list string) :
  Forall (fun w => w = EmptyString) words ->
  wrapLoop width words [] EmptyString = [].
Proof.
  induction 1 as [|word rest -> _ IH]; simpl; [reflexivity|].
  destruct (0 <=? width)%Z; exact IH.
Qed.

Lemma split_space_from_blank (n : nat) :
  Forall (fun w => w = EmptyString) (split_space_from EmptyString (copies " " n)).
Proof.
  induction n as [|n IH]; simpl; [repeat constructor|].
  constructor; [reflexivity|exact IH].
Qed.

End WrapShort.

(** X18.  A text that fits is left as one line: when the text is not
    empty, does not begin with a space and is not longer than the width,
    [wrapText] returns the text itself as its only line.  A text made of
    spaces only, the empty text among them, gives no line at all. *)
Theorem short_text_is_one_line_and_blank_text_none (width : Z) :
  (forall c rest,
     c <> ResultPrinter.space ->
     (Z.of_nat (String.length (String c rest)) <= width)%Z ->
     ResultPrinter.wrapText (String c rest) width = [String c rest]) /\
  (forall n, ResultPrinter.wrapText (ResultPrinter.copies " " n) width = []).
Proof.
  split.
  - intros c rest Hc Hlen. unfold ResultPrinter.wrapText.
    pose proof (split_space_join (String c rest)) as Hjoin.
    unfold ResultPrinter.split_space in *. simpl in Hjoin |- *.
    apply Ascii.eqb_neq in Hc. rewrite Hc in Hjoin |- *.
    destruct (split_space_from_first rest (String c EmptyString)) as [w [ws [Hs Hw]]];
      [discriminate|].
    rewrite Hs in Hjoin |- *. cbn [ResultPrinter.wrapLoop append].
    assert (Hfit : (Z.of_nat (String.length (String.concat " " (w :: ws))) <= width)%Z)
      by now rewrite Hjoin.
    assert (E : (Z.of_nat (String.length w) <=? width)%Z = true).
    { apply Z.leb_le. destruct ws as [|y ws]; [exact Hfit|].
      rewrite join_cons, length_app in Hfit. lia. }
    rewrite E. cbn [ResultPrinter.nonempty String.eqb negb append].
    rewrite (wrapLoop_fits width ws w Hw Hfit). now rewrite Hjoin.
  - intros n. apply wrapLoop_blank, split_space_from_blank.
Qed.

Section Centered.
Import ResultPrinter.

Variable sideChar : ascii.

Lemma length_copies_space (n : nat) : String.length (copies " " n) = n.
Proof. apply length_copies. Qed.

(** X19.  [printCentered] logs a line of exactly 80 characters, with the
    text between two runs of spaces of which the right one is the left one
    or one longer, when the text has at most 78 characters.  On a longer
    text it throws a [RangeError], and so does [printTopic] on a topic of
    more than 71 characters. *)
Theorem centred_line_is_80_wide_or_a_range_error (text : string) :
  let len := Z.of_nat (String.length text) in
  ((len <= 78)%Z ->
   exists before behind : nat,
     printCentered sideChar text
     = Printed (String sideChar
                  (copies " " before ++ text ++ copies " " behind
                   ++ String sideChar EmptyString)) /\
     (before + String.length text + behind = 78)%nat /\
     (behind = before \/ behind = S before) /\
     String.length (String sideChar
                      (copies " " before ++ text ++ copies " " behind
                       ++ String sideChar EmptyString)) = 80%nat) /\
  ((78 < len)%Z -> printCentered sideChar text = RangeError) /\
  ((71 < len)%Z -> printTopic sideChar text = RangeError).
Proof.
  cbv zeta.
  assert (Hlong : forall t, (78 < Z.of_nat (String.length t))%Z ->
                            printCentered sideChar t = RangeError).
  { intros t Hl. unfold printCentered, repeat, maxWidth. cbv zeta.
    assert (Hp : Z.max 0 ((80 - Z.of_nat (String.length t) - 2) / 2) = 0%Z).
    { apply Z.max_l. apply Z.div_le_upper_bound; lia. }
    rewrite Hp. cbn [Z.ltb Z.compare].
    assert (E : (80 - Z.of_nat (String.length t) - 0 - 2 <? 0)%Z = true)
      by (apply Z.ltb_lt; lia).
    now rewrite E. }
  split; [|split].
  - intros Hlen. unfold printCentered, repeat, maxWidth. cbv zeta.
    set (len := Z.of_nat (String.length text)) in *.
    set (half := ((80 - len - 2) / 2)%Z).
    assert (Hhalf : (0 <= half /\ 2 * half <= 78 - len /\ 78 - len <= 2 * half + 1)%Z).
    { unfold half. pose proof (Z.div_mod (80 - len - 2) 2 ltac:(lia)) as Hdm.
      pose proof (Z.mod_pos_bound (80 - len - 2) 2 ltac:(lia)) as Hmod.
      split; [apply Z.div_pos; lia|]. lia. }
    assert (Hp : Z.max 0 half = half) by (apply Z.max_r; lia).
    rewrite Hp.
    assert (E1 : (half <? 0)%Z = false) by (apply Z.ltb_ge; lia).
    assert (E2 : (80 - len - half - 2 <? 0)%Z = false) by (apply Z.ltb_ge; lia).
    rewrite E1, E2.
    exists (Z.to_nat half), (Z.to_nat (80 - len - half - 2)).
    split; [reflexivity|].
    assert (Hsum : (Z.to_nat half + String.length text + Z.to_nat (80 - len - half - 2)
                    = 78)%nat) by (unfold len in *; lia).
    split; [exact Hsum|]. split; [unfold len in *; lia|].
    cbn [String.length]. rewrite !length_app, !length_copies_space. cbn [String.length].
    lia.
  - apply Hlong.
  - intros Hl. unfold printTopic. apply Hlong. rewrite length_app. simpl. lia.
Qed.

End Centered.

(** ** The sessions of the store *)

Section Sessions.

Import DebateStore.

Lemma findIndex_None {A : Type} (p : A -> bool) (l : list A) :
  findIndex p l = None <-> find p l = None.
Proof.
  induction l as [|x l IH]; cbn [findIndex find]; [tauto|].
  destruct (p x); [split; discriminate|].
  destruct (findIndex p l); cbn [option_map].
  - split; [discriminate|]. intros H. apply IH in H. discriminate H.
  - split; intros _; [now apply IH|reflexivity].
Qed.

Lemma findIndex_Some {A : Type} (p : A -> bool) (l : list A) (i : nat) :
  findIndex p l = Some i ->
  exists x, nth_error l i = Some x /\ find p l = Some x /\ p x = true.
Proof.
  revert i. induction l as [|x l IH]; intros i; cbn [findIndex find]; [discriminate|].
  destruct (p x) eqn:Hp.
  - intros [= <-]. exists x. now repeat split.
  - destruct (findIndex p l) as [j|]; cbn [option_map]; [|discriminate].
    intros [= <-]. destruct (IH j eq_refl) as [y [Hn [Hf Hy]]].
    exists y. now repeat split.
Qed.

Lemma find_update_same {A : Type} (p : A -> bool) (f : A -> A) (l : list A) (i : nat) (x : A) :
  findIndex p l = Some i -> nth_error l i = Some x -> p (f x) = true ->
  find p (update i f l) = Some (f x).
Proof.
  revert i. induction l as [|y l IH]; intros i; cbn [findIndex]; [discriminate|].
  destruct (p y) eqn:Hp.
  - intros [= <-] [= ->] Hfx. cbn [update find]. now rewrite Hfx.
  - destruct (findIndex p l) as [j|] eqn:Hj; cbn [option_map]; [|discriminate].
    intros [= <-] Hn Hfx. cbn [update find nth_error] in *. rewrite Hp.
    now apply IH.
Qed.

Lemma find_update_other {A : Type} (q : A -> bool) (f : A -> A) (l : list A) (i : nat) :
  (forall x, q (f x) = q x) ->
  (forall x, nth_error l i = Some x -> q x = false) ->
  find q (update i f l) = find q l.
Proof.
  intros Hq. revert i. induction l as [|y l IH]; intros [|i] Hi; cbn [update find]; try reflexivity.
  - rewrite Hq, (Hi y eq_refl). reflexivity.
  - destruct (q y); [reflexivity|]. apply IH. intros x Hx. now apply Hi.
Qed.

Lemma map_update {A B : Type} (g : A -> B) (f : A -> A) (l : list A) (i : nat) :
  (forall x, g (f x) = g x) -> map g (update i f l) = map g l.
Proof.
  intros Hg. revert i. induction l as [|y l IH]; intros [|i]; cbn [update map]; try reflexivity.
  - now rewrite Hg.
  - now rewrite IH.
Qed.

Lemma In_update {A : Type} (f : A -> A) (l : list A) (i : nat) (y : A) :
  In y (update i f l) ->
  In y l \/ exists x, nth_error l i = Some x /\ In x l /\ y = f x.
Proof.
  revert i. induction l as [|z l IH]; intros [|i]; cbn [update In nth_error]; try tauto.
  - intros [<- | H]; [right; exists z; auto|left; auto].
  - intros [<- | H]; [left; auto|].
    destruct (IH i H) as [H' | [x [Hn [Hx ->]]]]; [left; auto|].
    right. exists x. auto.
Qed.

Lemma hasId_other (sessionId other : string) (session : DebateSession.t) :
  other <> sessionId -> hasId sessionId session = true -> hasId other session = false.
Proof.
  unfold hasId. intros Hne H. apply String.eqb_eq in H.
  apply String.eqb_neq. congruence.
Qed.

(** X20.  [addArgument] looks for the first session with the id: when there
    is none it throws and writes nothing; when there is one, the argument it
    returns carries the topic of that session, the id and the time it was
    given, a later [getSession] shows the session with the argument added at
    the end of its list, every other id is looked up as before, and the ids
    of the sessions and their order stay as they were. *)
Theorem addArgument_appends_to_the_first_session_with_the_id
  (newId : string) (now : Z) (sessionId userId userName argumentText : string)
  (sessions : list DebateSession.t) :
  match getSession sessionId sessions with
  | None =>
      addArgument newId now sessionId userId userName argumentText sessions
      = SessionNotFound sessionId
  | Some session =>
      let argument :=
        {| Argument.id := newId;
           Argument.userId := userId;
           Argument.userName := userName;
           Argument.topic := DebateSession.topic session;
           Argument.text := argumentText;
           Argument.timestamp := now |} in
      exists sessions',
        addArgument newId now sessionId userId userName argumentText sessions
        = Done (sessions', argument) /\
        getSession sessionId sessions'
        = Some (pushArgument argument session) /\
        (forall other, other <> sessionId ->
           getSession other sessions' = getSession other sessions) /\
        map DebateSession.id sessions' = map DebateSession.id sessions
  end.
Proof.
  unfold getSession, addArgument.
  destruct (findIndex (hasId sessionId) sessions) as [i|] eqn:Hi.
  - destruct (findIndex_Some _ _ _ Hi) as [session [Hn [Hf Hp]]].
    rewrite Hf, Hn. cbn zeta. eexists. split; [reflexivity|]. split; [|split].
    + now apply find_update_same.
    + intros other Hne. apply find_update_other; [reflexivity|].
      intros x Hx. rewrite Hn in Hx. injection Hx as <-.
      now apply (hasId_other sessionId).
    + now apply map_update.
  - apply findIndex_None in Hi. rewrite Hi. reflexivity.
Qed.

(** X21.  [markSessionProcessed] throws for an id that no session has and
    writes nothing; otherwise the first session with the id gets the time
    as [processedAt] and keeps its topic, its arguments and its creation
    time, and every other id is looked up as before. *)
Theorem markSessionProcessed_stamps_the_first_session_with_the_id
  (now : Z) (sessionId : string) (sessions : list DebateSession.t) :
  match getSession sessionId sessions with
  | None => markSessionProcessed now sessionId sessions = SessionNotFound sessionId
  | Some session =>
      exists sessions',
        markSessionProcessed now sessionId sessions = Done sessions' /\
        getSession sessionId sessions' = Some (setProcessed now session) /\
        (forall other, other <> sessionId ->
           getSession other sessions' = getSession other sessions) /\
        map DebateSession.arguments sessions' = map DebateSession.arguments sessions
  end.
Proof.
  unfold getSession, markSessionProcessed.
  destruct (findIndex (hasId sessionId) sessions) as [i|] eqn:Hi.
  - destruct (findIndex_Some _ _ _ Hi) as [session [Hn [Hf Hp]]].
    rewrite Hf. eexists. split; [reflexivity|]. split; [|split].
    + now apply find_update_same.
    + intros other Hne. apply find_update_other; [reflexivity|].
      intros x Hx. rewrite Hn in Hx. injection Hx as <-.
      now apply (hasId_other sessionId).
    + now apply map_update.
  - apply findIndex_None in Hi. rewrite Hi. reflexivity.
Qed.

Lemma find_app_last {A : Type} (p : A -> bool) (l : list A) (x : A) :
  find p (l ++ [x]) = match find p l with
                      | Some y => Some y
                      | None => if p x then Some x else None
                      end.
Proof.
  induction l as [|y l IH]; cbn [app find]; [reflexivity|].
  destruct (p y); [reflexivity|exact IH].
Qed.

(** X22.  [createSession] puts the new session, with no argument and not
    processed, behind the stored ones.  A later [getSession] with the new id
    gives the new session only when no stored session has that id already:
    otherwise it still gives the stored one.  Every other id is looked up
    as before. *)
Theorem createSession_is_found_unless_the_id_is_taken
  (newId : string) (now : Z) (topic : string) (sessions : list DebateSession.t) :
  let sessions' := fst (createSession newId now topic sessions) in
  let session := snd (createSession newId now topic sessions) in
  DebateSession.arguments session = [] /\
  DebateSession.processedAt session = None /\
  getSession newId sessions'
  = match getSession newId sessions with
    | Some stored => Some stored
    | None => Some session
    end /\
  (forall other, other <> newId ->
     getSession other sessions' = getSession other sessions).
Proof.
  cbn [createSession fst snd DebateSession.arguments DebateSession.processedAt].
  split; [reflexivity|]. split; [reflexivity|]. unfold getSession. split.
  - rewrite find_app_last. unfold hasId at 2. cbn [DebateSession.id].
    rewrite String.eqb_refl. reflexivity.
  - intros other Hne. rewrite find_app_last. unfold hasId at 2. cbn [DebateSession.id].
    apply not_eq_sym in Hne. apply String.eqb_neq in Hne. rewrite Hne.
    now destruct (find (hasId other) sessions).
Qed.

(** X23.  Every operation of the store keeps the topics in agreement: when
    every stored argument carries the topic of its session, it is so after
    [createSession], after a successful [addArgument] and after a successful
    [markSessionProcessed]. *)
Theorem store_keeps_the_topic_of_every_argument
  (newId : string) (now : Z) (topic sessionId userId userName argumentText : string)
  (sessions : list DebateSession.t)
  (Hagree : topicsAgree sessions) :
  topicsAgree (fst (createSession newId now topic sessions)) /\
  (forall sessions' argument,
     addArgument newId now sessionId userId userName argumentText sessions
     = Done (sessions', argument) ->
     topicsAgree sessions') /\
  (forall sessions',
     markSessionProcessed now sessionId sessions = Done sessions' ->
     topicsAgree sessions').
Proof.
  split; [|split].
  - cbn [createSession fst]. intros session argument Hs Ha.
    apply in_app_or in Hs. destruct Hs as [Hs | [<- | []]]; [now apply Hagree|].
    destruct Ha.
  - intros sessions' added. unfold addArgument.
    destruct (findIndex (hasId sessionId) sessions) as [i|]; [|discriminate].
    destruct (nth_error sessions i) as [stored|] eqn:Hn; [|discriminate].
    intros [= <- <-] session stored' Hs Ha.
    apply In_update in Hs. destruct Hs as [Hs | [x [Hx [Hin ->]]]]; [now apply Hagree|].
    rewrite Hn in Hx. injection Hx as <-.
    cbn [pushArgument DebateSession.arguments DebateSession.topic] in *.
    apply in_app_or in Ha. destruct Ha as [Ha | [<- | []]]; [now apply Hagree|].
    reflexivity.
  - intros sessions'. unfold markSessionProcessed.
    destruct (findIndex (hasId sessionId) sessions) as [i|]; [|discriminate].
    intros [= <-] session argument Hs Ha.
    apply In_update in Hs. destruct Hs as [Hs | [x [Hx [Hin ->]]]]; [now apply Hagree|].
    cbn [setProcessed DebateSession.arguments DebateSession.topic] in *.
    now apply Hagree.
Qed.

End Sessions.

(** ** The further properties on the sessions of the examples *)

Lemma aggregator_unusable_entry_witness :
  (exists results,
     DebateAnalyzer.calculateFinalScores (fun _ => NaN) (fun _ => EmptyString)
       (Some (JObj Demo.scores)) = Return results /\
     NoDup (keys results) /\
     forall userId, userId <> "__proto__"%string ->
       (In userId (keys results) <-> In userId (keys Demo.scores))) /\
  DebateAnalyzer.calculateFinalScores (fun _ => NaN) (fun _ => EmptyString)
    (Some (JObj (Demo.scores
                 ++ [("user3", JObj [("clarity", JObj [("toString", JNum 1)])])])))
  = Throw TypeError.
Proof.
  split.
  - apply (aggregator_throws_exactly_on_an_unusable_entry
             (fun _ => NaN) (fun _ => EmptyString) Demo.scores).
    repeat constructor.
  - apply (aggregator_throws_exactly_on_an_unusable_entry
             (fun _ => NaN) (fun _ => EmptyString)
             (Demo.scores ++ [("user3", JObj [("clarity", JObj [("toString", JNum 1)])])])).
    apply Exists_exists.
    exists ("user3", JObj [("clarity", JObj [("toString", JNum 1)])]).
    split; [|reflexivity]. simpl. tauto.
Defined.

Lemma winner_leads_witness :
  let decision := DebateAnalyzer.determineWinner Demo.results in
  (forall w,
     DebateAnalyzer.Decision.winner decision = Some w <->
     exists e rest, Permutation Demo.results (e :: rest) /\ leads e rest /\ w = winnerOf e) /\
  (DebateAnalyzer.Decision.isTie decision = true <->
   (2 <= List.length Demo.results)%nat /\
   ~ exists e rest, Permutation Demo.results (e :: rest) /\ leads e rest).
Proof.
  apply (winner_leads_every_other_entry Demo.results).
  repeat constructor; (eexists; split; [reflexivity|vm_compute; reflexivity]).
Defined.

Lemma decision_order_witness :
  DebateAnalyzer.determineWinner Demo.results
  = DebateAnalyzer.determineWinner
      [("user3", Demo.result 7.4); ("user1", Demo.result 7.35); ("user2", Demo.result 7.55)].
Proof.
  apply (decision_is_independent_of_the_order Demo.results).
  - repeat constructor; (eexists; split; [reflexivity|vm_compute; reflexivity]).
  - unfold Demo.results.
    apply Permutation_sym.
    apply (Permutation_cons_app [_; _] [] ("user3", Demo.result 7.4)).
    apply Permutation_refl.
Defined.

Lemma judge_failure_witness :
  exists result,
    DebateAnalyzer.analyzeDebate (fun _ => NaN) (fun _ => EmptyString)
      ScenarioA.JSON_parse ScenarioA.generateText 0 ScenarioA.session
    = Return result /\
    DebateResult.sessionId result = "debate_1" /\
    DebateResult.topic result = ScenarioA.topic /\
    DebateResult.processedAt result = 0%Z /\
    NoDup (keys (DebateResult.results result)) /\
    (forall userId,
       In userId (keys (DebateResult.results result)) <->
       exists arg, In arg (DebateSession.arguments ScenarioA.session) /\
                   Argument.userId arg = userId) /\
    DebateResult.consensusStatement result
    = Some (JStr ("Fallback analysis: "
                  ++ nat_to_string 2
                  ++ " arguments analyzed using basic heuristics. Results may vary from AI analysis.")) /\
    (DebateResult.winner result = None <-> DebateResult.isTie result = true).
Proof.
  eapply (judge_failure_falls_back_to_the_heuristic (fun _ => NaN) (fun _ => EmptyString)
            ScenarioA.JSON_parse ScenarioA.generateText 0 ScenarioA.session _
            (Rejected "AI not available - using fallback mode")).
  - simpl. intros [H|[H|[]]]; discriminate H.
  - reflexivity.
  - left. reflexivity.
Defined.

Lemma judge_answer_witness :
  exists result,
    DebateAnalyzer.analyzeDebate (fun _ => NaN) (fun _ => EmptyString)
      Judge.JSON_parse Judge.generateText 0 ScenarioA.session
    = Return result /\
    NoDup (keys (DebateResult.results result)) /\
    (forall userId, userId <> "__proto__"%string ->
       (In userId (keys (DebateResult.results result)) <-> In userId (keys Demo.scores))) /\
    (forall arg, In arg (DebateSession.arguments ScenarioA.session) ->
       In (Argument.userId arg) (keys (DebateResult.results result))) /\
    DebateResult.consensusStatement result = Some (JStr "Both sides have a point.") /\
    (DebateResult.winner result = None <-> DebateResult.isTie result = true).
Proof.
  apply (judge_answer_is_aggregated_entry_by_entry (fun _ => NaN) (fun _ => EmptyString)
           Judge.JSON_parse Judge.generateText 0 ScenarioA.session Judge.payload Demo.scores).
  - simpl. intros [H|[H|[]]]; discriminate H.
  - vm_compute. reflexivity.
  - reflexivity.
  - repeat constructor.
Defined.

Lemma winner_reference_witness :
  exists result w,
    DebateAnalyzer.analyzeDebate (fun _ => NaN) (fun _ => EmptyString)
      ScenarioA.JSON_parse ScenarioA.generateText 0 ScenarioA.session
    = Return result /\
    DebateResult.winner (DebateRefereeCLI.fillUserNames ScenarioA.session result) = Some w /\
    Winner.userId w = "user1" /\
    Winner.userName w = EmptyString /\
    exists r,
      In (Winner.userId w, r)
         (DebateResult.results (DebateRefereeCLI.fillUserNames ScenarioA.session result)) /\
      UserResult.finalScore r = Winner.finalScore w /\
      forall arg,
        find (fun arg => String.eqb (Argument.userId arg) (Winner.userId w))
             (DebateSession.arguments ScenarioA.session) = Some arg ->
        UserResult.userName r = Argument.userName arg.
Proof.
  eexists. eexists.
  split; [vm_compute; reflexivity|].
  split; [vm_compute; reflexivity|].
  split; [reflexivity|].
  apply (winner_reference_keeps_an_empty_name (fun _ => NaN) (fun _ => EmptyString)
           ScenarioA.JSON_parse ScenarioA.generateText 0 ScenarioA.session).
  - vm_compute. reflexivity.
  - vm_compute. reflexivity.
Defined.


Lemma prompt_witness :
  DebateAnalyzer.constructAnalysisPrompt Stored.created = Throw TypeError /\
  exists prompt,
    DebateAnalyzer.constructAnalysisPrompt ScenarioA.session = Return prompt /\
    includes prompt (DebateAnalyzer.quoted ScenarioA.topic) = true /\
    includes prompt (DebateAnalyzer.quoted "user1") = true /\
    forall arg, In arg (DebateSession.arguments ScenarioA.session) ->
      includes prompt (Argument.userName arg) = true /\
      includes prompt (Argument.text arg) = true.
Proof.
  split.
  - apply (prompt_shows_the_topic_and_every_argument Stored.created). reflexivity.
  - apply (proj2 (prompt_shows_the_topic_and_every_argument ScenarioA.session)
             ScenarioA.argument1 [ScenarioA.argument2]).
    reflexivity.
Defined.

Lemma validator_braces_witness :
  (match_braces "Here: {}{}." = Some "{}{}"%string /\
   DebateAnalyzer.parseAIResponse NullEntry.JSON_parse "Here: {}{}." NullEntry.session
   = DebateAnalyzer.parseAIResponse NullEntry.JSON_parse "{}{}" NullEntry.session) /\
  exists before body behind,
    Judge.response = (before ++ Judge.answer ++ behind)%string /\
    Judge.answer = ("{" ++ body ++ "}")%string /\
    hasChar open_brace before = false /\
    hasChar close_brace behind = false.
Proof.
  split.
  - apply (proj1 (validator_ignores_the_text_around_the_braces
                    NullEntry.JSON_parse NullEntry.session) "Here: " "}{" "."); reflexivity.
  - apply (proj2 (validator_ignores_the_text_around_the_braces
                    NullEntry.JSON_parse NullEntry.session) Judge.response Judge.answer).
    vm_compute. reflexivity.
Defined.

Lemma white_space_relevance_witness :
  Score.relevance
    (DebateAnalyzer.fallbackScore "Should AI replace human teachers?" " Pizza is tasty.")
  == 10.
Proof.
  apply (text_with_white_space_around_gets_relevance_10
           "Should AI replace human teachers?" " Pizza is tasty.").
  left. exists " "%char, "Pizza is tasty."%string. split; reflexivity.
Defined.


Lemma wrapped_lines_witness :
  String.concat " " (ResultPrinter.wrapText "the quick brown fox jumps" 9)
  = "the quick brown fox jumps"%string.
Proof.
  apply (wrapped_lines_give_the_text_back "the quick brown fox jumps" 9).
  vm_compute. repeat (constructor; [discriminate|]). constructor.
Defined.

Lemma wrapped_width_witness :
  Forall (fun l => (Z.of_nat (String.length l) <= 5 + 1)%Z)
         (ResultPrinter.wrapText "ab cde fgh" 5) /\
  exists text line,
    Forall (fun w => (Z.of_nat (String.length w) <= 5)%Z) (ResultPrinter.split_space text) /\
    ResultPrinter.wrapText text 5 = [line] /\
    Z.of_nat (String.length line) = (5 + 1)%Z.
Proof.
  split.
  - apply (proj1 (wrapped_lines_exceed_the_width_by_at_most_one 5) "ab cde fgh").
    repeat constructor; vm_compute; discriminate.
  - apply (proj2 (wrapped_lines_exceed_the_width_by_at_most_one 5)). lia.
Defined.

Lemma short_text_witness :
  ResultPrinter.wrapText "Short text" 50 = ["Short text"%string].
Proof.
  apply (proj1 (short_text_is_one_line_and_blank_text_none 50) "S"%char "hort text"%string).
  - discriminate.
  - vm_compute. discriminate.
Defined.

Lemma centred_line_witness :
  (exists before behind : nat,
     ResultPrinter.printCentered "|"%char "DEBATE"
     = ResultPrinter.Printed
         (String "|"%char
            (ResultPrinter.copies " " before ++ "DEBATE"
             ++ ResultPrinter.copies " " behind ++ String "|"%char EmptyString)) /\
     (before + 6 + behind = 78)%nat /\
     (behind = before \/ behind = S before) /\
     String.length
       (String "|"%char
          (ResultPrinter.copies " " before ++ "DEBATE"
           ++ ResultPrinter.copies " " behind ++ String "|"%char EmptyString)) = 80%nat) /\
  ResultPrinter.printCentered "|"%char (ResultPrinter.copies "x" 79)
  = ResultPrinter.RangeError /\
  ResultPrinter.printTopic "|"%char (ResultPrinter.copies "x" 72) = ResultPrinter.RangeError.
Proof.
  split; [|split].
  - apply (centred_line_is_80_wide_or_a_range_error "|"%char "DEBATE"). vm_compute. discriminate.
  - apply (centred_line_is_80_wide_or_a_range_error "|"%char (ResultPrinter.copies "x" 79)).
    vm_compute. reflexivity.
  - apply (centred_line_is_80_wide_or_a_range_error "|"%char (ResultPrinter.copies "x" 72)).
    vm_compute. reflexivity.
Defined.

Lemma addArgument_witness :
  let argument :=
    {| Argument.id := "debate_4";
       Argument.userId := "user3";
       Argument.userName := "Carol";
       Argument.topic := "Should AI replace human teachers?";
       Argument.text := "Teachers and machines can share the work.";
       Argument.timestamp := 4 |} in
  (exists sessions',
     DebateStore.addArgument "debate_4" 4 "debate_2" "user3" "Carol"
       "Teachers and machines can share the work." Stored.sessions
     = DebateStore.Done (sessions', argument) /\
     DebateStore.getSession "debate_2" sessions'
     = Some (DebateStore.pushArgument argument Repeated.session) /\
     (forall other, other <> "debate_2"%string ->
        DebateStore.getSession other sessions'
        = DebateStore.getSession other Stored.sessions) /\
     map DebateSession.id sessions' = map DebateSession.id Stored.sessions) /\
  DebateStore.addArgument "debate_4" 4 "debate_9" "user3" "Carol"
    "Teachers and machines can share the work." Stored.sessions
  = DebateStore.SessionNotFound "debate_9".
Proof.
  split.
  - exact (addArgument_appends_to_the_first_session_with_the_id
             "debate_4" 4 "debate_2" "user3" "Carol"
             "Teachers and machines can share the work." Stored.sessions).
  - exact (addArgument_appends_to_the_first_session_with_the_id
             "debate_4" 4 "debate_9" "user3" "Carol"
             "Teachers and machines can share the work." Stored.sessions).
Defined.

Lemma markSessionProcessed_witness :
  (exists sessions',
     DebateStore.markSessionProcessed 5 "debate_1" Stored.sessions
     = DebateStore.Done sessions' /\
     DebateStore.getSession "debate_1" sessions'
     = Some (DebateStore.setProcessed 5 ScenarioA.session) /\
     (forall other, other <> "debate_1"%string ->
        DebateStore.getSession other sessions'
        = DebateStore.getSession other Stored.sessions) /\
     map DebateSession.arguments sessions'
     = map DebateSession.arguments Stored.sessions) /\
  DebateStore.markSessionProcessed 5 "debate_9" Stored.sessions
  = DebateStore.SessionNotFound "debate_9".
Proof.
  split.
  - exact (markSessionProcessed_stamps_the_first_session_with_the_id
             5 "debate_1" Stored.sessions).
  - exact (markSessionProcessed_stamps_the_first_session_with_the_id
             5 "debate_9" Stored.sessions).
Defined.

Lemma createSession_witness :
  DebateStore.getSession "debate_3"
    (fst (DebateStore.createSession "debate_3" 3 "Is remote work here to stay?"
            Stored.sessions))
  = Some Stored.created /\
  DebateStore.getSession "debate_1"
    (fst (DebateStore.createSession "debate_1" 3 "Is remote work here to stay?"
            Stored.sessions))
  = Some ScenarioA.session.
Proof.
  split.
  - exact (proj1 (proj2 (proj2 (createSession_is_found_unless_the_id_is_taken
             "debate_3" 3 "Is remote work here to stay?" Stored.sessions)))).
  - exact (proj1 (proj2 (proj2 (createSession_is_found_unless_the_id_is_taken
             "debate_1" 3 "Is remote work here to stay?" Stored.sessions)))).
Defined.

Lemma store_topics_witness :
  topicsAgree
    (fst (DebateStore.createSession "debate_3" 3 "Is remote work here to stay?"
            Stored.sessions)) /\
  (forall sessions' argument,
     DebateStore.addArgument "debate_3" 3 "debate_2" "user3" "Carol"
       "Teachers and machines can share the work." Stored.sessions
     = DebateStore.Done (sessions', argument) ->
     topicsAgree sessions') /\
  (forall sessions',
     DebateStore.markSessionProcessed 3 "debate_2" Stored.sessions
     = DebateStore.Done sessions' ->
     topicsAgree sessions').
Proof.
  apply (store_keeps_the_topic_of_every_argument
           "debate_3" 3 "Is remote work here to stay?" "debate_2" "user3" "Carol"
           "Teachers and machines can share the work." Stored.sessions).
  intros session argument [<- | [<- | []]] Ha; simpl in Ha;
    repeat (destruct Ha as [<- | Ha]; [reflexivity|]); destruct Ha.
Defined.
